(** * mobilehound: the abstract message cipher and the NIST curve points

    A shallow embedding of [v0-abstract/cipher.go] (the [Cipher] wrapper
    around the [CipherState] interface) and of the NIST [curvePoint]
    implementation, with the properties of sealing, opening, data
    embedding and point marshalling stated over it.

    Go values are modelled as follows.
    - [int] is a 64-bit two's complement integer: a [Z] with the
      wrap-around of every subtraction and addition written out ([wrap]).
    - a byte is a [Z]; XOR and OR are [Z.lxor] and [Z.lor].
    - a byte slice is a window (array, offset, length, capacity) into a
      store of arrays, so that aliasing between slices is visible.
    - a function that may panic runs in a state-and-panic monad [M]. *)

From Stdlib Require Import ZArith List Lia Bool String.
From stdpp Require Import base list.
Import ListNotations.

Local Open Scope Z_scope.

(** ** Machine integers *)

Definition int_min : Z := - 2 ^ 63.
Definition int_max : Z := 2 ^ 63 - 1.

(** Two's complement wrap-around of a 64-bit [int]. *)
Definition wrap (z : Z) : Z := (z + 2 ^ 63) mod 2 ^ 64 - 2 ^ 63.

Definition int_add (a b : Z) : Z := wrap (a + b).
Definition int_sub (a b : Z) : Z := wrap (a - b).

Definition int_range (z : Z) : Prop := int_min <= z <= int_max.

(** ** Slices and the store of arrays *)

(** A slice header.  The nil slice has array 0, which every store keeps
    empty, and length and capacity 0. *)
Record slice := Slice { s_buf : nat; s_off : nat; s_len : nat; s_cap : nat }.

Definition nil_slice : slice := Slice 0 0 0 0.

Abbreviation heap := (list (list Z)).

(** The store a program starts with: only the empty array of [nil]. *)
Definition heap0 : heap := [[]].

Definition array_of (h : heap) (b : nat) : list Z := default [] (h !! b).

(** [s[i]] for reading, with the zero default that [Message] uses for a
    short source or key. *)
Definition sl_get (h : heap) (s : slice) (i : nat) : Z :=
  if (i <? s_len s)%nat then default 0 (array_of h (s_buf s) !! (s_off s + i)%nat) else 0.

(** [s[i] = v], discarded when [s] is too short. *)
Definition sl_set (h : heap) (s : slice) (i : nat) (v : Z) : heap :=
  if (i <? s_len s)%nat
  then <[s_buf s := <[(s_off s + i)%nat := v]> (array_of h (s_buf s))]> h
  else h.

(** The bytes a slice denotes. *)
Definition sl_bytes (h : heap) (s : slice) : list Z :=
  take (s_len s) (drop (s_off s) (array_of h (s_buf s))).

(** Overwrite the first bytes of [s] with [bs] (at most [len(s)] of them). *)
Definition sl_write (h : heap) (s : slice) (bs : list Z) : heap :=
  let arr := array_of h (s_buf s) in
  let bs' := take (s_len s) bs in
  <[s_buf s := take (s_off s) arr ++ bs' ++ drop (s_off s + length bs') arr]> h.

(** A slice is well formed in a store when its window lies inside an
    allocated array. *)
Definition sl_wf (h : heap) (s : slice) : Prop :=
  (s_buf s < length h)%nat /\
  (s_len s <= s_cap s)%nat /\
  (s_off s + s_cap s <= length (array_of h (s_buf s)))%nat.

Definition heap_wf (h : heap) : Prop := h !! 0%nat = Some [].

(** ** Panics and errors *)

Inductive panic :=
  IndexOutOfRange | SliceBoundsOutOfRange | MakeOutOfRange | NilDereference | DivisionByZero.

Inductive error := ErrTooShort | ErrAuthFailed.

(** The texts given to [errors.New]. *)
Definition error_text (e : error) : String.string :=
  match e with
  | ErrTooShort => "sealed ciphertext too short"%string
  | ErrAuthFailed => "ciphertext authentication failed"%string
  end.

(** ** The CipherState interface *)

(** An implementation of [CipherState], as its documentation specifies it:
    a duplex object that hands out one pseudorandom byte ([cs_squeeze]) and
    absorbs one key byte ([cs_absorb]) per byte processed, and accounts for
    a message boundary ([cs_boundary]).  The concrete algorithms are not
    part of this package; everything below is generic in the instance. *)
Class CipherState (St : Type) := {
  cs_squeeze : St -> Z;
  cs_absorb : St -> Z -> St;
  cs_boundary : St -> St;
  cs_KeySize : St -> Z;
  cs_HashSize : St -> Z
}.

Inductive call_kind := KMessage | KPartial.

(** A record of one call into the underlying state. *)
Record call := Call { c_kind : call_kind; c_obj : nat; c_dst : slice; c_src : slice; c_key : slice }.

(** What an observer of the control flow sees: each conditional branch
    with the way it went, and each turn of a loop. *)
Inductive leak := Branch (taken : bool) | LoopIter.

(** ** Programs that may panic

    A Go function is a state transformer over a world [W] that returns a
    value or panics. *)
Inductive outcome (W A : Type) :=
| Ret (a : A) (w : W)
| Panics (p : panic).

Arguments Ret {W A} a w.
Arguments Panics {W A} p.

Definition M (W A : Type) : Type := W -> outcome W A.

Definition ret {W A} (a : A) : M W A := fun w => Ret a w.

Definition bind {W A B} (m : M W A) (k : A -> M W B) : M W B :=
  fun w => match m w with
           | Ret a w' => k a w'
           | Panics p => Panics p
           end.

Definition throw {W A} (p : panic) : M W A := fun _ => Panics p.

Notation "'do' x <- m ; k" := (bind m (fun x => k))
  (at level 10, x name, m at level 100, k at level 200).
Notation "'do' ' p <- m ; k" := (bind m (fun x => let p := x in k))
  (at level 10, p pattern, m at level 100, k at level 200).

(** The world of the cipher programs: the arrays, the cipher state objects
    (a [Cipher] holds the index of one), the calls made into them, and the
    control flow observed so far. *)
Record world (St : Type) := World {
  w_heap : heap;
  w_ciphers : list St;
  w_calls : list call;
  w_leak : list leak
}.

Arguments World {St} _ _ _ _.
Arguments w_heap {St} _.
Arguments w_ciphers {St} _.
Arguments w_calls {St} _.
Arguments w_leak {St} _.

Section Cipher.

Context {St : Type} `{CS : CipherState St}.

Local Abbreviation M := (M (world St)).

(** *** Go's slice primitives *)

(** [s[a:b]]. *)
Definition reslice (s : slice) (a b : Z) : M slice :=
  if (0 <=? a) && (a <=? b) && (b <=? Z.of_nat (s_cap s))
  then ret (Slice (s_buf s) (s_off s + Z.to_nat a) (Z.to_nat (b - a)) (s_cap s - Z.to_nat a))
  else throw SliceBoundsOutOfRange.

Definition len (s : slice) : Z := Z.of_nat (s_len s).
Definition cap (s : slice) : Z := Z.of_nat (s_cap s).

(** [make([]byte, n, c)]: a fresh zeroed array. *)
Definition make (n c : Z) : M slice := fun w =>
  if (0 <=? n) && (n <=? c) && (c <=? int_max)
  then Ret (Slice (length (w_heap w)) 0 (Z.to_nat n) (Z.to_nat c))
           (World (w_heap w ++ [replicate (Z.to_nat c) 0]) (w_ciphers w) (w_calls w) (w_leak w))
  else Panics MakeOutOfRange.

(** [copy(dst, src)]: the source is read before anything is written. *)
Definition copy (dst src : slice) : M unit := fun w =>
  Ret tt (World (sl_write (w_heap w) dst (sl_bytes (w_heap w) src))
                (w_ciphers w) (w_calls w) (w_leak w)).

(** An [if] on [b]: the observer learns which way it goes. *)
Definition branch (b : bool) : M bool := fun w =>
  Ret b (World (w_heap w) (w_ciphers w) (w_calls w) (w_leak w ++ [Branch b])).

(** One turn of a [for ... range] loop. *)
Definition tick : M unit := fun w =>
  Ret tt (World (w_heap w) (w_ciphers w) (w_calls w) (w_leak w ++ [LoopIter])).

(** [&s[i]]: the address of an element, an (array, position) pair. *)
Definition addr (s : slice) (i : nat) : M (nat * nat) :=
  if (i <? s_len s)%nat then ret (s_buf s, (s_off s + i)%nat) else throw IndexOutOfRange.

Definition addr_eqb (a b : nat * nat) : bool :=
  (fst a =? fst b)%nat && (snd a =? snd b)%nat.

(** Modelled from the spec: [util.Grow] is not in this package.  It makes
    room for [n] more bytes at the end of [s], reusing the array of [s]
    when its capacity suffices and allocating a larger one otherwise, and
    returns the whole slice and the new [n]-byte region. *)
Definition Grow (s : slice) (n : Z) : M (slice * slice) :=
  let l := len s in
  let nl := int_add l n in
  do grow <- branch (cap s <? nl);
  do s' <- (if grow
            then do ns <- make nl (wrap ((nl + 1) * 2));
                 do _ <- copy ns s;
                 ret ns
            else ret s);
  do whole <- reslice s' 0 nl;
  do region <- reslice s' l nl;
  ret (whole, region).

(** *** Calls into the underlying state *)

(** One pass of a duplex cipher over [n] bytes starting at index [i]:
    byte [i] of [dst] receives byte [i] of [src] XOR a pseudorandom byte,
    then byte [i] of [key] is absorbed.  Short [src] and [key] read as
    zero; output beyond [dst] is dropped.  [key] is read after [dst] is
    written, so a key that is the destination absorbs the output. *)
Fixpoint duplex (n i : nat) (dst src key : slice) (st : St) (h : heap) : St * heap :=
  match n with
  | O => (st, h)
  | S n' =>
      let o := Z.lxor (sl_get h src i) (cs_squeeze st) in
      let h' := sl_set h dst i o in
      duplex n' (S i) dst src key (cs_absorb st (sl_get h' key i)) h'
  end.

Definition max3 (a b c : nat) : nat := Nat.max a (Nat.max b c).

Definition state_Partial (dst src key : slice) (st : St) (h : heap) : St * heap :=
  duplex (max3 (s_len dst) (s_len src) (s_len key)) 0 dst src key st h.

Definition state_Message (dst src key : slice) (st : St) (h : heap) : St * heap :=
  let '(st', h') := state_Partial dst src key st h in (cs_boundary st', h').

(** A [Cipher] wraps one [CipherState]: here the index of its state. *)
Record Cipher := MkCipher { CipherState_of : nat }.

Definition invoke (k : call_kind) (c : Cipher) (dst src key : slice) : M unit := fun w =>
  match w_ciphers w !! CipherState_of c with
  | None => Panics NilDereference
  | Some st =>
      let '(st', h') :=
        match k with
        | KMessage => state_Message dst src key st (w_heap w)
        | KPartial => state_Partial dst src key st (w_heap w)
        end in
      Ret tt (World h' (<[CipherState_of c := st']> (w_ciphers w))
                   (w_calls w ++ [Call k (CipherState_of c) dst src key])
                   (w_leak w))
  end.

Definition KeySize (c : Cipher) : M Z := fun w =>
  match w_ciphers w !! CipherState_of c with
  | None => Panics NilDereference
  | Some st => Ret (cs_KeySize st) w
  end.

Definition HashSize (c : Cipher) : M Z := fun w =>
  match w_ciphers w !! CipherState_of c with
  | None => Panics NilDereference
  | Some st => Ret (cs_HashSize st) w
  end.

(** *** The methods of [Cipher] *)

Definition Message (c : Cipher) (dst src key : slice) : M Cipher :=
  do _ <- invoke KMessage c dst src key; ret c.

Definition Partial (c : Cipher) (dst src key : slice) : M Cipher :=
  do _ <- invoke KPartial c dst src key; ret c.

Definition Read (c : Cipher) (dst : slice) : M (Z * option error) :=
  do _ <- invoke KPartial c dst nil_slice nil_slice; ret (len dst, None).

Definition Write (c : Cipher) (key : slice) : M (Z * option error) :=
  do _ <- invoke KPartial c nil_slice nil_slice key; ret (len key, None).

Definition EndMessage (c : Cipher) : M unit :=
  invoke KMessage c nil_slice nil_slice nil_slice.

Definition XORKeyStream (c : Cipher) (dst src : slice) : M unit :=
  do d <- reslice dst 0 (len src);
  invoke KPartial c d src nil_slice.

Definition Sum (c : Cipher) (dst : slice) : M slice :=
  do _ <- EndMessage c;
  do h <- HashSize c;
  do '(dst, hash) <- Grow dst h;
  do _ <- Message c hash nil_slice nil_slice;
  ret dst.

Definition Seal (c : Cipher) (dst src : slice) : M slice :=
  let l := len src in
  do m <- KeySize c;
  do '(dst, buf) <- Grow dst (int_add l m);
  do ctx <- reslice buf 0 l;
  do mac <- reslice buf l (len buf);
  do _ <- Message c ctx src ctx;
  do _ <- Message c mac nil_slice nil_slice;
  ret dst.

(** Modelled from the spec: [subtle.ConstantTimeAllEq] is not in this
    package.  It ORs together the XOR of every byte of [x] with [y], one
    loop turn per byte and no branch, and returns 1 when the accumulator
    is zero and 0 otherwise. *)
Fixpoint or_accumulate (x : list Z) (y z : Z) : M Z :=
  match x with
  | [] => ret z
  | b :: x' => do _ <- tick; or_accumulate x' y (Z.lor z (Z.lxor b y))
  end.

(** [subtle.ConstantTimeByteEq] of Go's library: 1 when the two bytes
    are equal and 0 otherwise, computed without a branch. *)
Definition ConstantTimeByteEq (x y : Z) : Z :=
  if Z.lxor x y =? 0 then 1 else 0.

Definition ConstantTimeAllEq (x : slice) (y : Z) : M Z :=
  fun w => (do z <- or_accumulate (sl_bytes (w_heap w) x) y 0;
            ret (ConstantTimeByteEq z 0)) w.

Definition Open (c : Cipher) (dst src : slice) : M (slice * option error) :=
  do m <- KeySize c;
  let l := int_sub (len src) m in
  do short <- branch (l <? 0);
  if short then ret (nil_slice, Some ErrTooShort) else
  do ctx <- reslice src 0 l;
  do mac <- reslice src l (len src);
  do '(dst, msg) <- Grow dst l;
  do pm <- addr msg 0;
  do pc <- addr ctx 0;
  do apart <- branch (negb (addr_eqb pm pc));
  do _ <- (if apart
           then Message c msg ctx ctx
           else do tmp <- make l l;
                do _ <- Message c tmp ctx ctx;
                do _ <- copy msg tmp;
                ret c);
  do _ <- Message c mac mac nil_slice;
  do eq <- ConstantTimeAllEq mac 0;
  do bad <- branch (eq =? 0);
  if bad then ret (nil_slice, Some ErrAuthFailed) else ret (dst, None).

(** [Clone]: a new state object, initially identical, shared with nobody. *)
Definition Clone (c : Cipher) : M Cipher := fun w =>
  match w_ciphers w !! CipherState_of c with
  | None => Panics NilDereference
  | Some st =>
      Ret (MkCipher (length (w_ciphers w)))
          (World (w_heap w) (w_ciphers w ++ [st]) (w_calls w) (w_leak w))
  end.

(** *** What one pass computes

    The bytes a pass over inputs [xs] and keys [ks] puts out and the state
    it ends in.  With [kd] the key is the destination, so the output byte
    is absorbed; otherwise the key byte is. *)
Fixpoint transduce (kd : bool) (st : St) (xs ks : list Z) : list Z * St :=
  match xs with
  | [] => ([], st)
  | x :: xs' =>
      let o := Z.lxor x (cs_squeeze st) in
      let a := if kd then o else hd 0 ks in
      let '(os, st') := transduce kd (cs_absorb st a) xs' (tl ks) in
      (o :: os, st')
  end.

(** The ciphertext of [msg] and the state after it: [Message(ctx, msg, ctx)]. *)
Definition encrypt (st : St) (msg : list Z) : list Z * St :=
  let '(ctx, st') := transduce true st msg [] in (ctx, cs_boundary st').

(** The plaintext of [ctx] and the state after it: [Message(msg, ctx, ctx)]. *)
Definition decrypt (st : St) (ctx : list Z) : list Z * St :=
  let '(msg, st') := transduce false st ctx ctx in (msg, cs_boundary st').

(** The [n]-byte MAC a state produces: [Message(mac, nil, nil)]. *)
Definition mac_of (st : St) (n : nat) : list Z :=
  fst (transduce false st (replicate n 0) (replicate n 0)).

(** The MAC buffer after [Message(mac, mac, nil)]: the received MAC XOR
    the one recomputed after decrypting [ctx]. *)
Definition mac_check (st : St) (ctx rmac : list Z) : list Z :=
  zip_with Z.lxor rmac (mac_of (snd (decrypt st ctx)) (length rmac)).

(** The round trip: seal on one cipher, open on a clone taken before. *)
Definition seal_then_open (c : Cipher) (src : slice) : M (slice * option error) :=
  do c2 <- Clone c;
  do sealed <- Seal c nil_slice src;
  Open c2 nil_slice sealed.

End Cipher.



(** ** Notions used to state the properties of the cipher *)

(** [s] shares no byte with [d]: another array, no bytes at all, or a
    window of the same array that does not meet the window of [d]. *)
Definition apart (d s : slice) : Prop :=
  s_buf s <> s_buf d \/ s_len s = 0%nat \/
  (s_off s + s_len s <= s_off d)%nat \/ (s_off d + s_len d <= s_off s)%nat.

(** The store after the bytes [os] are put into [d] from index [i] on. *)
Definition sl_splice (h : heap) (d : slice) (i : nat) (os : list Z) : heap :=
  let arr := array_of h (s_buf d) in
  <[s_buf d := take (s_off d + i) arr ++ os ++ drop (s_off d + i + length os) arr]> h.

(** What [Grow] hands back: the old arrays are untouched, the region is
    the [n] bytes after the old contents, in the old array or a new one. *)
Record grown (h : heap) (s : slice) (n : nat) (whole region : slice) (h' : heap) : Prop := {
  grown_old : forall b, (b < length h)%nat -> array_of h' b = array_of h b;
  grown_len : (length h <= length h')%nat;
  grown_whole : sl_wf h' whole;
  grown_region : sl_wf h' region;
  grown_buf : s_buf region = s_buf whole;
  grown_off : s_off region = (s_off whole + s_len s)%nat;
  grown_n : s_len region = n;
  grown_total : s_len whole = (s_len s + n)%nat;
  grown_prefix : take (s_len s) (drop (s_off whole) (array_of h' (s_buf whole))) = sl_bytes h s;
  grown_where : (s_buf whole = s_buf s /\ s_off whole = s_off s) \/ s_buf whole = length h;
  grown_fresh : (s_cap s < s_len s + n)%nat -> s_buf whole = length h;
  grown_reuse : (s_len s + n <= s_cap s)%nat ->
                s_buf whole = s_buf s /\ s_off whole = s_off s /\ h' = h
}.

(** The branches [Open] takes before the MAC is checked: the length test,
    the growth of [dst], and the test whether the plaintext would land on
    the ciphertext.  They depend on the slice headers only. *)
Definition open_branches (dst src : slice) (l : nat) : list leak :=
  [Branch false;
   Branch (Z.of_nat (s_cap dst) <? Z.of_nat (s_len dst) + Z.of_nat l);
   Branch (negb ((s_buf dst =? s_buf src)%nat && (s_off dst + s_len dst =? s_off src)%nat
                 && (s_len dst + l <=? s_cap dst)%nat))].

(** Where [Open] may be told to put the [l] bytes of plaintext: in bytes
    that are none of [src]'s (another array, or a new one because the
    capacity of [dst] does not suffice), exactly over the ciphertext
    (decryption in place), or in the array of [src] with the window of
    [dst], the room for the plaintext included, clear of the window of
    [src].  What is left are the partial overlaps, which the contract of
    [Message] rules out. *)
Definition placed (dst src : slice) (l : nat) : Prop :=
  (s_buf dst <> s_buf src \/ (s_cap dst < s_len dst + l)%nat) \/
  (s_buf dst = s_buf src /\ (s_off dst + s_len dst)%nat = s_off src /\
   (s_len dst + l <= s_cap dst)%nat) \/
  (s_buf dst = s_buf src /\ (s_len dst + l <= s_cap dst)%nat /\
   ((s_off dst + s_len dst + l <= s_off src)%nat \/
    (s_off src + s_len src <= s_off dst)%nat)).

Module Nist.

(** *** math/big *)

(** [n] big-endian bytes of [a]. *)
Fixpoint to_be (n : nat) (a : Z) : list Z :=
  match n with
  | O => []
  | S k => (a / 256 ^ Z.of_nat k) mod 256 :: to_be k a
  end.

(** [x.Bytes()]: the big-endian bytes of the absolute value, without
    leading zeros. *)
Definition big_Bytes (x : Z) : list Z :=
  let a := Z.abs x in
  if a =? 0 then [] else to_be (Z.to_nat (Z.log2 a / 8 + 1)) a.

(** [new(big.Int).SetBytes(b)]. *)
Definition big_SetBytes (b : list Z) : Z :=
  fold_left (fun acc x => acc * 256 + x) b 0.

(** [x.BitLen()]. *)
Definition big_BitLen (x : Z) : Z :=
  if x =? 0 then 0 else Z.log2 (Z.abs x) + 1.

(** [z.Mod(x, m)]: the Euclidean modulus, for [m <> 0]. *)
Definition big_Mod (x m : Z) : Z := x mod Z.abs m.

(** *** The world of the curve programs

    A [*big.Int] is a location in a store of integers, or nil.  The world
    also holds what is left of the random stream and the loop turns seen. *)
Definition ptr := option nat.

Record nworld := NWorld {
  ints : list Z;
  rnd : nat -> Z;
  turns : nat
}.

Abbreviation M := (M nworld).

(** [new(big.Int)] set to [v]. *)
Definition new_int (v : Z) : M ptr := fun w =>
  Ret (Some (length (ints w))) (NWorld (ints w ++ [v]) (rnd w) (turns w)).

(** Reading through a pointer. *)
Definition load (p : ptr) : M Z := fun w =>
  match p with
  | None => Panics NilDereference
  | Some l => match ints w !! l with
              | Some v => Ret v w
              | None => Panics NilDereference
              end
  end.

(** Writing through a pointer: the object is changed in place. *)
Definition store (p : ptr) (v : Z) : M unit := fun w =>
  match p with
  | None => Panics NilDereference
  | Some l => if (l <? length (ints w))%nat
              then Ret tt (NWorld (<[l := v]> (ints w)) (rnd w) (turns w))
              else Panics NilDereference
  end.

(** [rand.XORKeyStream(b, b)]: [b] XOR the next bytes of the stream. *)
Definition XORKeyStream (b : list Z) : M (list Z) := fun w =>
  Ret (zip_with Z.lxor b (map (rnd w) (seq 0 (length b))))
      (NWorld (ints w) (fun i => rnd w (length b + i)%nat) (turns w)).

Definition loop_turn : M unit := fun w =>
  Ret tt (NWorld (ints w) (rnd w) (S (turns w))).

(** [b[i]] and [b[lo:hi]] on a byte slice whose capacity is its length. *)
Definition index (b : list Z) (i : Z) : M Z :=
  if (0 <=? i) && (i <? Z.of_nat (length b))
  then ret (nth (Z.to_nat i) b 0) else throw IndexOutOfRange.

Definition subslice (b : list Z) (lo hi : Z) : M (list Z) :=
  if (0 <=? lo) && (lo <=? hi) && (hi <=? Z.of_nat (length b))
  then ret (take (Z.to_nat (hi - lo)) (drop (Z.to_nat lo) b))
  else throw SliceBoundsOutOfRange.

(** [copy(b[lo:hi], src)], the result being the whole of [b]. *)
Definition copy_into (b : list Z) (lo hi : Z) (src : list Z) : M (list Z) :=
  do dst <- subslice b lo hi;
  let n := Nat.min (length dst) (length src) in
  ret (take (Z.to_nat lo) b ++ take n src ++ drop (Z.to_nat lo + n) b).

(** [b[i] = v]. *)
Definition set_index (b : list Z) (i : Z) (v : Z) : M (list Z) :=
  if (0 <=? i) && (i <? Z.of_nat (length b))
  then ret (<[Z.to_nat i := v]> b) else throw IndexOutOfRange.

(** *** The curve *)

(** [elliptic.CurveParams].  [P], [N] and [B] are never written and stand
    for their values; [Gx] and [Gy] are handed to points by [Base] and
    are objects of the store. *)
Record CurveParams := {
  cp_P : Z;
  cp_N : Z;
  cp_B : Z;
  cp_Gx : nat;
  cp_Gy : nat;
  cp_BitSize : Z
}.

(** [curve]: the methods of the embedded [elliptic.Curve] and [curveOps]
    interfaces, and the parameters.  The interface methods read their
    arguments and return new integers. *)
Record curve := {
  c_IsOnCurve : Z -> Z -> bool;
  c_Add : Z -> Z -> Z -> Z -> Z * Z;
  c_ScalarMult : Z -> Z -> list Z -> Z * Z;
  c_ScalarBaseMult : list Z -> Z * Z;
  c_sqrt : Z -> Z;
  c_p : CurveParams
}.

Record curvePoint := {
  pt_x : ptr;
  pt_y : ptr;
  pt_c : curve
}.

Definition with_xy (p : curvePoint) (x y : ptr) : curvePoint :=
  {| pt_x := x; pt_y := y; pt_c := pt_c p |}.

Definition PrimeOrder (g : curve) : bool := true.

Definition ScalarLen (c : curve) : Z := Z.quot (big_BitLen (cp_N (c_p c)) + 7) 8.

Definition coordLen (c : curve) : Z := Z.quot (cp_BitSize (c_p c) + 7) 8.

Definition PointLen (c : curve) : Z := 1 + 2 * coordLen c.

Definition Point (c : curve) : curvePoint := {| pt_x := None; pt_y := None; pt_c := c |}.

Definition Order (c : curve) : Z := cp_N (c_p c).

(** Modelled from the spec: the scalar type [Int] is not in this package.
    A scalar is an integer modulo the order of the curve; [One] is 1 and
    [Neg] the negation modulo the order. *)
Record Int := { V : Z; Modulus : Z }.

Definition Scalar (c : curve) : Int := {| V := 0; Modulus := cp_N (c_p c) |}.
Definition One (s : Int) : Int := {| V := 1 mod Modulus s; Modulus := Modulus s |}.
Definition Int_Neg (s : Int) : Int := {| V := (- V s) mod Modulus s; Modulus := Modulus s |}.

(** *** The methods of [curvePoint] *)

(** [z.Mod(z, m)]: the integer [z] points to is reduced in place. *)
Definition Mod_in_place (z : ptr) (m : Z) : M unit :=
  do v <- load z;
  if m =? 0 then throw DivisionByZero else store z (big_Mod v m).

Definition Equal (p cp2 : curvePoint) : M bool :=
  let m := cp_P (c_p (pt_c p)) in
  do _ <- Mod_in_place (pt_x p) m;
  do _ <- Mod_in_place (pt_y p) m;
  do _ <- Mod_in_place (pt_x cp2) m;
  do _ <- Mod_in_place (pt_y cp2) m;
  do x1 <- load (pt_x p); do x2 <- load (pt_x cp2);
  do y1 <- load (pt_y p); do y2 <- load (pt_y cp2);
  ret ((x1 =? x2) && (y1 =? y2)).

Definition Null (p : curvePoint) : M curvePoint :=
  do x <- new_int 0;
  do y <- new_int 0;
  ret (with_xy p x y).

Definition Base (p : curvePoint) : M curvePoint :=
  ret (with_xy p (Some (cp_Gx (c_p (pt_c p)))) (Some (cp_Gy (c_p (pt_c p))))).

Definition Valid (p : curvePoint) : M bool :=
  do x <- load (pt_x p);
  do y <- load (pt_y p);
  ret (c_IsOnCurve (pt_c p) x y || ((Z.sgn x =? 0) && (Z.sgn y =? 0))).

(** [genPoint]: the point is set, and [true] returned, when [x] is the
    abscissa of a point of the curve. *)
Definition genPoint (p : curvePoint) (x : ptr) : M (curvePoint * bool) :=
  let prm := c_p (pt_c p) in
  do xv <- load x;
  if cp_P prm =? 0 then throw DivisionByZero else
  let y2 := big_Mod (xv * xv * xv - (Z.shiftl xv 1 + xv) + cp_B prm) (cp_P prm) in
  do y <- new_int (c_sqrt (pt_c p) y2);
  do b <- XORKeyStream [0];
  do _ <- (if negb (Z.land (hd 0 b) 128 =? 0)
           then do yv <- load y; store y (cp_P prm - yv)
           else ret tt);
  do yv <- load y;
  let y2t := big_Mod (yv * yv) (cp_P prm) in
  if negb (y2t =? y2) then ret (p, false)
  else ret (with_xy p x y, true).

Definition PickLen (p : curvePoint) : Z :=
  Z.quot (big_BitLen (cp_P (c_p (pt_c p))) - 8 - 8) 8.

(** Modelled from the spec: [random.Bits] is not in this package.  It
    draws the bytes that hold [bitlen] bits from the stream and clears the
    bits above [bitlen] in the first one. *)
Definition random_Bits (bitlen : Z) : M (list Z) :=
  do b <- XORKeyStream (replicate (Z.to_nat (Z.quot (bitlen + 7) 8)) 0);
  let highbits := Z.land bitlen 7 in
  if negb (highbits =? 0)
  then ret (match b with
            | [] => []
            | b0 :: bs => Z.land b0 (2 ^ highbits - 1) :: bs
            end)
  else ret b.

(** [Pick], its loop bounded by [fuel]: [None] when the fuel runs out. *)
Fixpoint Pick_loop (fuel : nat) (p : curvePoint) (data : option (list Z)) (l dl : Z)
  : M (option (curvePoint * list Z)) :=
  match fuel with
  | O => ret None
  | S fuel' =>
      do b <- random_Bits (big_BitLen (cp_P (c_p (pt_c p))));
      do b <- match data with
              | Some d =>
                  do b <- set_index b (l - 1) (dl mod 256);
                  copy_into b (l - dl - 1) (l - 1) d
              | None => ret b
              end;
      do x <- new_int (big_SetBytes b);
      do '(p', found) <- genPoint p x;
      if found
      then do rest <- subslice (default [] data) dl (Z.of_nat (length (default [] data)));
           ret (Some (p', rest))
      else Pick_loop fuel' p data l dl
  end.

Definition Pick (fuel : nat) (p : curvePoint) (data : option (list Z))
  : M (option (curvePoint * list Z)) :=
  let l := coordLen (pt_c p) in
  let dl := PickLen p in
  let dl := if Z.of_nat (length (default [] data)) <? dl
            then Z.of_nat (length (default [] data)) else dl in
  Pick_loop fuel p data l dl.

Inductive data_error := ErrInvalidLength.

Definition Data (p : curvePoint) : M (option (list Z) * option data_error) :=
  do xv <- load (pt_x p);
  let b := big_Bytes xv in
  let l := coordLen (pt_c p) in
  let b := if Z.of_nat (length b) <? l
           then replicate (Z.to_nat (l - Z.of_nat (length b))) 0 ++ b else b in
  do dl <- index b (l - 1);
  if PickLen p <? dl then ret (None, Some ErrInvalidLength) else
  do r <- subslice b (l - dl - 1) (l - 1);
  ret (Some r, None).

Definition Add (p a b : curvePoint) : M curvePoint :=
  do ax <- load (pt_x a); do ay <- load (pt_y a);
  do bx <- load (pt_x b); do by_ <- load (pt_y b);
  let '(x, y) := c_Add (pt_c p) ax ay bx by_ in
  do x <- new_int x; do y <- new_int y;
  ret (with_xy p x y).

Definition Mul (p : curvePoint) (b : option curvePoint) (s : Int) : M curvePoint :=
  match b with
  | Some cb =>
      do bx <- load (pt_x cb); do by_ <- load (pt_y cb);
      let '(x, y) := c_ScalarMult (pt_c p) bx by_ (big_Bytes (V s)) in
      do x <- new_int x; do y <- new_int y;
      ret (with_xy p x y)
  | None =>
      let '(x, y) := c_ScalarBaseMult (pt_c p) (big_Bytes (V s)) in
      do x <- new_int x; do y <- new_int y;
      ret (with_xy p x y)
  end.

Definition Neg (p a : curvePoint) : M curvePoint :=
  let s := One (Scalar (pt_c p)) in
  let s := Int_Neg s in
  Mul p (Some a) s.

Definition Sub (p a b : curvePoint) : M curvePoint :=
  do cbn <- Neg (Point (pt_c p)) b;
  do ax <- load (pt_x a); do ay <- load (pt_y a);
  do nx <- load (pt_x cbn); do ny <- load (pt_y cbn);
  let '(x, y) := c_Add (pt_c p) ax ay nx ny in
  do x <- new_int x; do y <- new_int y;
  ret (with_xy p x y).

Definition MarshalSize (p : curvePoint) : Z :=
  let coordlen := Z.shiftr (cp_BitSize (c_p (pt_c p)) + 7) 3 in
  1 + 2 * coordlen.

(** [make([]byte, n)] as a value. *)
Definition make_bytes (n : Z) : M (list Z) :=
  if 0 <=? n then ret (replicate (Z.to_nat n) 0) else throw MakeOutOfRange.

(** [elliptic.Marshal] of Go's library: the uncompressed form, a byte 4
    and the two coordinates, each right-aligned in [byteLen] bytes. *)
Definition elliptic_Marshal (c : curve) (x y : Z) : M (list Z) :=
  let byteLen := Z.shiftr (cp_BitSize (c_p c) + 7) 3 in
  do r <- make_bytes (1 + 2 * byteLen);
  do r <- set_index r 0 4;
  let xBytes := big_Bytes x in
  do r <- copy_into r (1 + byteLen - Z.of_nat (length xBytes)) (Z.of_nat (length r)) xBytes;
  let yBytes := big_Bytes y in
  do r <- copy_into r (1 + 2 * byteLen - Z.of_nat (length yBytes)) (Z.of_nat (length r)) yBytes;
  ret r.

(** [elliptic.Unmarshal] of Go's library: nil unless [data] is the
    uncompressed form of a point of the curve. *)
Definition elliptic_Unmarshal (c : curve) (data : list Z) : option (Z * Z) :=
  let byteLen := Z.shiftr (cp_BitSize (c_p c) + 7) 3 in
  if negb (Z.of_nat (length data) =? 1 + 2 * byteLen) then None
  else if negb (hd 0 data =? 4) then None
  else
    let x := big_SetBytes (take (Z.to_nat byteLen) (drop 1 data)) in
    let y := big_SetBytes (drop (Z.to_nat (1 + byteLen)) data) in
    if c_IsOnCurve c x y then Some (x, y) else None.

Definition MarshalBinary (p : curvePoint) : M (list Z * option data_error) :=
  do x <- load (pt_x p);
  do y <- load (pt_y p);
  do r <- elliptic_Marshal (pt_c p) x y;
  ret (r, None).

Inductive unmarshal_error := ErrInvalidPoint.

(** The loop [for _, b := range bs { c |= b }]. *)
Fixpoint or_bytes (bs : list Z) (c : Z) : M Z :=
  match bs with
  | [] => ret c
  | b :: bs' => do _ <- loop_turn; or_bytes bs' (Z.lor c b)
  end.

Definition UnmarshalBinary (p : curvePoint) (buf : list Z)
  : M (curvePoint * option unmarshal_error) :=
  do body <- subslice buf 1 (Z.of_nat (length buf));
  do c <- or_bytes body 0;
  if negb (c =? 0) then
    match elliptic_Unmarshal (pt_c p) buf with
    | None => ret (with_xy p None None, Some ErrInvalidPoint)
    | Some (x, y) =>
        do x <- new_int x;
        do y <- new_int y;
        let p := with_xy p x y in
        do v <- Valid p;
        if negb v then ret (p, Some ErrInvalidPoint) else ret (p, None)
    end
  else
    do x <- new_int 0;
    do y <- new_int 0;
    ret (with_xy p x y, None).

Definition Set_ (p P : curvePoint) : curvePoint := with_xy p (pt_x P) (pt_y P).

Definition Clone (p : curvePoint) : curvePoint :=
  {| pt_x := pt_x p; pt_y := pt_y p; pt_c := pt_c p |}.

(** *** Programs over point objects

    A program keeps its points in a table and calls their methods; the
    results of the calls are dropped, only the effects stay. *)
Inductive op :=
| OpPoint
| OpNull (i : nat)
| OpBase (i : nat)
| OpSet (i j : nat)
| OpClone (i : nat)
| OpEqual (i j : nat)
| OpValid (i : nat)
| OpAdd (i a b : nat)
| OpSub (i a b : nat)
| OpNeg (i a : nat)
| OpMul (i : nat) (b : option nat) (s : Z)
| OpPick (fuel : nat) (i : nat) (data : option (list Z))
| OpData (i : nat)
| OpMarshal (i : nat)
| OpUnmarshal (i : nat) (buf : list Z).

Definition machine := (list curvePoint * nworld)%type.

Definition with_point (c : curve) (pts : list curvePoint) (i : nat)
    (f : curvePoint -> M curvePoint) (w : nworld) : option machine :=
  match pts !! i with
  | None => None
  | Some p => match f p w with
              | Ret p' w' => Some (<[i := p']> pts, w')
              | Panics _ => None
              end
  end.

Definition keep {A} (p : curvePoint) (m : M A) : M curvePoint :=
  do _ <- m; ret p.

(** One method call; [None] when it panics or names no point. *)
Definition exec (c : curve) (o : op) (s : machine) : option machine :=
  let '(pts, w) := s in
  match o with
  | OpPoint => Some (pts ++ [Point c], w)
  | OpNull i => with_point c pts i Null w
  | OpBase i => with_point c pts i Base w
  | OpSet i j =>
      match pts !! j with
      | Some q => with_point c pts i (fun p => ret (Set_ p q)) w
      | None => None
      end
  | OpClone i =>
      match pts !! i with
      | Some p => Some (pts ++ [Clone p], w)
      | None => None
      end
  | OpEqual i j =>
      match pts !! j with
      | Some q => with_point c pts i (fun p => keep p (Equal p q)) w
      | None => None
      end
  | OpValid i => with_point c pts i (fun p => keep p (Valid p)) w
  | OpAdd i a b =>
      match pts !! a, pts !! b with
      | Some pa, Some pb => with_point c pts i (fun p => Add p pa pb) w
      | _, _ => None
      end
  | OpSub i a b =>
      match pts !! a, pts !! b with
      | Some pa, Some pb => with_point c pts i (fun p => Sub p pa pb) w
      | _, _ => None
      end
  | OpNeg i a =>
      match pts !! a with
      | Some pa => with_point c pts i (fun p => Neg p pa) w
      | None => None
      end
  | OpMul i b s =>
      match b with
      | Some j =>
          match pts !! j with
          | Some pb =>
              with_point c pts i
                (fun p => Mul p (Some pb) {| V := s mod cp_N (c_p c); Modulus := cp_N (c_p c) |}) w
          | None => None
          end
      | None =>
          with_point c pts i
            (fun p => Mul p None {| V := s mod cp_N (c_p c); Modulus := cp_N (c_p c) |}) w
      end
  | OpPick fuel i data =>
      with_point c pts i
        (fun p => do r <- Pick fuel p data;
                  match r with
                  | Some (p', _) => ret p'
                  | None => ret p
                  end) w
  | OpData i => with_point c pts i (fun p => keep p (Data p)) w
  | OpMarshal i => with_point c pts i (fun p => keep p (MarshalBinary p)) w
  | OpUnmarshal i buf =>
      with_point c pts i (fun p => do r <- UnmarshalBinary p buf; ret (fst r)) w
  end.

Fixpoint exec_all (c : curve) (os : list op) (s : machine) : option machine :=
  match os with
  | [] => Some s
  | o :: os' => match exec c o s with
                | Some s' => exec_all c os' s'
                | None => None
                end
  end.

(** *** Notions used to state the properties of the points *)

(** The encoding [Data] works on: the bytes of [x], left-padded with
    zeros to the coordinate length. *)
Definition padded_encoding (c : curve) (xv : Z) : list Z :=
  let b := big_Bytes xv in
  let l := coordLen c in
  if Z.of_nat (length b) <? l
  then replicate (Z.to_nat (l - Z.of_nat (length b))) 0 ++ b else b.

(** The length tag where the specification puts it: the byte before the
    final byte of the padded encoding.  Kept to compare it with [Data]. *)
Definition tag_before_final (p : curvePoint) : M Z :=
  do xv <- load (pt_x p);
  index (padded_encoding (pt_c p) xv) (coordLen (pt_c p) - 2).

Definition is_byte (b : Z) : Prop := 0 <= b < 256.

(** From [w] to [w']: the integers are those of [w], each as it was or
    reduced modulo [m]; the stream and the turns are untouched. *)
Definition reduced (m : Z) (w w' : nworld) : Prop :=
  rnd w' = rnd w /\ turns w' = turns w /\ length (ints w') = length (ints w) /\
  forall k u, ints w !! k = Some u ->
    ints w' !! k = Some u \/ ints w' !! k = Some (big_Mod u m).

(** From [w] to [w']: integers were allocated and random bytes consumed,
    and no integer that existed was written. *)
Definition steps (w w' : nworld) : Prop :=
  (exists more, ints w' = ints w ++ more) /\
  (exists k, forall i, rnd w' i = rnd w (k + i)%nat).

(** From [w] to [w']: every integer that existed still exists and is
    congruent modulo [m] to what it was. *)
Definition same_residues (m : Z) (w w' : nworld) : Prop :=
  forall l v, ints w !! l = Some v ->
    exists v', ints w' !! l = Some v' /\ v' mod m = v mod m.

Definition is_Equal (o : op) : bool :=
  match o with OpEqual _ _ => true | _ => false end.

(** What a program can see of a machine: the coordinate pointers of its
    points and the integers of the store. *)
Definition coords_of (s : option machine) : option (list (ptr * ptr) * list Z) :=
  match s with
  | Some (pts, w) => Some (map (fun p => (pt_x p, pt_y p)) pts, ints w)
  | None => None
  end.

(** The data [Data] extracts from point [i] of a machine. *)
Definition data_of (i : nat) (s : option machine) : option (list Z) :=
  match s with
  | Some (pts, w) =>
      match pts !! i with
      | Some p => match Data p w with Ret (Some d, None) _ => Some d | _ => None end
      | None => None
      end
  | None => None
  end.

End Nist.

(** ** A small cipher to run the definitions on

    The state is one number: the pseudorandom byte is the state reduced
    to a byte, absorbing a key byte mixes it in, and a boundary adds a
    constant.  Keys and MACs are two bytes long. *)
Definition toy_mix (s k : Z) : Z := (s * 31 + k + 7) mod 251.

#[global] Instance toy_cipher : CipherState Z := {
  cs_squeeze s := s mod 256;
  cs_absorb := toy_mix;
  cs_boundary s := (s + 101) mod 251;
  cs_KeySize _ := 2;
  cs_HashSize _ := 4
}.

(** A world holding the arrays [bufs] and one toy cipher with state [k]. *)
Definition toy_world (bufs : list (list Z)) (k : Z) : world Z :=
  World (heap0 ++ bufs) [k] [] [].

(** ** The curve P-256, to run the definitions on

    The parameters of NIST P-256 and a reference implementation of the
    curve's interface in affine coordinates, the point at infinity being
    (0, 0) as in Go's library. *)
Module P256.
Import Nist.

Fixpoint pow_mod_pos (a : Z) (e : positive) (m : Z) : Z :=
  match e with
  | xH => a mod m
  | xO e' => let r := pow_mod_pos a e' m in (r * r) mod m
  | xI e' => let r := pow_mod_pos a e' m in (r * r * a) mod m
  end.

Definition pow_mod (a e m : Z) : Z :=
  match e with
  | Zpos p => pow_mod_pos a p m
  | _ => 1 mod m
  end.

(** The extended Euclidean algorithm: the coefficient of the second
    argument in the gcd. *)
Fixpoint egcd (fuel : nat) (r0 r1 s0 s1 : Z) : Z :=
  match fuel with
  | O => s0
  | S fuel' =>
      if r1 =? 0 then s0
      else let q := r0 / r1 in egcd fuel' r1 (r0 - q * r1) s1 (s0 - q * s1)
  end.

Section Affine.
Variables (P B : Z).
Definition inv_mod (a : Z) : Z :=
  egcd (Z.to_nat (2 * Z.log2 P + 2)) P (a mod P) 0 1 mod P.
Definition on_curve (x y : Z) : bool :=
  (y * y) mod P =? (x * x * x - 3 * x + B) mod P.
Definition affine_double (x y : Z) : Z * Z :=
  if y mod P =? 0 then (0, 0) else
  let lam := ((3 * x * x - 3) * inv_mod (2 * y)) mod P in
  let x3 := (lam * lam - 2 * x) mod P in
  (x3, (lam * (x - x3) - y) mod P).
Definition affine_add (x1 y1 x2 y2 : Z) : Z * Z :=
  if (x1 =? 0) && (y1 =? 0) then (x2, y2)
  else if (x2 =? 0) && (y2 =? 0) then (x1, y1)
  else if (x1 - x2) mod P =? 0
       then if (y1 + y2) mod P =? 0 then (0, 0) else affine_double x1 y1
       else
         let lam := ((y2 - y1) * inv_mod (x2 - x1)) mod P in
         let x3 := (lam * lam - x1 - x2) mod P in
         (x3, (lam * (x1 - x3) - y1) mod P).
Fixpoint mult_bits (bits : list bool) (x y : Z) (acc : Z * Z) : Z * Z :=
  match bits with
  | [] => acc
  | b :: bits' =>
      let d := affine_double (fst acc) (snd acc) in
      let acc' := if b then affine_add (fst d) (snd d) x y else d in
      mult_bits bits' x y acc'
  end.
Definition byte_bits (b : Z) : list bool :=
  map (fun i => Z.testbit b (Z.of_nat i)) [7; 6; 5; 4; 3; 2; 1; 0]%nat.
Definition scalar_mult (x y : Z) (k : list Z) : Z * Z :=
  mult_bits (concat (map byte_bits k)) x y (0, 0).
End Affine.

Definition p256_P : Z := 2 ^ 256 - 2 ^ 224 + 2 ^ 192 + 2 ^ 96 - 1.
Definition p256_N : Z := 0xffffffff00000000ffffffffffffffffbce6faada7179e84f3b9cac2fc632551.
Definition p256_B : Z := 0x5ac635d8aa3a93e7b3ebbd55769886bc651d06b0cc53b0f63bce3c3e27d2604b.
Definition p256_Gx : Z := 0x6b17d1f2e12c4247f8bce6e563a440f277037d812deb33a0f4a13945d898c296.
Definition p256_Gy : Z := 0x4fe342e2fe1a7f9b8ee7eb4a7c0f9e162bce33576b315ececbb6406837bf51f5.

Definition p256 : curve := {|
  c_IsOnCurve := on_curve p256_P p256_B;
  c_Add := affine_add p256_P;
  c_ScalarMult := scalar_mult p256_P;
  c_ScalarBaseMult := scalar_mult p256_P p256_Gx p256_Gy;
  c_sqrt y2 := pow_mod y2 ((p256_P + 1) / 4) p256_P;
  c_p := {| cp_P := p256_P; cp_N := p256_N; cp_B := p256_B;
            cp_Gx := 0; cp_Gy := 1; cp_BitSize := 256 |}
|}.

Definition stream_of (bs : list Z) : nat -> Z := fun i => nth i bs 0.
Definition p256_world (bs : list Z) : nworld := NWorld [p256_Gx; p256_Gy] (stream_of bs) 0.

(** The point [Pick] embeds the two bytes 97, 98 in when the stream gives
    zeros: its abscissa is 0x616202, the data followed by the length. *)
Definition embedded_point : curvePoint := {| pt_x := Some 2%nat; pt_y := Some 3%nat; pt_c := p256 |}.

Definition embedded_world : nworld :=
  NWorld [p256_Gx; p256_Gy; 0x616202;
          114216344492850977219851522912121467672842747899292461463736302498797005700435]
         (stream_of []) 0.

(** The base point of P-256 as [Base] sets it. *)
Definition base_point : curvePoint := {| pt_x := Some 0%nat; pt_y := Some 1%nat; pt_c := p256 |}.

(** Whether a call of [Pick] came back with a point. *)
Definition found {W A} (o : outcome W (option A)) : bool :=
  match o with Ret (Some _) _ => true | _ => false end.

(** A stream whose first candidate abscissa, once the byte 3 and its
    length are embedded, is the prime plus 0x302: not reduced, and the
    abscissa of a point of the curve. *)
Definition wide_stream : list Z :=
  [255; 255; 255; 255; 0; 0; 0; 1; 0; 0; 0; 0; 0; 0; 0; 0; 0; 0; 0; 1].

End P256.

(** * Properties of the cipher *)

Lemma wrap_id z : int_range z -> wrap z = z.
Proof.
  unfold int_range, int_min, int_max, wrap. intros H.
  rewrite Z.mod_small; lia.
Qed.

Lemma array_of_insert_eq (h : heap) b a :
  (b < length h)%nat -> array_of (<[b := a]> h) b = a.
Proof. intros H. unfold array_of. by rewrite list_lookup_insert_eq. Qed.

Lemma array_of_insert_ne (h : heap) b b' a :
  b <> b' -> array_of (<[b := a]> h) b' = array_of h b'.
Proof. intros H. unfold array_of. by rewrite list_lookup_insert_ne. Qed.


Lemma sl_get_set_apart h d s j j' v :
  apart d s -> sl_get (sl_set h d j v) s j' = sl_get h s j'.
Proof.
  intros [Hb | [Hl | Hw]]; unfold sl_get, sl_set.
  - destruct (j <? s_len d)%nat; [|done].
    by rewrite array_of_insert_ne.
  - rewrite Hl. by destruct (j' <? 0)%nat eqn:E; [apply Nat.ltb_lt in E; lia|].
  - destruct (Nat.ltb_spec j' (s_len s)) as [Hj'|_]; [|done].
    destruct (Nat.ltb_spec j (s_len d)) as [Hj|_]; [|done].
    destruct (decide (s_buf s = s_buf d)) as [E|E]; [|by rewrite array_of_insert_ne].
    rewrite E. destruct (decide (s_buf d < length h)%nat) as [Hb|Hb].
    + rewrite array_of_insert_eq by done. by rewrite list_lookup_insert_ne by lia.
    + by rewrite list_insert_ge by lia.
Qed.

Lemma sl_get_set_other h s j j' v :
  j <> j' -> sl_get (sl_set h s j v) s j' = sl_get h s j'.
Proof.
  intros Hne. unfold sl_get, sl_set.
  destruct (j' <? s_len s)%nat; [|done].
  destruct (j <? s_len s)%nat; [|done].
  destruct (decide (s_buf s < length h)%nat) as [Hb|Hb].
  - rewrite array_of_insert_eq by done.
    rewrite list_lookup_insert_ne by lia. done.
  - rewrite list_insert_ge by lia. done.
Qed.

Lemma sl_get_set_same h s j v :
  sl_wf h s -> (j < s_len s)%nat -> sl_get (sl_set h s j v) s j = v.
Proof.
  intros (Hb & Hl & Hc) Hj. unfold sl_get, sl_set.
  apply Nat.ltb_lt in Hj as Hj'. rewrite Hj'.
  rewrite array_of_insert_eq by done.
  rewrite list_lookup_insert_eq by lia. done.
Qed.

Lemma sl_set_wf h d j v s : sl_wf h s -> sl_wf (sl_set h d j v) s.
Proof.
  intros (Hb & Hl & Hc). unfold sl_wf, sl_set.
  destruct (j <? s_len d)%nat; [|done].
  rewrite length_insert. split; [done|]. split; [done|].
  destruct (decide (s_buf d = s_buf s)) as [E|E].
  - rewrite E. destruct (decide (s_buf s < length h)%nat).
    + rewrite array_of_insert_eq by done. by rewrite length_insert.
    + lia.
  - by rewrite array_of_insert_ne.
Qed.


Lemma sl_splice_nil h d i : sl_splice h d i [] = h.
Proof.
  unfold sl_splice. simpl. rewrite Nat.add_0_r, take_drop.
  unfold array_of. destruct (h !! s_buf d) eqn:E.
  - by apply list_insert_id.
  - apply list_insert_ge. by apply lookup_ge_None.
Qed.

Lemma sl_splice_cons h d i o os :
  sl_wf h d -> (i + S (length os) <= s_len d)%nat ->
  sl_splice (sl_set h d i o) d (S i) os = sl_splice h d i (o :: os).
Proof.
  intros (Hb & Hl & Hc) Hi. unfold sl_splice, sl_set.
  assert ((i <? s_len d)%nat = true) as -> by (apply Nat.ltb_lt; lia).
  rewrite array_of_insert_eq by done.
  rewrite list_insert_insert_eq. f_equal.
  set (arr := array_of h (s_buf d)) in *.
  replace (s_off d + S i)%nat with (S (s_off d + i)) by lia.
  erewrite take_S_r; last first.
  { apply list_lookup_insert_eq. lia. }
  rewrite take_insert_ge by lia.
  rewrite <- app_assoc. simpl. f_equal. f_equal. f_equal.
  rewrite drop_insert_lt by lia. f_equal. lia.
Qed.

Section Duplex.
Context {St : Type} `{CS : CipherState St}.

Lemma map_sl_get_set_later h d s i n o :
  (s = d \/ apart d s) ->
  map (sl_get (sl_set h d i o) s) (seq (S i) n) = map (sl_get h s) (seq (S i) n).
Proof.
  intros Hs. apply map_ext_in. intros j Hj. apply in_seq in Hj.
  destruct Hs as [-> | Ha].
  - apply sl_get_set_other. lia.
  - by apply sl_get_set_apart.
Qed.

Lemma transduce_kd_keys st xs ks ks' : transduce true st xs ks = transduce true st xs ks'.
Proof.
  revert st ks ks'. induction xs as [|x xs IH]; intros; simpl; [done|].
  by rewrite (IH _ (tl ks) (tl ks')).
Qed.

Lemma transduce_length kd st xs ks : length (fst (transduce kd st xs ks)) = length xs.
Proof.
  revert st ks. induction xs as [|x xs IH]; intros; simpl; [done|].
  specialize (IH (cs_absorb st (if kd then Z.lxor x (cs_squeeze st) else hd 0 ks)) (tl ks)).
  destruct (transduce kd _ xs (tl ks)). simpl in *. lia.
Qed.

Lemma duplex_run (kd : bool) (dst src key : slice) n : forall i st h,
  sl_wf h dst -> (i + n <= s_len dst)%nat ->
  (src = dst \/ apart dst src) ->
  (if kd then key = dst else apart dst key) ->
  duplex n i dst src key st h =
    let '(os, st') := transduce kd st (map (sl_get h src) (seq i n))
                                (map (sl_get h key) (seq i n)) in
    (st', sl_splice h dst i os).
Proof.
  induction n as [|n IH]; intros i st h Hwf Hn Hsrc Hkey.
  - simpl. by rewrite sl_splice_nil.
  - simpl. set (o := Z.lxor (sl_get h src i) (cs_squeeze st)).
    rewrite IH; [| by apply sl_set_wf | lia | done | done].
    rewrite map_sl_get_set_later by done.
    assert (Hk : transduce kd (cs_absorb st (sl_get (sl_set h dst i o) key i))
                   (map (sl_get h src) (seq (S i) n))
                   (map (sl_get (sl_set h dst i o) key) (seq (S i) n)) =
                 transduce kd (cs_absorb st (if kd then o else sl_get h key i))
                   (map (sl_get h src) (seq (S i) n))
                   (map (sl_get h key) (seq (S i) n))).
    { destruct kd.
      - subst key. rewrite sl_get_set_same; [|done|lia].
        apply transduce_kd_keys.
      - rewrite sl_get_set_apart by done.
        rewrite map_sl_get_set_later by (by right). done. }
    rewrite Hk. clear Hk.
    pose proof (transduce_length kd (cs_absorb st (if kd then o else sl_get h key i))
                  (map (sl_get h src) (seq (S i) n)) (map (sl_get h key) (seq (S i) n))) as Hl.
    destruct (transduce kd _ _ _) as [os st'] eqn:E. simpl in Hl.
    rewrite length_map, length_seq in Hl. simpl.
    rewrite sl_splice_cons; [done | done | lia].
Qed.
End Duplex.

Lemma reads_wf (h : heap) s :
  sl_wf h s -> map (sl_get h s) (seq 0 (s_len s)) = sl_bytes h s.
Proof.
  intros (Hb & Hl & Hc). unfold sl_bytes.
  apply list_eq. intros j. rewrite list_lookup_fmap.
  destruct (decide (j < s_len s)%nat) as [Hj|Hj].
  - rewrite lookup_seq_lt by done. simpl.
    rewrite lookup_take_lt by done. rewrite lookup_drop.
    unfold sl_get. assert ((j <? s_len s)%nat = true) as -> by (by apply Nat.ltb_lt).
    destruct (array_of h (s_buf s) !! (s_off s + j)%nat) eqn:E; [done|].
    apply lookup_ge_None in E. lia.
  - rewrite lookup_seq_ge by lia. simpl.
    rewrite lookup_take_ge by lia. done.
Qed.

Lemma reads_empty (h : heap) s n :
  s_len s = 0%nat -> map (sl_get h s) (seq 0 n) = replicate n 0.
Proof.
  intros Hs. apply list_eq. intros j. rewrite list_lookup_fmap.
  destruct (decide (j < n)%nat) as [Hj|Hj].
  - rewrite lookup_seq_lt by done. rewrite lookup_replicate_2 by done. simpl.
    unfold sl_get. rewrite Hs. done.
  - rewrite lookup_seq_ge by lia. simpl. symmetry.
    apply lookup_replicate_None. lia.
Qed.

Lemma splice_array_eq (h : heap) d os :
  (s_buf d < length h)%nat ->
  array_of (sl_splice h d 0 os) (s_buf d) =
    take (s_off d) (array_of h (s_buf d)) ++ os ++
    drop (s_off d + length os) (array_of h (s_buf d)).
Proof.
  intros Hb. unfold sl_splice. rewrite array_of_insert_eq by done.
  by rewrite !Nat.add_0_r.
Qed.

Lemma splice_array_ne (h : heap) d i os b :
  b <> s_buf d -> array_of (sl_splice h d i os) b = array_of h b.
Proof. intros Hb. unfold sl_splice. by rewrite array_of_insert_ne. Qed.

Lemma splice_length (h : heap) d i os : length (sl_splice h d i os) = length h.
Proof. unfold sl_splice. by rewrite length_insert. Qed.

Section World.
Context {St : Type} `{CS : CipherState St}.

Lemma bind_ret {A B} (m : M (world St) A) (k : A -> M (world St) B) w a w' :
  m w = Ret a w' -> bind m k w = k a w'.
Proof. intros H. unfold bind. by rewrite H. Qed.

Lemma bind_panics {A B} (m : M (world St) A) (k : A -> M (world St) B) w p :
  m w = Panics p -> bind m k w = Panics p.
Proof. intros H. unfold bind. by rewrite H. Qed.

Lemma if_negb_ret {A} (b : bool) (x y : A) (w : world St) :
  (if negb b then ret x else ret y) w = Ret (if b then y else x) w.
Proof. by destruct b. Qed.

Lemma max3_dst a b c : (b <= a)%nat -> (c <= a)%nat -> max3 a b c = a.
Proof. unfold max3. lia. Qed.

Lemma Message_spec (kd : bool) c dst src key (w : world St) st :
  w_ciphers w !! CipherState_of c = Some st ->
  sl_wf (w_heap w) dst ->
  (s_len src <= s_len dst)%nat -> (s_len key <= s_len dst)%nat ->
  (src = dst \/ apart dst src) ->
  (if kd then key = dst else apart dst key) ->
  Message c dst src key w =
    let '(os, st') :=
      transduce kd st (map (sl_get (w_heap w) src) (seq 0 (s_len dst)))
                      (map (sl_get (w_heap w) key) (seq 0 (s_len dst))) in
    Ret c (World (sl_splice (w_heap w) dst 0 os)
                 (<[CipherState_of c := cs_boundary st']> (w_ciphers w))
                 (w_calls w ++ [Call KMessage (CipherState_of c) dst src key])
                 (w_leak w)).
Proof.
  intros Hc Hwf Hs Hk Hsrc Hkey.
  unfold Message, bind, invoke. rewrite Hc.
  unfold state_Message, state_Partial. rewrite max3_dst by done.
  rewrite (duplex_run kd) by (done || lia).
  destruct (transduce kd st _ _) as [os st']. done.
Qed.

End World.

Section Pure.
Context {St : Type} `{CS : CipherState St}.

Lemma transduce_inverse st p ks :
  transduce false st (fst (transduce true st p ks)) (fst (transduce true st p ks)) =
  (p, snd (transduce true st p ks)).
Proof.
  revert st ks. induction p as [|x p IH]; intros st ks; simpl; [done|].
  specialize (IH (cs_absorb st (Z.lxor x (cs_squeeze st))) (tl ks)).
  destruct (transduce true _ p (tl ks)) as [os st'] eqn:E. simpl in *.
  rewrite IH. f_equal. f_equal.
  rewrite Z.lxor_assoc, Z.lxor_nilpotent, Z.lxor_0_r. done.
Qed.

Lemma decrypt_encrypt st p :
  decrypt st (fst (encrypt st p)) = (p, snd (encrypt st p)).
Proof.
  unfold decrypt, encrypt.
  pose proof (transduce_inverse st p []) as H.
  destruct (transduce true st p []) as [c st1]. simpl in *. by rewrite H.
Qed.

Lemma transduce_xor_mac st xs :
  fst (transduce false st xs (replicate (length xs) 0)) =
  zip_with Z.lxor xs (mac_of st (length xs)).
Proof.
  unfold mac_of. revert st. induction xs as [|x xs IH]; intros st; simpl; [done|].
  specialize (IH (cs_absorb st 0)).
  destruct (transduce false (cs_absorb st 0) xs _) as [os st1].
  destruct (transduce false (cs_absorb st 0) (replicate _ 0) _) as [ms st2].
  simpl in *. by rewrite IH.
Qed.

Lemma mac_of_length st n : length (mac_of st n) = n.
Proof. unfold mac_of. by rewrite transduce_length, length_replicate. Qed.

Lemma xor_self_zero (xs : list Z) :
  forallb (Z.eqb 0) (zip_with Z.lxor xs xs) = true.
Proof.
  induction xs as [|x xs IH]; cbn [zip_with forallb]; [done|].
  by rewrite Z.lxor_nilpotent.
Qed.

Lemma xor_zero_eq (xs ys : list Z) :
  length xs = length ys ->
  forallb (Z.eqb 0) (zip_with Z.lxor xs ys) = true <-> xs = ys.
Proof.
  revert ys. induction xs as [|x xs IH]; intros [|y ys] Hl;
    cbn [zip_with forallb length] in *; try done.
  rewrite andb_true_iff, IH by lia. split.
  - intros [Hx ->]. apply Z.eqb_eq in Hx. symmetry in Hx.
    apply Z.lxor_eq in Hx. by subst.
  - intros [= -> ->]. by rewrite Z.lxor_nilpotent.
Qed.

(** The OR-accumulation: its value, and the loop turns it shows. *)
Lemma or_accumulate_run (xs : list Z) z (w : world St) :
  or_accumulate xs 0 z w =
    Ret (fold_left Z.lor xs z)
        (World (w_heap w) (w_ciphers w) (w_calls w)
               (w_leak w ++ replicate (length xs) LoopIter)).
Proof.
  revert z w. induction xs as [|x xs IH]; intros z w; simpl.
  - unfold ret. rewrite app_nil_r. by destruct w.
  - unfold bind, tick. rewrite IH. simpl. rewrite Z.lxor_0_r.
    by rewrite <- app_assoc.
Qed.

Lemma fold_lor_zero (xs : list Z) z :
  fold_left Z.lor xs z = 0 <-> z = 0 /\ forallb (Z.eqb 0) xs = true.
Proof.
  revert z. induction xs as [|x xs IH]; intros z; cbn [fold_left forallb].
  - tauto.
  - rewrite IH, Z.lor_eq_0_iff, andb_true_iff, Z.eqb_eq. intuition congruence.
Qed.

Lemma ConstantTimeAllEq_run (x : slice) (w : world St) :
  ConstantTimeAllEq x 0 w =
    Ret (if forallb (Z.eqb 0) (sl_bytes (w_heap w) x) then 1 else 0)
        (World (w_heap w) (w_ciphers w) (w_calls w)
               (w_leak w ++ replicate (length (sl_bytes (w_heap w) x)) LoopIter)).
Proof.
  unfold ConstantTimeAllEq, bind. rewrite or_accumulate_run. unfold ret.
  f_equal. unfold ConstantTimeByteEq. rewrite Z.lxor_0_r.
  destruct (forallb _ _) eqn:E.
  - assert (fold_left Z.lor (sl_bytes (w_heap w) x) 0 = 0) as -> by (by apply fold_lor_zero).
    done.
  - destruct (Z.eqb_spec (fold_left Z.lor (sl_bytes (w_heap w) x) 0) 0) as [H|H]; [|done].
    apply fold_lor_zero in H. destruct H as [_ H]. congruence.
Qed.

End Pure.

(** ** Slices under a splice *)

Lemma sl_bytes_length (h : heap) s : sl_wf h s -> length (sl_bytes h s) = s_len s.
Proof.
  intros (Hb & Hl & Hc). unfold sl_bytes. rewrite length_take, length_drop. lia.
Qed.

Lemma sl_bytes_ext (h h' : heap) s :
  array_of h' (s_buf s) = array_of h (s_buf s) -> sl_bytes h' s = sl_bytes h s.
Proof. intros H. unfold sl_bytes. by rewrite H. Qed.

Lemma sl_wf_ext (h h' : heap) s :
  (length h <= length h')%nat ->
  array_of h' (s_buf s) = array_of h (s_buf s) -> sl_wf h s -> sl_wf h' s.
Proof. intros Hl Ha (Hb & Hle & Hc). unfold sl_wf. rewrite Ha. repeat split; lia. Qed.

Lemma splice_array_length (h : heap) d os :
  sl_wf h d -> length os = s_len d ->
  length (array_of (sl_splice h d 0 os) (s_buf d)) = length (array_of h (s_buf d)).
Proof.
  intros (Hb & Hl & Hc) Ho. rewrite splice_array_eq by done.
  rewrite !length_app, length_take, length_drop. lia.
Qed.

Lemma sl_wf_splice (h : heap) d os s :
  sl_wf h d -> length os = s_len d -> sl_wf h s -> sl_wf (sl_splice h d 0 os) s.
Proof.
  intros Hd Ho (Hb & Hl & Hc). unfold sl_wf. rewrite splice_length.
  split; [done|]. split; [done|].
  destruct (decide (s_buf s = s_buf d)) as [E|E].
  - rewrite E in *. by rewrite splice_array_length.
  - by rewrite splice_array_ne.
Qed.

Lemma sl_bytes_splice_self (h : heap) d os :
  sl_wf h d -> length os = s_len d -> sl_bytes (sl_splice h d 0 os) d = os.
Proof.
  intros (Hb & Hl & Hc) Ho. unfold sl_bytes. rewrite splice_array_eq by done.
  rewrite drop_app_length' by (rewrite length_take; lia).
  by rewrite take_app_length' by done.
Qed.

(** A slice that ends where [d] starts, extended over [d]. *)
Lemma sl_bytes_splice_extend (h : heap) d os s :
  sl_wf h d -> length os = s_len d ->
  s_buf s = s_buf d -> (s_off s <= s_off d)%nat ->
  (s_off s + s_len s = s_off d + s_len d)%nat ->
  sl_bytes (sl_splice h d 0 os) s =
    take (s_off d - s_off s) (drop (s_off s) (array_of h (s_buf d))) ++ os.
Proof.
  intros (Hb & Hl & Hc) Ho Hbuf Hoff Hend. unfold sl_bytes.
  rewrite Hbuf, splice_array_eq by done.
  set (arr := array_of h (s_buf d)) in *.
  rewrite drop_app_le by (rewrite length_take; lia).
  rewrite take_app_ge by (rewrite length_drop, length_take; lia).
  rewrite length_drop, length_take.
  rewrite take_app_length' by lia.
  f_equal. rewrite take_drop_commute. do 2 f_equal. lia.
Qed.

Section GrowSpec.
Context {St : Type} `{CS : CipherState St}.


Lemma reslice_ok (s : slice) a b (w : world St) :
  0 <= a -> a <= b -> b <= Z.of_nat (s_cap s) ->
  reslice s a b w =
    Ret (Slice (s_buf s) (s_off s + Z.to_nat a) (Z.to_nat (b - a)) (s_cap s - Z.to_nat a)) w.
Proof.
  intros Ha Hab Hb. unfold reslice.
  assert ((0 <=? a) && (a <=? b) && (b <=? Z.of_nat (s_cap s)) = true) as ->; [|done].
  rewrite !andb_true_iff, !Z.leb_le. done.
Qed.

Lemma Grow_spec (s : slice) n (w : world St) :
  sl_wf (w_heap w) s -> 0 <= n ->
  2 * (len s + n + 1) <= int_max ->
  exists whole region h',
    Grow s n w = Ret (whole, region)
                     (World h' (w_ciphers w) (w_calls w)
                            (w_leak w ++ [Branch (cap s <? len s + n)])) /\
    grown (w_heap w) s (Z.to_nat n) whole region h'.
Proof.
  intros Hwf Hn Hmax. destruct Hwf as (Hb & Hl & Hc).
  assert (Hnl : int_add (len s) n = len s + n).
  { apply wrap_id. unfold int_range, int_min, int_max, len in *. lia. }
  unfold Grow. rewrite Hnl. unfold len, cap in *.
  destruct (Z.ltb_spec0 (Z.of_nat (s_cap s)) (Z.of_nat (s_len s) + n)) as [Hg|Hg].
  - (* a new array *)
    set (c := 2 * (Z.of_nat (s_len s) + n + 1)).
    assert (Hc' : wrap ((Z.of_nat (s_len s) + n + 1) * 2) = c).
    { rewrite wrap_id; [subst c; lia|]. unfold int_range, int_min, int_max in *. lia. }
    rewrite Hc'.
    eexists _, _, _. split.
    + unfold bind at 1. unfold branch at 1. cbn [w_heap w_ciphers w_calls w_leak].
      unfold bind at 1. unfold bind at 1. unfold make at 1.
      cbn [w_heap w_ciphers w_calls w_leak].
      assert ((0 <=? Z.of_nat (s_len s) + n) && (Z.of_nat (s_len s) + n <=? c) && (c <=? int_max) = true) as ->.
      { rewrite !andb_true_iff, !Z.leb_le. subst c. lia. }
      unfold bind at 1. unfold copy at 1. cbn [w_heap w_ciphers w_calls w_leak]. unfold ret at 1.
      unfold bind at 1. rewrite reslice_ok by (cbn [s_cap]; lia).
      unfold bind at 1. rewrite reslice_ok by (cbn [s_cap]; lia).
      unfold ret. reflexivity.
    + cbn [s_buf s_off s_len s_cap].
      set (h := w_heap w) in *.
      set (bs := sl_bytes (h ++ [replicate (Z.to_nat c) 0]) s).
      assert (Hbs : bs = sl_bytes h s).
      { apply sl_bytes_ext. unfold array_of. by rewrite lookup_app_l. }
      assert (Hbl : length bs = s_len s).
      { rewrite Hbs. apply sl_bytes_length. done. }
      assert (Harr : array_of (sl_write (h ++ [replicate (Z.to_nat c) 0])
                       (Slice (length h) 0 (Z.to_nat (Z.of_nat (s_len s) + n)) (Z.to_nat c)) bs)
                       (length h) = bs ++ replicate (Z.to_nat c - s_len s) 0).
      { unfold sl_write. cbn [s_buf s_off s_len].
        rewrite array_of_insert_eq by (rewrite length_app; simpl; lia).
        rewrite (take_ge bs) by (rewrite Hbl; lia). simpl.
        unfold array_of. rewrite lookup_app_r by lia. rewrite Nat.sub_diag. simpl.
        by rewrite drop_replicate, Hbl. }
      assert (Hlen : length (sl_write (h ++ [replicate (Z.to_nat c) 0])
                       (Slice (length h) 0 (Z.to_nat (Z.of_nat (s_len s) + n)) (Z.to_nat c)) bs)
                     = S (length h)).
      { unfold sl_write. rewrite length_insert, length_app. simpl. lia. }
      constructor; cbn [s_buf s_off s_len s_cap].
      * intros b Hbh. unfold sl_write. cbn [s_buf s_off s_len].
        rewrite array_of_insert_ne by lia.
        unfold array_of. by rewrite lookup_app_l.
      * lia.
      * unfold sl_wf. cbn [s_buf s_off s_len s_cap]. rewrite Hlen, Harr.
        rewrite length_app, length_replicate. subst c. lia.
      * unfold sl_wf. cbn [s_buf s_off s_len s_cap]. rewrite Hlen, Harr.
        rewrite length_app, length_replicate. subst c. lia.
      * done.
      * lia.
      * lia.
      * lia.
      * rewrite Harr. change (0 + Z.to_nat 0)%nat with 0%nat. rewrite drop_0.
        rewrite <- Hbs. by rewrite take_app_length' by done.
      * by right.
      * done.
      * lia.
  - (* room in the old array *)
    eexists _, _, _. split.
    + unfold bind at 1. unfold branch at 1. cbn [w_heap w_ciphers w_calls w_leak].
      unfold bind at 1. unfold ret at 1.
      unfold bind at 1. rewrite reslice_ok by lia.
      unfold bind at 1. rewrite reslice_ok by lia.
      unfold ret. reflexivity.
    + constructor; cbn [s_buf s_off s_len s_cap].
      * done.
      * done.
      * unfold sl_wf. cbn [s_buf s_off s_len s_cap]. lia.
      * unfold sl_wf. cbn [s_buf s_off s_len s_cap]. lia.
      * done.
      * lia.
      * lia.
      * lia.
      * rewrite Nat.add_0_r. done.
      * left. split; [done|lia].
      * lia.
      * intros _. split; [done|]. split; [lia|done].
Qed.

End GrowSpec.

Section OpenSpec.
Context {St : Type} `{CS : CipherState St}.

Lemma KeySize_run c (w : world St) st :
  w_ciphers w !! CipherState_of c = Some st -> KeySize c w = Ret (cs_KeySize st) w.
Proof. intros H. unfold KeySize. by rewrite H. Qed.

Lemma int_sub_id a b : 0 <= a <= int_max -> 0 <= b <= int_max -> int_sub a b = a - b.
Proof.
  intros Ha Hb. apply wrap_id. unfold int_range, int_min, int_max in *. lia.
Qed.

(** [Open] up to the length test. *)
Lemma Open_short c dst src (w : world St) st :
  w_ciphers w !! CipherState_of c = Some st ->
  0 <= cs_KeySize st <= int_max -> len src <= int_max ->
  len src < cs_KeySize st ->
  Open c dst src w =
    Ret (nil_slice, Some ErrTooShort)
        (World (w_heap w) (w_ciphers w) (w_calls w) (w_leak w ++ [Branch true])).
Proof.
  intros Hc Hm Hs Hlt. unfold Open.
  rewrite (bind_ret _ _ _ _ _ (KeySize_run _ _ _ Hc)).
  rewrite int_sub_id by (unfold len in *; lia).
  assert ((len src - cs_KeySize st <? 0) = true) as -> by (apply Z.ltb_lt; lia).
  reflexivity.
Qed.

Lemma Open_long c dst src (w : world St) st :
  w_ciphers w !! CipherState_of c = Some st ->
  0 <= cs_KeySize st <= int_max -> len src <= int_max ->
  cs_KeySize st <= len src ->
  forall d w', Open c dst src w <> Ret (d, Some ErrTooShort) w'.
Proof.
  intros Hc Hm Hs Hge d w'. unfold Open.
  rewrite (bind_ret _ _ _ _ _ (KeySize_run _ _ _ Hc)).
  rewrite int_sub_id by (unfold len in *; lia).
  assert ((len src - cs_KeySize st <? 0) = false) as -> by (apply Z.ltb_ge; lia).
  unfold bind at 1. unfold branch at 1.
  repeat match goal with
         | |- (let '(_, _) := ?p in _) _ <> _ => destruct p
         | |- bind ?m _ ?w <> _ =>
             unfold bind at 1; destruct (m w) as [? ?|?]; [|discriminate]
         | |- (if ?b then _ else _) _ <> _ => destruct b
         end; unfold ret; intros [=].
Qed.

Lemma addr_run (s : slice) i (w : world St) :
  (i < s_len s)%nat -> addr s i w = Ret (s_buf s, (s_off s + i)%nat) w.
Proof. intros H. unfold addr. apply Nat.ltb_lt in H. by rewrite H. Qed.

Lemma addr_empty (s : slice) (w : world St) :
  s_len s = 0%nat -> addr s 0 w = Panics IndexOutOfRange.
Proof. intros H. unfold addr. by rewrite H. Qed.

(** [Open] on a sealed message of length exactly [KeySize]. *)
Lemma Open_empty_message c dst src (w : world St) st :
  w_ciphers w !! CipherState_of c = Some st ->
  0 <= cs_KeySize st <= int_max ->
  (s_len src <= s_cap src)%nat -> (s_len dst <= s_cap dst)%nat ->
  len dst <= int_max ->
  len src = cs_KeySize st ->
  Open c dst src w = Panics IndexOutOfRange.
Proof.
  intros Hc Hm Hsc Hdc Hd Heq. unfold Open.
  rewrite (bind_ret _ _ _ _ _ (KeySize_run _ _ _ Hc)).
  rewrite int_sub_id by (unfold len in *; lia).
  replace (len src - cs_KeySize st) with 0 by lia.
  change (0 <? 0) with false.
  unfold bind at 1. unfold branch at 1. cbn [w_heap w_ciphers w_calls w_leak].
  unfold bind at 1. rewrite reslice_ok by (unfold len in *; lia).
  unfold bind at 1. rewrite reslice_ok by (unfold len in *; lia).
  unfold bind at 1. unfold Grow.
  assert (int_add (len dst) 0 = len dst) as ->.
  { unfold int_add. rewrite Z.add_0_r.
    apply wrap_id. unfold int_range, int_min, int_max, len in *. lia. }
  unfold bind at 1. unfold branch at 1. cbn [w_heap w_ciphers w_calls w_leak].
  assert ((cap dst <? len dst) = false) as -> by (apply Z.ltb_ge; unfold cap, len; lia).
  unfold bind at 1. unfold ret at 1.
  unfold bind at 1. rewrite reslice_ok by (unfold len in *; lia).
  unfold bind at 1. rewrite reslice_ok by (unfold len in *; lia).
  unfold ret at 1.
  unfold bind at 1. rewrite addr_empty; [done|].
  cbn [s_len]. unfold len. lia.
Qed.

End OpenSpec.

Section OpenApart.
Context {St : Type} `{CS : CipherState St}.

Lemma sub_slice_bytes (h : heap) s k n :
  (k + n <= s_len s)%nat ->
  take n (drop (s_off s + k) (array_of h (s_buf s))) = take n (drop k (sl_bytes h s)).
Proof.
  intros H. unfold sl_bytes. apply list_eq. intros j.
  destruct (decide (j < n)%nat) as [Hj|Hj].
  - rewrite !lookup_take_lt by done. rewrite !lookup_drop.
    rewrite lookup_take_lt by lia. rewrite lookup_drop. f_equal. lia.
  - by rewrite !lookup_take_ge by lia.
Qed.


Lemma Open_apart c dst src (w : world St) st :
  w_ciphers w !! CipherState_of c = Some st ->
  sl_wf (w_heap w) dst -> sl_wf (w_heap w) src ->
  0 <= cs_KeySize st < len src ->
  2 * (len dst + len src + 1) <= int_max ->
  let l := (s_len src - Z.to_nat (cs_KeySize st))%nat in
  (s_buf dst <> s_buf src \/ (s_cap dst < s_len dst + l)%nat) ->
  let ctx := take l (sl_bytes (w_heap w) src) in
  let rmac := drop l (sl_bytes (w_heap w) src) in
  let ok := forallb (Z.eqb 0) (mac_check st ctx rmac) in
  exists d w',
    Open c dst src w = Ret (if ok then (d, None) else (nil_slice, Some ErrAuthFailed)) w' /\
    sl_bytes (w_heap w') d = sl_bytes (w_heap w) dst ++ fst (decrypt st ctx) /\
    w_leak w' = w_leak w ++ [Branch false; Branch (cap dst <? len dst + Z.of_nat l); Branch true]
                  ++ replicate (Z.to_nat (cs_KeySize st)) LoopIter ++ [Branch (negb ok)].
Proof.
  intros Hc Hdst Hsrc Hm Hmax l Hbuf ctx rmac ok.
  set (h := w_heap w) in *.
  set (m := cs_KeySize st) in *.
  assert (Hl : Z.of_nat l = len src - m) by (unfold len in *; lia).
  assert (Hsl : length (sl_bytes h src) = s_len src) by (by apply sl_bytes_length).
  destruct Hsrc as (Hsb & Hsle & Hsc).
  unfold Open.
  rewrite (bind_ret _ _ _ _ _ (KeySize_run _ _ _ Hc)). fold m.
  rewrite int_sub_id by (unfold len, int_max in *; lia).
  rewrite <- Hl.
  assert ((Z.of_nat l <? 0) = false) as -> by (apply Z.ltb_ge; lia).
  unfold bind at 1. unfold branch at 1. cbn [w_heap w_ciphers w_calls w_leak].
  unfold bind at 1. rewrite reslice_ok by (unfold len in *; lia).
  unfold bind at 1. rewrite reslice_ok by (unfold len in *; lia).
  rewrite Z.sub_0_r, Nat2Z.id. change (Z.to_nat 0) with 0%nat.
  rewrite Nat.add_0_r, Nat.sub_0_r.
  replace (Z.to_nat (len src - Z.of_nat l)) with (Z.to_nat m) by lia.
  set (sctx := Slice (s_buf src) (s_off src) l (s_cap src)).
  set (smac := Slice (s_buf src) (s_off src + l) (Z.to_nat m) (s_cap src - l)).
  set (w0 := World h (w_ciphers w) (w_calls w) (w_leak w ++ [Branch false])).
  destruct (Grow_spec dst (Z.of_nat l) w0) as (whole & msg & h1 & HG & G);
    [done | lia | unfold len in *; lia |].
  rewrite Nat2Z.id in G.
  unfold bind at 1. fold h. fold w0. rewrite HG. clear HG.
  unfold w0 in *. clear w0. cbn [w_heap w_ciphers w_calls w_leak] in *.
  destruct G as [Gold Glen Gwhole Gregion Gbuf Goff Gn Gtotal Gprefix Gwhere Gfresh _].
  assert (Hmb : s_buf msg <> s_buf src).
  { rewrite Gbuf. destruct Hbuf as [Hbuf|Hbuf].
    - destruct Gwhere as [[E _] | E]; rewrite E; [done | lia].
    - rewrite Gfresh by done. lia. }
  assert (Harr1 : array_of h1 (s_buf src) = array_of h (s_buf src)) by (by apply Gold).
  unfold bind at 1. rewrite addr_run by lia.
  unfold bind at 1. rewrite addr_run by (unfold sctx; cbn [s_len]; lia).
  unfold sctx at 1 2. cbn [s_buf s_off].
  assert (addr_eqb (s_buf msg, (s_off msg + 0)%nat) (s_buf src, (s_off src + 0)%nat) = false) as ->.
  { unfold addr_eqb. cbn [fst snd]. apply andb_false_iff. left. by apply Nat.eqb_neq. }
  cbn [negb].
  unfold bind at 1. unfold branch at 1. cbn [w_heap w_ciphers w_calls w_leak].
  (* decrypt *)
  assert (Hctxwf : sl_wf h1 sctx).
  { unfold sl_wf, sctx. cbn [s_buf s_off s_len s_cap]. rewrite Harr1. lia. }
  assert (Hctxb : sl_bytes h1 sctx = ctx).
  { unfold sl_bytes at 1. unfold sctx. cbn [s_buf s_off s_len s_cap]. rewrite Harr1.
    replace (s_off src) with (s_off src + 0)%nat at 1 by lia.
    rewrite sub_slice_bytes by lia. by rewrite drop_0. }
  unfold bind at 1.
  rewrite (Message_spec false) with (st := st);
    [ | done | done | unfold sctx; cbn [s_len]; lia | unfold sctx; cbn [s_len]; lia
      | right; left; unfold sctx; cbn [s_buf]; congruence
      | left; unfold sctx; cbn [s_buf]; congruence ].
  cbn [w_heap w_ciphers w_calls w_leak].
  rewrite Gn. change l with (s_len sctx) at 1 2.
  rewrite reads_wf by done. rewrite Hctxb.
  pose proof (transduce_length false st ctx ctx) as Hosl.
  destruct (transduce false st ctx ctx) as [os st1] eqn:Etr. cbn [fst] in Hosl.
  assert (Hctxl : length ctx = l).
  { unfold ctx. rewrite length_take. lia. }
  set (h2 := sl_splice h1 msg 0 os).
  assert (Harr2 : array_of h2 (s_buf src) = array_of h (s_buf src)).
  { unfold h2. rewrite splice_array_ne by done. done. }
  (* the MAC *)
  assert (Hmacwf : sl_wf h2 smac).
  { unfold sl_wf, smac. cbn [s_buf s_off s_len s_cap]. rewrite Harr2.
    unfold h2. rewrite splice_length. lia. }
  assert (Hmacb : sl_bytes h2 smac = rmac).
  { unfold sl_bytes at 1. unfold smac. cbn [s_buf s_off s_len s_cap]. rewrite Harr2.
    rewrite sub_slice_bytes by lia.
    unfold rmac. apply take_ge. rewrite length_drop. lia. }
  unfold bind at 1.
  rewrite (Message_spec false) with (st := cs_boundary st1);
    [ | cbn [w_ciphers]; apply list_lookup_insert_eq; by eapply lookup_lt_Some
      | done | done | unfold nil_slice; cbn [s_len]; lia | left; done | right; left; done ].
  cbn [w_heap w_ciphers w_calls w_leak].
  change (Z.to_nat m) with (s_len smac) at 1.
  rewrite reads_wf by done. rewrite Hmacb.
  rewrite reads_empty by done.
  assert (Hrl : length rmac = Z.to_nat m).
  { unfold rmac. rewrite length_drop. lia. }
  replace (s_len smac) with (length rmac) by (rewrite Hrl; reflexivity).
  pose proof (transduce_xor_mac (cs_boundary st1) rmac) as Hx.
  pose proof (transduce_length false (cs_boundary st1) rmac (replicate (length rmac) 0)) as Hxl.
  destruct (transduce false (cs_boundary st1) rmac _) as [xs st2]. cbn [fst] in Hx, Hxl.
  assert (Hxs : xs = mac_check st ctx rmac).
  { unfold mac_check, decrypt. rewrite Etr. done. }
  unfold bind at 1. rewrite ConstantTimeAllEq_run.
  cbn [w_heap w_ciphers w_calls w_leak].
  rewrite sl_bytes_splice_self; [|done|unfold smac; cbn [s_len]; lia].
  rewrite Hxl, Hrl.
  unfold bind at 1. unfold branch at 1. cbn [w_heap w_ciphers w_calls w_leak].
  rewrite Hxs. set (ok' := forallb _ (mac_check st ctx rmac)).
  assert (Hv : ((if ok' then 1 else 0) =? 0) = negb ok') by (by destruct ok').
  rewrite Hv.
  exists whole. eexists. split; [|split].
  - rewrite if_negb_ret. reflexivity.
  - cbn [w_heap].
    erewrite sl_bytes_ext; last first.
    { apply splice_array_ne. cbn [s_buf]. rewrite <- Gbuf. done. }
    unfold h2. rewrite sl_bytes_splice_extend; [ | done | lia | done | lia | lia ].
    f_equal.
    + rewrite Gbuf, Goff. replace (s_off whole + s_len dst - s_off whole)%nat with (s_len dst) by lia.
      done.
    + unfold decrypt. by rewrite Etr.
  - cbn [w_leak]. rewrite <- !app_assoc. cbn [app].
    reflexivity.
Qed.

End OpenApart.

Lemma splice_lookup_outside (h : heap) d os j :
  sl_wf h d -> length os = s_len d ->
  (j < s_off d \/ s_off d + s_len d <= j)%nat ->
  array_of (sl_splice h d 0 os) (s_buf d) !! j = array_of h (s_buf d) !! j.
Proof.
  intros (Hb & Hl & Hc) Ho Hj. rewrite splice_array_eq by done.
  set (arr := array_of h (s_buf d)) in *.
  destruct Hj as [Hj|Hj].
  - rewrite lookup_app_l by (rewrite length_take; lia).
    by rewrite lookup_take_lt.
  - rewrite lookup_app_r by (rewrite length_take; lia).
    rewrite lookup_app_r by (rewrite length_take; lia).
    rewrite lookup_drop, length_take. f_equal. lia.
Qed.

Lemma sl_bytes_splice_outside (h : heap) d os s :
  sl_wf h d -> length os = s_len d -> s_buf s = s_buf d ->
  (s_off s + s_len s <= s_off d \/ s_off d + s_len d <= s_off s)%nat ->
  sl_bytes (sl_splice h d 0 os) s = sl_bytes h s.
Proof.
  intros Hd Ho Hb Hout. unfold sl_bytes. rewrite Hb.
  apply list_eq. intros j.
  destruct (decide (j < s_len s)%nat) as [Hj|Hj].
  - rewrite !lookup_take_lt by done. rewrite !lookup_drop.
    apply splice_lookup_outside; [done | done | lia].
  - by rewrite !lookup_take_ge by lia.
Qed.

Lemma sl_write_splice (h : heap) d bs :
  (length bs <= s_len d)%nat -> sl_write h d bs = sl_splice h d 0 bs.
Proof.
  intros H. unfold sl_write, sl_splice. cbv zeta.
  rewrite (take_ge bs (s_len d)) by lia.
  by rewrite Nat.add_0_r.
Qed.

Section OpenInPlace.
Context {St : Type} `{CS : CipherState St}.

Lemma make_run n (w : world St) :
  0 <= n <= int_max ->
  make n n w =
    Ret (Slice (length (w_heap w)) 0 (Z.to_nat n) (Z.to_nat n))
        (World (w_heap w ++ [replicate (Z.to_nat n) 0]) (w_ciphers w) (w_calls w) (w_leak w)).
Proof.
  intros H. unfold make.
  assert ((0 <=? n) && (n <=? n) && (n <=? int_max) = true) as ->.
  { rewrite !andb_true_iff, !Z.leb_le. lia. }
  reflexivity.
Qed.

Lemma Open_in_place c dst src (w : world St) st :
  w_ciphers w !! CipherState_of c = Some st ->
  sl_wf (w_heap w) dst -> sl_wf (w_heap w) src ->
  0 <= cs_KeySize st < len src ->
  2 * (len dst + len src + 1) <= int_max ->
  let l := (s_len src - Z.to_nat (cs_KeySize st))%nat in
  s_buf dst = s_buf src -> (s_off dst + s_len dst)%nat = s_off src ->
  (s_len dst + l <= s_cap dst)%nat ->
  let ctx := take l (sl_bytes (w_heap w) src) in
  let rmac := drop l (sl_bytes (w_heap w) src) in
  let ok := forallb (Z.eqb 0) (mac_check st ctx rmac) in
  exists d w',
    Open c dst src w = Ret (if ok then (d, None) else (nil_slice, Some ErrAuthFailed)) w' /\
    sl_bytes (w_heap w') d = sl_bytes (w_heap w) dst ++ fst (decrypt st ctx) /\
    w_leak w' = w_leak w ++ [Branch false; Branch (cap dst <? len dst + Z.of_nat l); Branch false]
                  ++ replicate (Z.to_nat (cs_KeySize st)) LoopIter ++ [Branch (negb ok)].
Proof.
  intros Hc Hdst Hsrc Hm Hmax l Hbuf Hoff Hcap ctx rmac ok.
  set (h := w_heap w) in *.
  set (m := cs_KeySize st) in *.
  assert (Hl : Z.of_nat l = len src - m) by (unfold len in *; lia).
  assert (Hsl : length (sl_bytes h src) = s_len src) by (by apply sl_bytes_length).
  destruct Hsrc as (Hsb & Hsle & Hsc).
  assert (Hctxl : length ctx = l).
  { unfold ctx. rewrite length_take. lia. }
  assert (Hrl : length rmac = Z.to_nat m).
  { unfold rmac. rewrite length_drop. lia. }
  unfold Open.
  rewrite (bind_ret _ _ _ _ _ (KeySize_run _ _ _ Hc)). fold m.
  rewrite int_sub_id by (unfold len, int_max in *; lia).
  rewrite <- Hl.
  assert ((Z.of_nat l <? 0) = false) as -> by (apply Z.ltb_ge; lia).
  unfold bind at 1. unfold branch at 1. cbn [w_heap w_ciphers w_calls w_leak].
  unfold bind at 1. rewrite reslice_ok by (unfold len in *; lia).
  unfold bind at 1. rewrite reslice_ok by (unfold len in *; lia).
  rewrite Z.sub_0_r, Nat2Z.id. change (Z.to_nat 0) with 0%nat.
  rewrite Nat.add_0_r, Nat.sub_0_r.
  replace (Z.to_nat (len src - Z.of_nat l)) with (Z.to_nat m) by lia.
  set (sctx := Slice (s_buf src) (s_off src) l (s_cap src)).
  set (smac := Slice (s_buf src) (s_off src + l) (Z.to_nat m) (s_cap src - l)).
  set (w0 := World h (w_ciphers w) (w_calls w) (w_leak w ++ [Branch false])).
  destruct (Grow_spec dst (Z.of_nat l) w0) as (whole & msg & h1 & HG & G);
    [done | lia | unfold len in *; lia |].
  rewrite Nat2Z.id in G.
  unfold bind at 1. fold h. fold w0. rewrite HG. clear HG.
  unfold w0 in *. clear w0. cbn [w_heap w_ciphers w_calls w_leak] in *.
  destruct G as [_ _ Gwhole Gregion Gbuf Goff Gn Gtotal Gprefix _ _ Greuse].
  destruct (Greuse Hcap) as (Gwb & Gwo & ->). clear Greuse.
  assert (Hmsgb : s_buf msg = s_buf src) by congruence.
  assert (Hmsgo : s_off msg = s_off src) by lia.
  unfold bind at 1. rewrite addr_run by lia.
  unfold bind at 1. rewrite addr_run by (unfold sctx; cbn [s_len]; lia).
  unfold sctx at 1 2. cbn [s_buf s_off].
  assert (addr_eqb (s_buf msg, (s_off msg + 0)%nat) (s_buf src, (s_off src + 0)%nat) = true) as ->.
  { unfold addr_eqb. cbn [fst snd]. rewrite Hmsgb, Hmsgo. by rewrite !Nat.eqb_refl. }
  cbn [negb].
  unfold bind at 1. unfold branch at 1. cbn [w_heap w_ciphers w_calls w_leak].
  (* decrypt into a temporary *)
  unfold bind at 1. unfold bind at 1.
  rewrite make_run by (unfold len, int_max in *; lia).
  cbn [w_heap w_ciphers w_calls w_leak]. rewrite Nat2Z.id.
  set (tmp := Slice (length h) 0 l l).
  set (ht := h ++ [replicate l 0]).
  assert (Harrt : forall b, (b < length h)%nat -> array_of ht b = array_of h b).
  { intros b Hb. unfold ht, array_of. by rewrite lookup_app_l. }
  assert (Htmpwf : sl_wf ht tmp).
  { unfold sl_wf, tmp, ht. cbn [s_buf s_off s_len s_cap].
    rewrite length_app. unfold array_of. rewrite lookup_app_r by lia.
    rewrite Nat.sub_diag. simpl. rewrite length_replicate. lia. }
  assert (Hctxwf : sl_wf ht sctx).
  { unfold sl_wf, sctx. cbn [s_buf s_off s_len s_cap]. rewrite Harrt by done.
    unfold ht. rewrite length_app. lia. }
  assert (Hctxb : sl_bytes ht sctx = ctx).
  { unfold sl_bytes at 1. unfold sctx. cbn [s_buf s_off s_len s_cap]. rewrite Harrt by done.
    replace (s_off src) with (s_off src + 0)%nat at 1 by lia.
    rewrite sub_slice_bytes by lia. by rewrite drop_0. }
  unfold bind at 1.
  rewrite (Message_spec false) with (st := st);
    [ | done | done | unfold sctx, tmp; cbn [s_len]; lia | unfold sctx, tmp; cbn [s_len]; lia
      | right; left; unfold sctx, tmp; cbn [s_buf]; lia
      | left; unfold sctx, tmp; cbn [s_buf]; lia ].
  cbn [w_heap w_ciphers w_calls w_leak].
  change (s_len tmp) with (s_len sctx).
  rewrite reads_wf by done. rewrite Hctxb.
  pose proof (transduce_length false st ctx ctx) as Hosl.
  destruct (transduce false st ctx ctx) as [os st1] eqn:Etr. cbn [fst] in Hosl.
  set (h2 := sl_splice ht tmp 0 os).
  assert (Harr2 : forall b, (b < length h)%nat -> array_of h2 b = array_of h b).
  { intros b Hb. unfold h2. rewrite splice_array_ne by (unfold tmp; cbn [s_buf]; lia).
    by apply Harrt. }
  assert (Hlen2 : length h2 = S (length h)).
  { unfold h2, ht. rewrite splice_length, length_app. simpl. lia. }
  unfold bind at 1. unfold copy at 1. cbn [w_heap w_ciphers w_calls w_leak].
  unfold h2 at 2. rewrite sl_bytes_splice_self; [|done|unfold tmp; cbn [s_len]; lia].
  unfold bind at 1. unfold ret at 1.
  rewrite sl_write_splice by lia.
  assert (Hmsgwf : sl_wf h2 msg).
  { destruct Gregion as (G1 & G2 & G3). unfold sl_wf.
    rewrite Hmsgb in *. rewrite Harr2 by done. rewrite Hlen2. lia. }
  set (h3 := sl_splice h2 msg 0 os).
  assert (Hmacwf : sl_wf h3 smac).
  { unfold sl_wf, smac. cbn [s_buf s_off s_len s_cap].
    unfold h3. rewrite splice_length, Hlen2. rewrite <- Hmsgb.
    rewrite splice_array_length by (done || lia). rewrite Hmsgb.
    rewrite Harr2 by done. lia. }
  assert (Hmacb : sl_bytes h3 smac = rmac).
  { unfold h3. rewrite sl_bytes_splice_outside;
      [ | done | lia | unfold smac; cbn [s_buf]; congruence
        | right; unfold smac; cbn [s_off]; lia ].
    unfold sl_bytes at 1. unfold smac. cbn [s_buf s_off s_len s_cap].
    rewrite Harr2 by done.
    rewrite sub_slice_bytes by lia.
    unfold rmac. apply take_ge. rewrite length_drop. lia. }
  unfold bind at 1.
  rewrite (Message_spec false) with (st := cs_boundary st1);
    [ | cbn [w_ciphers]; apply list_lookup_insert_eq; by eapply lookup_lt_Some
      | done | done | unfold nil_slice; cbn [s_len]; lia | left; done | right; left; done ].
  cbn [w_heap w_ciphers w_calls w_leak].
  rewrite reads_wf by done. rewrite Hmacb.
  rewrite reads_empty by done.
  replace (s_len smac) with (length rmac) by (rewrite Hrl; reflexivity).
  pose proof (transduce_xor_mac (cs_boundary st1) rmac) as Hx.
  pose proof (transduce_length false (cs_boundary st1) rmac (replicate (length rmac) 0)) as Hxl.
  destruct (transduce false (cs_boundary st1) rmac _) as [xs st2]. cbn [fst] in Hx, Hxl.
  assert (Hxs : xs = mac_check st ctx rmac).
  { unfold mac_check, decrypt. rewrite Etr. done. }
  unfold bind at 1. rewrite ConstantTimeAllEq_run.
  cbn [w_heap w_ciphers w_calls w_leak].
  rewrite sl_bytes_splice_self; [|done|unfold smac; cbn [s_len]; lia].
  rewrite Hxl, Hrl.
  unfold branch at 1. cbn [w_heap w_ciphers w_calls w_leak].
  rewrite Hxs. set (ok' := forallb _ (mac_check st ctx rmac)).
  assert (Hv : ((if ok' then 1 else 0) =? 0) = negb ok') by (by destruct ok').
  rewrite Hv.
  exists whole. eexists. split; [|split].
  - rewrite if_negb_ret. reflexivity.
  - cbn [w_heap].
    rewrite sl_bytes_splice_outside;
      [ | done | rewrite <- Hxs; unfold smac; cbn [s_len]; lia
        | unfold smac; cbn [s_buf]; congruence
        | left; unfold smac; cbn [s_off]; lia ].
    unfold h3. rewrite sl_bytes_splice_extend; [ | done | lia | congruence | lia | lia ].
    f_equal.
    + rewrite Hmsgb, Harr2 by done. rewrite <- Gprefix. rewrite Gwb, Hbuf.
      do 2 f_equal; lia.
    + unfold decrypt. by rewrite Etr.
  - cbn [w_leak]. rewrite <- !app_assoc. reflexivity.
Qed.

End OpenInPlace.

Section OpenDisjoint.
Context {St : Type} `{CS : CipherState St}.

(** [Open] with [dst] in the array of [src], the capacity sufficing and
    the window of [dst], the room for the plaintext included, clear of
    the window of [src]. *)
Lemma Open_disjoint c dst src (w : world St) st :
  w_ciphers w !! CipherState_of c = Some st ->
  sl_wf (w_heap w) dst -> sl_wf (w_heap w) src ->
  0 <= cs_KeySize st < len src ->
  2 * (len dst + len src + 1) <= int_max ->
  let l := (s_len src - Z.to_nat (cs_KeySize st))%nat in
  s_buf dst = s_buf src -> (s_len dst + l <= s_cap dst)%nat ->
  ((s_off dst + s_len dst + l <= s_off src)%nat \/
   (s_off src + s_len src <= s_off dst)%nat) ->
  let ctx := take l (sl_bytes (w_heap w) src) in
  let rmac := drop l (sl_bytes (w_heap w) src) in
  let ok := forallb (Z.eqb 0) (mac_check st ctx rmac) in
  exists d w',
    Open c dst src w = Ret (if ok then (d, None) else (nil_slice, Some ErrAuthFailed)) w' /\
    sl_bytes (w_heap w') d = sl_bytes (w_heap w) dst ++ fst (decrypt st ctx) /\
    w_leak w' = w_leak w ++ [Branch false; Branch (cap dst <? len dst + Z.of_nat l); Branch true]
                  ++ replicate (Z.to_nat (cs_KeySize st)) LoopIter ++ [Branch (negb ok)].
Proof.
  intros Hc Hdst Hsrc Hm Hmax l Hb Hcap Hdis ctx rmac ok.
  set (h := w_heap w) in *.
  set (m := cs_KeySize st) in *.
  assert (Hl : Z.of_nat l = len src - m) by (unfold len in *; lia).
  assert (Hsl : length (sl_bytes h src) = s_len src) by (by apply sl_bytes_length).
  pose proof Hsrc as Hsrcwf.
  destruct Hsrc as (Hsb & Hsle & Hsc).
  unfold Open.
  rewrite (bind_ret _ _ _ _ _ (KeySize_run _ _ _ Hc)). fold m.
  rewrite int_sub_id by (unfold len, int_max in *; lia).
  rewrite <- Hl.
  assert ((Z.of_nat l <? 0) = false) as -> by (apply Z.ltb_ge; lia).
  unfold bind at 1. unfold branch at 1. cbn [w_heap w_ciphers w_calls w_leak].
  unfold bind at 1. rewrite reslice_ok by (unfold len in *; lia).
  unfold bind at 1. rewrite reslice_ok by (unfold len in *; lia).
  rewrite Z.sub_0_r, Nat2Z.id. change (Z.to_nat 0) with 0%nat.
  rewrite Nat.add_0_r, Nat.sub_0_r.
  replace (Z.to_nat (len src - Z.of_nat l)) with (Z.to_nat m) by lia.
  set (sctx := Slice (s_buf src) (s_off src) l (s_cap src)).
  set (smac := Slice (s_buf src) (s_off src + l) (Z.to_nat m) (s_cap src - l)).
  set (w0 := World h (w_ciphers w) (w_calls w) (w_leak w ++ [Branch false])).
  destruct (Grow_spec dst (Z.of_nat l) w0) as (whole & msg & h1 & HG & G);
    [done | lia | unfold len in *; lia |].
  rewrite Nat2Z.id in G.
  unfold bind at 1. fold h. fold w0. rewrite HG. clear HG.
  unfold w0 in *. clear w0. cbn [w_heap w_ciphers w_calls w_leak] in *.
  destruct G as [Gold Glen Gwhole Gregion Gbuf Goff Gn Gtotal Gprefix Gwhere Gfresh Greuse].
  destruct (Greuse Hcap) as (Wb & Wo & Eh). fold h in Eh. subst h1.
  assert (Hmb : s_buf msg = s_buf src) by congruence.
  assert (Hmo : s_off msg = (s_off dst + s_len dst)%nat) by (rewrite Goff, Wo; done).
  unfold bind at 1. rewrite addr_run by lia.
  unfold bind at 1. rewrite addr_run by (unfold sctx; cbn [s_len]; lia).
  unfold sctx at 1 2. cbn [s_buf s_off].
  assert (addr_eqb (s_buf msg, (s_off msg + 0)%nat) (s_buf src, (s_off src + 0)%nat) = false) as ->.
  { unfold addr_eqb. cbn [fst snd]. apply andb_false_iff. right. apply Nat.eqb_neq. lia. }
  cbn [negb].
  unfold bind at 1. unfold branch at 1. cbn [w_heap w_ciphers w_calls w_leak].
  (* decrypt *)
  assert (Hctxwf : sl_wf h sctx).
  { unfold sl_wf, sctx. cbn [s_buf s_off s_len s_cap]. lia. }
  assert (Hctxb : sl_bytes h sctx = ctx).
  { unfold sl_bytes at 1. unfold sctx. cbn [s_buf s_off s_len s_cap].
    replace (s_off src) with (s_off src + 0)%nat at 1 by lia.
    rewrite sub_slice_bytes by lia. by rewrite drop_0. }
  unfold bind at 1.
  rewrite (Message_spec false) with (st := st);
    [ | done | done | unfold sctx; cbn [s_len]; lia | unfold sctx; cbn [s_len]; lia
      | right; right; right; unfold sctx; cbn [s_off s_len]; lia
      | right; right; unfold sctx; cbn [s_off s_len]; lia ].
  cbn [w_heap w_ciphers w_calls w_leak].
  rewrite Gn. change l with (s_len sctx) at 1 2.
  rewrite reads_wf by done. rewrite Hctxb.
  pose proof (transduce_length false st ctx ctx) as Hosl.
  destruct (transduce false st ctx ctx) as [os st1] eqn:Etr. cbn [fst] in Hosl.
  assert (Hctxl : length ctx = l).
  { unfold ctx. rewrite length_take. lia. }
  set (h2 := sl_splice h msg 0 os).
  (* the MAC *)
  assert (Hmacwf0 : sl_wf h smac).
  { unfold sl_wf, smac. cbn [s_buf s_off s_len s_cap]. lia. }
  assert (Hmacwf : sl_wf h2 smac) by (apply sl_wf_splice; [done | lia | done]).
  assert (Hmacb : sl_bytes h2 smac = rmac).
  { unfold h2. rewrite sl_bytes_splice_outside;
      [ | done | lia | unfold smac; cbn [s_buf]; congruence
        | unfold smac; cbn [s_off s_len]; lia ].
    unfold sl_bytes at 1. unfold smac. cbn [s_buf s_off s_len s_cap].
    rewrite sub_slice_bytes by lia.
    unfold rmac. apply take_ge. rewrite length_drop. lia. }
  unfold bind at 1.
  rewrite (Message_spec false) with (st := cs_boundary st1);
    [ | cbn [w_ciphers]; apply list_lookup_insert_eq; by eapply lookup_lt_Some
      | done | done | unfold nil_slice; cbn [s_len]; lia | left; done | right; left; done ].
  cbn [w_heap w_ciphers w_calls w_leak].
  change (Z.to_nat m) with (s_len smac) at 1.
  rewrite reads_wf by done. rewrite Hmacb.
  rewrite reads_empty by done.
  assert (Hrl : length rmac = Z.to_nat m).
  { unfold rmac. rewrite length_drop. lia. }
  replace (s_len smac) with (length rmac) by (rewrite Hrl; reflexivity).
  pose proof (transduce_xor_mac (cs_boundary st1) rmac) as Hx.
  pose proof (transduce_length false (cs_boundary st1) rmac (replicate (length rmac) 0)) as Hxl.
  destruct (transduce false (cs_boundary st1) rmac _) as [xs st2]. cbn [fst] in Hx, Hxl.
  assert (Hxs : xs = mac_check st ctx rmac).
  { unfold mac_check, decrypt. rewrite Etr. done. }
  unfold bind at 1. rewrite ConstantTimeAllEq_run.
  cbn [w_heap w_ciphers w_calls w_leak].
  rewrite sl_bytes_splice_self; [|done|unfold smac; cbn [s_len]; lia].
  rewrite Hxl, Hrl.
  unfold bind at 1. unfold branch at 1. cbn [w_heap w_ciphers w_calls w_leak].
  rewrite Hxs. set (ok' := forallb _ (mac_check st ctx rmac)).
  assert (Hv : ((if ok' then 1 else 0) =? 0) = negb ok') by (by destruct ok').
  rewrite Hv.
  exists whole. eexists. split; [|split].
  - rewrite if_negb_ret. reflexivity.
  - cbn [w_heap].
    rewrite sl_bytes_splice_outside;
      [ | done | rewrite <- Hxs; unfold smac; cbn [s_len]; lia
        | unfold smac; cbn [s_buf]; congruence
        | unfold smac; cbn [s_off s_len]; lia ].
    unfold h2. rewrite sl_bytes_splice_extend; [ | done | lia | done | lia | lia ].
    f_equal.
    + rewrite Gbuf, Goff. replace (s_off whole + s_len dst - s_off whole)%nat with (s_len dst) by lia.
      done.
    + unfold decrypt. by rewrite Etr.
  - cbn [w_leak]. rewrite <- !app_assoc. cbn [app].
    reflexivity.
Qed.

End OpenDisjoint.

Section SealSpec.
Context {St : Type} `{CS : CipherState St}.

Lemma encrypt_length st p : length (fst (encrypt st p)) = length p.
Proof.
  unfold encrypt. pose proof (transduce_length true st p []) as H.
  by destruct (transduce true st p []).
Qed.

Lemma Seal_spec c dst src (w : world St) st :
  w_ciphers w !! CipherState_of c = Some st ->
  sl_wf (w_heap w) dst -> sl_wf (w_heap w) src ->
  0 <= cs_KeySize st ->
  2 * (len dst + len src + cs_KeySize st + 1) <= int_max ->
  let m := Z.to_nat (cs_KeySize st) in
  (s_buf dst <> s_buf src \/ (s_cap dst < s_len dst + s_len src + m)%nat) ->
  let msg := sl_bytes (w_heap w) src in
  exists d w',
    Seal c dst src w = Ret d w' /\
    sl_wf (w_heap w') d /\
    s_len d = (s_len dst + s_len src + m)%nat /\
    sl_bytes (w_heap w') d =
      sl_bytes (w_heap w) dst ++ fst (encrypt st msg) ++ mac_of (snd (encrypt st msg)) m /\
    (length (w_heap w) <= length (w_heap w'))%nat /\
    (s_buf d = s_buf dst \/ s_buf d = length (w_heap w)) /\
    w_ciphers w' !! CipherState_of c <> None /\
    (forall i, i <> CipherState_of c -> w_ciphers w' !! i = w_ciphers w !! i).
Proof.
  intros Hc Hdst Hsrc Hm Hmax m Hbuf msg.
  set (h := w_heap w) in *.
  assert (Hsl : length msg = s_len src) by (by apply sl_bytes_length).
  unfold Seal.
  rewrite (bind_ret _ _ _ _ _ (KeySize_run _ _ _ Hc)).
  assert (int_add (len src) (cs_KeySize st) = Z.of_nat (s_len src + m)) as ->.
  { unfold int_add. rewrite wrap_id; unfold int_range, int_min, int_max, len in *; lia. }
  destruct (Grow_spec dst (Z.of_nat (s_len src + m)) w) as (whole & buf & h1 & HG & G);
    [done | lia | unfold len in *; lia |].
  rewrite Nat2Z.id in G.
  unfold bind at 1. rewrite HG. clear HG.
  destruct G as [Gold Glen Gwhole Gregion Gbuf Goff Gn Gtotal Gprefix Gwhere Gfresh _].
  fold h in Gold, Glen, Gprefix, Gwhere, Gfresh.
  assert (Hcapb : (s_len buf <= s_cap buf)%nat) by (destruct Gregion; lia).
  unfold bind at 1. rewrite reslice_ok by (unfold len, cap in *; lia).
  unfold bind at 1. rewrite reslice_ok by (unfold len, cap in *; lia).
  rewrite Z.sub_0_r. change (Z.to_nat 0) with 0%nat.
  rewrite Nat.add_0_r, Nat.sub_0_r. unfold len. rewrite !Nat2Z.id.
  replace (Z.to_nat (Z.of_nat (s_len buf) - Z.of_nat (s_len src))) with m by lia.
  set (sctx := Slice (s_buf buf) (s_off buf) (s_len src) (s_cap buf)).
  set (smac := Slice (s_buf buf) (s_off buf + s_len src) m (s_cap buf - s_len src)).
  assert (Hbs : s_buf buf <> s_buf src \/ s_len src = 0%nat).
  { destruct Hsrc as (Hsb & _ & _). fold h in Hsb. left. rewrite Gbuf.
    destruct Hbuf as [Hbuf|Hbuf].
    - destruct Gwhere as [[E _] | E]; rewrite E; [done | lia].
    - rewrite Gfresh by lia. lia. }
  assert (Hsrc1 : sl_bytes h1 src = msg).
  { apply sl_bytes_ext. apply Gold. by destruct Hsrc. }
  assert (Hsrcwf1 : sl_wf h1 src).
  { eapply sl_wf_ext; [exact Glen | | exact Hsrc]. apply Gold. by destruct Hsrc. }
  assert (Hctxwf : sl_wf h1 sctx).
  { destruct Gregion as (G1 & G2 & G3). unfold sl_wf, sctx. cbn [s_buf s_off s_len s_cap]. lia. }
  (* encrypt *)
  unfold bind at 1.
  rewrite (Message_spec true) with (st := st);
    [ | done | done | unfold sctx; cbn [s_len]; lia | lia
      | right; destruct Hbs as [Hbs|Hbs]; [left; unfold sctx; cbn [s_buf]; congruence | right; by left]
      | done ].
  cbn [w_heap w_ciphers w_calls w_leak].
  rewrite (transduce_kd_keys st _ _ []).
  change (s_len sctx) with (s_len src).
  rewrite reads_wf by done. rewrite Hsrc1.
  pose proof (transduce_length true st msg []) as Hosl.
  destruct (transduce true st msg []) as [os st1] eqn:Etr. cbn [fst] in Hosl.
  set (h2 := sl_splice h1 sctx 0 os).
  assert (Hmacwf : sl_wf h2 smac).
  { apply sl_wf_splice; [done | unfold sctx; cbn [s_len]; lia |].
    destruct Gregion as (G1 & G2 & G3). unfold sl_wf, smac. cbn [s_buf s_off s_len s_cap]. lia. }
  (* the MAC *)
  unfold bind at 1.
  rewrite (Message_spec false) with (st := cs_boundary st1);
    [ | cbn [w_ciphers]; apply list_lookup_insert_eq; by eapply lookup_lt_Some
      | done | unfold nil_slice; cbn [s_len]; lia | unfold nil_slice; cbn [s_len]; lia
      | right; right; left; done | right; left; done ].
  cbn [w_heap w_ciphers w_calls w_leak].
  rewrite !reads_empty by done.
  change (s_len smac) with m.
  pose proof (transduce_length false (cs_boundary st1) (replicate m 0) (replicate m 0)) as Hml.
  assert (Hmac : fst (transduce false (cs_boundary st1) (replicate m 0) (replicate m 0)) =
                 mac_of (snd (encrypt st msg)) m).
  { unfold mac_of, encrypt. by rewrite Etr. }
  destruct (transduce false (cs_boundary st1) (replicate m 0) (replicate m 0)) as [ms st2].
  cbn [fst] in Hml, Hmac. rewrite length_replicate in Hml.
  unfold ret.
  assert (Hwhole3 : sl_wf (sl_splice h2 smac 0 ms) whole).
  { apply sl_wf_splice; [done | unfold smac; cbn [s_len]; lia |].
    apply sl_wf_splice; [done | unfold sctx; cbn [s_len]; lia | done]. }
  exists whole. eexists. split; [reflexivity|].
  cbn [w_heap w_ciphers].
  split; [done|]. split; [lia|]. split; [|split; [|split; [|split]]].
  - (* the bytes *)
    rewrite sl_bytes_splice_extend; [ | done | unfold smac; cbn [s_len]; lia
      | unfold smac; cbn [s_buf]; congruence | unfold smac; cbn [s_off]; lia
      | unfold smac; cbn [s_off s_len]; lia ].
    unfold smac. cbn [s_buf s_off].
    rewrite Hmac. rewrite app_assoc. f_equal.
    assert (Hctx2 : array_of h2 (s_buf buf) =
              take (s_off buf) (array_of h1 (s_buf buf)) ++ os ++
              drop (s_off buf + length os) (array_of h1 (s_buf buf))).
    { unfold h2. change (s_buf buf) with (s_buf sctx) at 1.
      rewrite splice_array_eq by (by destruct Hctxwf). done. }
    rewrite Hctx2.
    destruct Gwhole as (W1 & W2 & W3). rewrite Gbuf in *.
    set (arr1 := array_of h1 (s_buf whole)) in *.
    rewrite drop_app_le by (rewrite length_take; lia).
    set (X := drop (s_off whole) (take (s_off buf) arr1)).
    assert (HX : length X = s_len dst).
    { unfold X. rewrite length_drop, length_take. lia. }
    rewrite take_app_ge by lia.
    replace (s_off buf + s_len src - s_off whole - length X)%nat with (length os) by lia.
    rewrite take_app_length. f_equal.
    + rewrite <- Gprefix. unfold X. rewrite take_drop_commute. do 2 f_equal. lia.
    + unfold encrypt. by rewrite Etr.
  - unfold h2. rewrite !splice_length. done.
  - rewrite Gbuf in *. destruct Gwhere as [[E _]|E]; [by left|].
    destruct (decide (s_buf whole = s_buf dst)); [by left|by right].
  - rewrite list_lookup_insert_eq; [done|].
    rewrite length_insert. by eapply lookup_lt_Some.
  - intros i Hi. by rewrite !list_lookup_insert_ne.
Qed.

End SealSpec.

(** ** Sealing and opening *)

Section SealOpen.
Context {St : Type} `{CS : CipherState St}.

(** [Open] on a sufficiently long input whose destination is placed
    properly: the result, the plaintext, and the control flow seen. *)
Lemma Open_placed c dst src (w : world St) st :
  w_ciphers w !! CipherState_of c = Some st ->
  sl_wf (w_heap w) dst -> sl_wf (w_heap w) src ->
  0 <= cs_KeySize st < len src ->
  2 * (len dst + len src + 1) <= int_max ->
  let l := (s_len src - Z.to_nat (cs_KeySize st))%nat in
  placed dst src l ->
  let ctx := take l (sl_bytes (w_heap w) src) in
  let rmac := drop l (sl_bytes (w_heap w) src) in
  let ok := forallb (Z.eqb 0) (mac_check st ctx rmac) in
  exists d w',
    Open c dst src w = Ret (if ok then (d, None) else (nil_slice, Some ErrAuthFailed)) w' /\
    sl_bytes (w_heap w') d = sl_bytes (w_heap w) dst ++ fst (decrypt st ctx) /\
    w_leak w' = w_leak w ++ open_branches dst src l
                  ++ replicate (Z.to_nat (cs_KeySize st)) LoopIter ++ [Branch (negb ok)].
Proof.
  intros Hc Hdst Hsrc Hm Hmax l Hpl ctx rmac ok.
  destruct Hpl as [Hap | [(Hb & Ho & Hcap) | (Hb & Hcap & Hdis)]].
  - destruct (Open_apart c dst src w st Hc Hdst Hsrc Hm Hmax Hap) as (d & w' & H1 & H2 & H3).
    exists d, w'. split; [exact H1|]. split; [exact H2|].
    rewrite H3. unfold open_branches, cap, len. fold l.
    assert (negb ((s_buf dst =? s_buf src)%nat && (s_off dst + s_len dst =? s_off src)%nat
                  && (s_len dst + l <=? s_cap dst)%nat) = true) as ->; [|done].
    apply negb_true_iff. destruct Hap as [Hap|Hap].
    + apply Nat.eqb_neq in Hap. by rewrite Hap.
    + apply andb_false_iff. right. apply Nat.leb_gt. exact Hap.
  - destruct (Open_in_place c dst src w st Hc Hdst Hsrc Hm Hmax Hb Ho Hcap)
      as (d & w' & H1 & H2 & H3).
    exists d, w'. split; [exact H1|]. split; [exact H2|].
    rewrite H3. unfold open_branches, cap, len. fold l.
    assert (negb ((s_buf dst =? s_buf src)%nat && (s_off dst + s_len dst =? s_off src)%nat
                  && (s_len dst + l <=? s_cap dst)%nat) = false) as ->; [|done].
    apply negb_false_iff. rewrite !andb_true_iff.
    split; [split|]; [by apply Nat.eqb_eq | by apply Nat.eqb_eq | by apply Nat.leb_le].
  - destruct (Open_disjoint c dst src w st Hc Hdst Hsrc Hm Hmax Hb Hcap Hdis)
      as (d & w' & H1 & H2 & H3).
    exists d, w'. split; [exact H1|]. split; [exact H2|].
    rewrite H3. unfold open_branches, cap, len. fold l.
    assert (negb ((s_buf dst =? s_buf src)%nat && (s_off dst + s_len dst =? s_off src)%nat
                  && (s_len dst + l <=? s_cap dst)%nat) = true) as ->; [|done].
    apply negb_true_iff, andb_false_iff. left. apply andb_false_iff. right.
    apply Nat.eqb_neq. unfold len in Hm. lia.
Qed.

(** C2. [Open] fails with the error "sealed ciphertext too short" exactly
    when [len(src) < KeySize()]; it then returns before any call into the
    underlying state: the calls made, the cipher states and the arrays
    are what they were. *)
Theorem Open_too_short_iff c dst src (w : world St) st :
  w_ciphers w !! CipherState_of c = Some st ->
  0 <= cs_KeySize st <= int_max -> len src <= int_max ->
  ((exists d w', Open c dst src w = Ret (d, Some ErrTooShort) w') <->
   len src < cs_KeySize st) /\
  (len src < cs_KeySize st ->
   exists w', Open c dst src w = Ret (nil_slice, Some ErrTooShort) w' /\
     w_calls w' = w_calls w /\ w_ciphers w' = w_ciphers w /\ w_heap w' = w_heap w).
Proof.
  intros Hc Hm Hs. split; [split|].
  - intros (d & w' & H).
    destruct (Z.lt_ge_cases (len src) (cs_KeySize st)) as [Hlt|Hge]; [done|].
    exfalso. by eapply (Open_long c dst src w st).
  - intros Hlt. eexists _, _. by apply (Open_short c dst src w st).
  - intros Hlt. eexists. split; [by apply (Open_short c dst src w st)|]. done.
Qed.

(** C10. [Open] on an input of exactly [KeySize()] bytes, which is what
    [Seal] produces for the empty message, does not return the empty
    plaintext: taking the address of byte 0 of the empty message buffer
    panics with an index out of range, whatever [dst] is. *)
Theorem Open_empty_message_panics c dst src (w : world St) st :
  w_ciphers w !! CipherState_of c = Some st ->
  0 <= cs_KeySize st <= int_max ->
  (s_len src <= s_cap src)%nat -> (s_len dst <= s_cap dst)%nat ->
  len dst <= int_max ->
  len src = cs_KeySize st ->
  Open c dst src w = Panics IndexOutOfRange.
Proof. apply Open_empty_message. Qed.

(** C3. On an input longer than [KeySize()], with [dst] placed properly,
    [Open] succeeds exactly when the received MAC XOR the recomputed MAC
    is all zero, and then returns [dst] extended by the plaintext;
    otherwise it returns the authentication error and the nil slice.  On
    an input of exactly [KeySize()] bytes, which the length test lets
    through, there is no such verdict: the buffer is the input XOR the
    MAC of the empty message, all zero for what [Seal] makes of the empty
    message, and [Open] panics before it looks at it. *)
Theorem Open_succeeds_iff_mac_zero c dst src (w : world St) st :
  w_ciphers w !! CipherState_of c = Some st ->
  sl_wf (w_heap w) dst -> sl_wf (w_heap w) src ->
  0 <= cs_KeySize st <= len src ->
  2 * (len dst + len src + 1) <= int_max ->
  let l := (s_len src - Z.to_nat (cs_KeySize st))%nat in
  placed dst src l ->
  let ctx := take l (sl_bytes (w_heap w) src) in
  let received := drop l (sl_bytes (w_heap w) src) in
  let recomputed := mac_of (snd (decrypt st ctx)) (length received) in
  let buffer := zip_with Z.lxor received recomputed in
  (cs_KeySize st < len src ->
   ((exists d w', Open c dst src w = Ret (d, None) w') <->
    forallb (Z.eqb 0) buffer = true) /\
   (forallb (Z.eqb 0) buffer = true ->
    exists d w', Open c dst src w = Ret (d, None) w' /\
      sl_bytes (w_heap w') d = sl_bytes (w_heap w) dst ++ fst (decrypt st ctx)) /\
   (forallb (Z.eqb 0) buffer = false ->
    exists w', Open c dst src w = Ret (nil_slice, Some ErrAuthFailed) w')) /\
  (len src = cs_KeySize st ->
   buffer = zip_with Z.lxor (sl_bytes (w_heap w) src) (mac_of (cs_boundary st) (s_len src)) /\
   Open c dst src w = Panics IndexOutOfRange).
Proof.
  intros Hc Hdst Hsrc Hm Hmax l Hpl ctx received recomputed buffer. split.
  - intros Hlong.
    assert (Hm' : 0 <= cs_KeySize st < len src) by lia.
    destruct (Open_placed c dst src w st Hc Hdst Hsrc Hm' Hmax Hpl) as (d & w' & H1 & H2 & _).
    fold l ctx received in H1, H2.
    change (mac_check st ctx received) with buffer in H1.
    split; [split|split].
    + intros (d' & w'' & H). rewrite H in H1.
      destruct (forallb (Z.eqb 0) buffer); [done|discriminate].
    + intros Hz. rewrite Hz in H1. by exists d, w'.
    + intros Hz. rewrite Hz in H1. by exists d, w'.
    + intros Hz. rewrite Hz in H1. by exists w'.
  - intros Heq. split.
    + assert (Hl0 : l = 0%nat) by (unfold l, len in *; lia).
      unfold buffer, recomputed, received, ctx. rewrite Hl0, take_0, drop_0.
      by rewrite sl_bytes_length.
    + destruct Hdst as (_ & Hd & _). destruct Hsrc as (_ & Hs & _).
      apply (Open_empty_message c dst src w st);
        [done | unfold len, int_max in *; lia | done | done | unfold len, int_max in *; lia | done].
Qed.

(** C4. The MAC verification of [Open] is constant time in the model of
    observable control flow: of two runs on slices with the same headers,
    whatever the bytes and the cipher states, the observer sees the same
    branches and the same [KeySize()] loop turns, one per MAC byte, up to
    the final verdict; two runs that both fail are indistinguishable. *)
Theorem Open_mac_check_constant_time c dst src (w1 w2 : world St) st1 st2 :
  w_ciphers w1 !! CipherState_of c = Some st1 ->
  w_ciphers w2 !! CipherState_of c = Some st2 ->
  cs_KeySize st1 = cs_KeySize st2 ->
  sl_wf (w_heap w1) dst -> sl_wf (w_heap w1) src ->
  sl_wf (w_heap w2) dst -> sl_wf (w_heap w2) src ->
  0 <= cs_KeySize st1 < len src ->
  2 * (len dst + len src + 1) <= int_max ->
  let l := (s_len src - Z.to_nat (cs_KeySize st1))%nat in
  placed dst src l ->
  exists r1 w1' r2 w2' b1 b2,
    Open c dst src w1 = Ret r1 w1' /\ Open c dst src w2 = Ret r2 w2' /\
    let seen := open_branches dst src l ++ replicate (Z.to_nat (cs_KeySize st1)) LoopIter in
    w_leak w1' = w_leak w1 ++ seen ++ [Branch b1] /\
    w_leak w2' = w_leak w2 ++ seen ++ [Branch b2] /\
    (b1 = true <-> snd r1 = Some ErrAuthFailed) /\
    (b2 = true <-> snd r2 = Some ErrAuthFailed).
Proof.
  intros Hc1 Hc2 Hk Hd1 Hs1 Hd2 Hs2 Hm Hmax l Hpl.
  destruct (Open_placed c dst src w1 st1 Hc1 Hd1 Hs1 Hm Hmax Hpl) as (d1 & w1' & A1 & _ & A3).
  assert (Hm2 : 0 <= cs_KeySize st2 < len src) by (rewrite <- Hk; exact Hm).
  assert (Hpl2 : placed dst src (s_len src - Z.to_nat (cs_KeySize st2))) by (rewrite <- Hk; exact Hpl).
  destruct (Open_placed c dst src w2 st2 Hc2 Hd2 Hs2 Hm2 Hmax Hpl2) as (d2 & w2' & B1 & _ & B3).
  rewrite <- Hk in B3. fold l in A3, B3.
  eexists _, w1', _, w2', _, _.
  split; [exact A1|]. split; [exact B1|]. cbv zeta.
  split; [rewrite A3, <- !app_assoc; reflexivity|].
  split; [rewrite B3, <- !app_assoc; reflexivity|].
  split.
  - unfold l. destruct (forallb _ _); simpl; split; congruence.
  - unfold l. rewrite Hk.
    set (ok2 := forallb _ (mac_check st2 _ _)).
    destruct ok2; simpl; split; congruence.
Qed.

(** C1. Sealing with one cipher and opening with a clone taken before
    gives the message back, with a nil error, for every message that is
    not empty; on the empty message [Open] does not return: it panics. *)
Theorem Seal_then_Open c src (w : world St) st :
  w_ciphers w !! CipherState_of c = Some st ->
  sl_wf (w_heap w) src ->
  0 < cs_KeySize st ->
  2 * (len src + cs_KeySize st + 1) <= int_max ->
  (s_len src = 0%nat -> seal_then_open c src w = Panics IndexOutOfRange) /\
  ((0 < s_len src)%nat ->
   exists d w', seal_then_open c src w = Ret (d, None) w' /\
     sl_bytes (w_heap w') d = sl_bytes (w_heap w) src).
Proof.
  intros Hc Hsrc Hm Hmax.
  set (m := Z.to_nat (cs_KeySize st)).
  set (msg := sl_bytes (w_heap w) src).
  (* the clone *)
  set (c2 := MkCipher (length (w_ciphers w))).
  set (w1 := World (w_heap w) (w_ciphers w ++ [st]) (w_calls w) (w_leak w)).
  assert (Hclone : Clone c w = Ret c2 w1).
  { unfold Clone. by rewrite Hc. }
  assert (Hc1 : w_ciphers w1 !! CipherState_of c = Some st).
  { unfold w1. cbn [w_ciphers]. rewrite lookup_app_l; [done|]. by eapply lookup_lt_Some. }
  assert (Hne : CipherState_of c2 <> CipherState_of c).
  { unfold c2. cbn [CipherState_of]. apply lookup_lt_Some in Hc. lia. }
  assert (Hnil : sl_wf (w_heap w1) nil_slice).
  { destruct Hsrc as (Hb & _ & _). unfold sl_wf, nil_slice, w1. cbn. lia. }
  (* the sealed message *)
  destruct (Seal_spec c nil_slice src w1 st Hc1 Hnil Hsrc) as
    (sealed & w2 & HS & Hswf & Hslen & Hsb & Hlen2 & _ & _ & Hother);
    [lia | unfold len in *; cbn [s_len nil_slice] in *; unfold nil_slice; cbn; lia
     | right; unfold nil_slice; cbn [s_cap s_len]; lia |].
  fold m in Hsb, Hslen. change (sl_bytes (w_heap w1) src) with msg in Hsb.
  cbn [s_len nil_slice] in Hslen. unfold nil_slice in Hslen. cbn [s_len] in Hslen.
  assert (Hc2 : w_ciphers w2 !! CipherState_of c2 = Some st).
  { rewrite Hother by done. unfold w1, c2. cbn [w_ciphers CipherState_of].
    rewrite lookup_app_r by lia. by rewrite Nat.sub_diag. }
  assert (Hnil2 : sl_wf (w_heap w2) nil_slice).
  { destruct Hsrc as (Hb & _ & _). unfold w1 in Hlen2. cbn [w_heap] in Hlen2.
    unfold sl_wf, nil_slice. cbn. lia. }
  assert (Hrun : seal_then_open c src w = Open c2 nil_slice sealed w2).
  { unfold seal_then_open. rewrite (bind_ret _ _ _ _ _ Hclone).
    by rewrite (bind_ret _ _ _ _ _ HS). }
  rewrite Hrun.
  assert (Hmsgl : length msg = s_len src) by (by apply sl_bytes_length).
  assert (Hnilb : sl_bytes (w_heap w1) nil_slice = []) by done.
  rewrite Hnilb in Hsb. cbn [app] in Hsb.
  split.
  - (* the empty message *)
    intros Hz. apply Open_empty_message with (st := st).
    + done.
    + unfold int_max in *. unfold len in *. lia.
    + by destruct Hswf as (_ & ? & _).
    + done.
    + unfold len, nil_slice, int_max. cbn. lia.
    + unfold len. rewrite Hslen, Hz. unfold m. lia.
  - (* a message with bytes *)
    intros Hpos.
    destruct (Open_placed c2 nil_slice sealed w2 st Hc2 Hnil2 Hswf) as (d & w3 & HO & Hbytes & _).
    + unfold len. rewrite Hslen. unfold m. lia.
    + unfold len in *. rewrite Hslen. unfold nil_slice, m. cbn [s_len]. lia.
    + left. right. unfold nil_slice. cbn [s_cap s_len]. rewrite Hslen. unfold m. lia.
    + replace (s_len sealed - Z.to_nat (cs_KeySize st))%nat with (s_len src) in *
        by (rewrite Hslen; unfold m; lia).
      rewrite Hsb in *.
      assert (Hel : length (fst (encrypt st msg)) = s_len src).
      { by rewrite encrypt_length. }
      rewrite take_app_length' in * by done.
      rewrite drop_app_length' in * by done.
      assert (Hok : mac_check st (fst (encrypt st msg)) (mac_of (snd (encrypt st msg)) m) =
                    zip_with Z.lxor (mac_of (snd (encrypt st msg)) m)
                                    (mac_of (snd (encrypt st msg)) m)).
      { unfold mac_check. rewrite decrypt_encrypt. cbn [snd].
        by rewrite mac_of_length. }
      rewrite Hok, xor_self_zero in HO.
      exists d, w3. split; [exact HO|].
      rewrite Hbytes. rewrite decrypt_encrypt. cbn [fst].
      assert (sl_bytes (w_heap w2) nil_slice = []) as -> by done.
      done.
Qed.

End SealOpen.

(** *** The theorems at work on the small cipher *)

(** Side conditions on concrete worlds are closed by evaluation. *)
Ltac evaluated :=
  cbv zeta;
  first [ reflexivity
        | solve [unfold sl_wf, placed, len, int_max; cbn; lia]
        | solve [vm_compute; repeat split; (discriminate || reflexivity)] ].

Lemma Open_too_short_iff_witness :
  let c := MkCipher 0 in
  let src := Slice 1 0 1 1 in
  let w := toy_world [[9]] 5 in
  (w_ciphers w !! CipherState_of c = Some 5 /\
   0 <= cs_KeySize 5 <= int_max /\ len src <= int_max) /\
  ((exists d w', Open c nil_slice src w = Ret (d, Some ErrTooShort) w') <->
   len src < cs_KeySize 5) /\
  (len src < cs_KeySize 5 ->
   exists w', Open c nil_slice src w = Ret (nil_slice, Some ErrTooShort) w' /\
     w_calls w' = w_calls w /\ w_ciphers w' = w_ciphers w /\ w_heap w' = w_heap w).
Proof.
  cbv zeta. split.
  - repeat split; evaluated.
  - apply (Open_too_short_iff (MkCipher 0) nil_slice (Slice 1 0 1 1) (toy_world [[9]] 5) 5);
      evaluated.
Defined.

Lemma Open_empty_message_panics_witness :
  let c := MkCipher 0 in
  let src := Slice 1 0 2 2 in
  let w := toy_world [[77; 78]] 5 in
  (w_ciphers w !! CipherState_of c = Some 5 /\ 0 <= cs_KeySize 5 <= int_max /\
   (s_len src <= s_cap src)%nat /\ (s_len nil_slice <= s_cap nil_slice)%nat /\
   len nil_slice <= int_max /\ len src = cs_KeySize 5) /\
  Open c nil_slice src w = Panics IndexOutOfRange.
Proof.
  cbv zeta. split.
  - repeat split; evaluated.
  - apply (Open_empty_message_panics (MkCipher 0) nil_slice (Slice 1 0 2 2)
             (toy_world [[77; 78]] 5) 5); evaluated.
Defined.

Lemma Open_succeeds_iff_mac_zero_witness :
  let c := MkCipher 0 in
  let src := Slice 1 0 5 5 in
  let w := toy_world [[109; 113; 130; 86; 163]] 5 in
  let l := (s_len src - Z.to_nat (cs_KeySize 5%Z))%nat in
  let ctx := take l (sl_bytes (w_heap w) src) in
  let received := drop l (sl_bytes (w_heap w) src) in
  let recomputed := mac_of (snd (decrypt 5 ctx)) (length received) in
  let buffer := zip_with Z.lxor received recomputed in
  (w_ciphers w !! CipherState_of c = Some 5 /\
   sl_wf (w_heap w) nil_slice /\ sl_wf (w_heap w) src /\
   0 <= cs_KeySize 5 <= len src /\
   2 * (len nil_slice + len src + 1) <= int_max /\
   placed nil_slice src l) /\
  (cs_KeySize 5 < len src ->
   ((exists d w', Open c nil_slice src w = Ret (d, None) w') <->
    forallb (Z.eqb 0) buffer = true) /\
   (forallb (Z.eqb 0) buffer = true ->
    exists d w', Open c nil_slice src w = Ret (d, None) w' /\
      sl_bytes (w_heap w') d = sl_bytes (w_heap w) nil_slice ++ fst (decrypt 5 ctx)) /\
   (forallb (Z.eqb 0) buffer = false ->
    exists w', Open c nil_slice src w = Ret (nil_slice, Some ErrAuthFailed) w')) /\
  (len src = cs_KeySize 5 ->
   buffer = zip_with Z.lxor (sl_bytes (w_heap w) src) (mac_of (cs_boundary 5) (s_len src)) /\
   Open c nil_slice src w = Panics IndexOutOfRange).
Proof.
  cbv zeta. split.
  - repeat split; evaluated.
  - apply (Open_succeeds_iff_mac_zero (MkCipher 0) nil_slice (Slice 1 0 5 5)
             (toy_world [[109; 113; 130; 86; 163]] 5) 5); evaluated.
Defined.

Lemma Open_mac_check_constant_time_witness :
  let c := MkCipher 0 in
  let src := Slice 1 0 5 5 in
  let w1 := toy_world [[109; 113; 130; 86; 162]] 5 in
  let w2 := toy_world [[108; 113; 130; 86; 163]] 9 in
  let l := (s_len src - Z.to_nat (cs_KeySize 5%Z))%nat in
  (w_ciphers w1 !! CipherState_of c = Some 5 /\
   w_ciphers w2 !! CipherState_of c = Some 9 /\
   cs_KeySize 5 = cs_KeySize 9 /\
   sl_wf (w_heap w1) nil_slice /\ sl_wf (w_heap w1) src /\
   sl_wf (w_heap w2) nil_slice /\ sl_wf (w_heap w2) src /\
   0 <= cs_KeySize 5 < len src /\
   2 * (len nil_slice + len src + 1) <= int_max /\
   placed nil_slice src l) /\
  exists r1 w1' r2 w2' b1 b2,
    Open c nil_slice src w1 = Ret r1 w1' /\ Open c nil_slice src w2 = Ret r2 w2' /\
    let seen := open_branches nil_slice src l ++ replicate (Z.to_nat (cs_KeySize 5)) LoopIter in
    w_leak w1' = w_leak w1 ++ seen ++ [Branch b1] /\
    w_leak w2' = w_leak w2 ++ seen ++ [Branch b2] /\
    (b1 = true <-> snd r1 = Some ErrAuthFailed) /\
    (b2 = true <-> snd r2 = Some ErrAuthFailed).
Proof.
  cbv zeta. split.
  - repeat split; evaluated.
  - apply (Open_mac_check_constant_time (MkCipher 0) nil_slice (Slice 1 0 5 5)
             (toy_world [[109; 113; 130; 86; 162]] 5)
             (toy_world [[108; 113; 130; 86; 163]] 9) 5 9); evaluated.
Defined.

Lemma Seal_then_Open_witness :
  let c := MkCipher 0 in
  let src := Slice 1 0 3 3 in
  let w := toy_world [[104; 101; 108]] 5 in
  (w_ciphers w !! CipherState_of c = Some 5 /\ sl_wf (w_heap w) src /\
   0 < cs_KeySize 5 /\ 2 * (len src + cs_KeySize 5 + 1) <= int_max) /\
  (s_len src = 0%nat -> seal_then_open c src w = Panics IndexOutOfRange) /\
  ((0 < s_len src)%nat ->
   exists d w', seal_then_open c src w = Ret (d, None) w' /\
     sl_bytes (w_heap w') d = sl_bytes (w_heap w) src).
Proof.
  cbv zeta. split.
  - repeat split; evaluated.
  - apply (Seal_then_Open (MkCipher 0) (Slice 1 0 3 3) (toy_world [[104; 101; 108]] 5) 5);
      evaluated.
Defined.

(** The code at the failing input of C1 and C10: the empty message is
    sealed into two bytes, and opening them panics. *)
Example seal_then_open_empty :
  seal_then_open (MkCipher 0) (Slice 1 0 0 0) (toy_world [[]] 5) = Panics IndexOutOfRange.
Proof. vm_compute. reflexivity. Qed.

(** The code at the failing input of C3: in the two bytes [Seal] makes
    of the empty message the received MAC is the recomputed one, the
    buffer of the check would be all zero, and [Open] panics. *)
Example Open_sealed_empty_message :
  let src := Slice 1 0 2 2 in
  let w := toy_world [[106; 30]] 5 in
  sl_bytes (w_heap w) src = mac_of (cs_boundary 5) 2 /\
  forallb (Z.eqb 0) (mac_check 5 [] (sl_bytes (w_heap w) src)) = true /\
  Open (MkCipher 0) nil_slice src w = Panics IndexOutOfRange.
Proof. vm_compute. repeat split; reflexivity. Qed.

(** A destination in the array of the input, beside it: the plaintext
    goes to the three bytes after the sealed message. *)
Example Open_beside_the_input :
  let dst := Slice 1 5 0 3 in
  let src := Slice 1 0 5 5 in
  placed dst src 3 /\
  match Open (MkCipher 0) dst src (toy_world [[109; 113; 130; 86; 163; 0; 0; 0]] 5) with
  | Ret (d, e) w => (sl_bytes (w_heap w) d, e) = ([104; 101; 108], None)
  | Panics _ => False
  end.
Proof.
  split; [unfold placed; cbn; lia|]. vm_compute. reflexivity.
Qed.

Example seal_then_open_hello :
  match seal_then_open (MkCipher 0) (Slice 1 0 5 5) (toy_world [[104; 101; 108; 108; 111]] 5) with
  | Ret (d, e) w => (sl_bytes (w_heap w) d, e) = ([104; 101; 108; 108; 111], None)
  | Panics _ => False
  end.
Proof. vm_compute. reflexivity. Qed.

(** ** Streaming, hashing and the buffers of sealing and opening *)

Section Streaming.
Context {St : Type} `{CS : CipherState St}.

(** A pass in two parts is one pass. *)
Lemma transduce_app kd st xs ys ks ks' :
  length ks = length xs ->
  transduce kd st (xs ++ ys) (ks ++ ks') =
    let '(os, st1) := transduce kd st xs ks in
    let '(os', st2) := transduce kd st1 ys ks' in
    (os ++ os', st2).
Proof.
  revert st ks. induction xs as [|x xs IH]; intros st ks Hl.
  - destruct ks; [|done]. cbn. by destruct (transduce kd st ys ks').
  - destruct ks as [|k ks]; [done|]. cbn [app transduce hd tl].
    rewrite IH by (cbn in Hl; lia).
    destruct (transduce kd _ xs ks) as [os st1].
    by destruct (transduce kd st1 ys ks') as [os' st2].
Qed.

(** Without a key that is the destination, the state a pass ends in does
    not depend on the bytes encrypted. *)
Lemma transduce_state_indep st xs xs' ks :
  length xs = length xs' ->
  snd (transduce false st xs ks) = snd (transduce false st xs' ks).
Proof.
  revert st xs' ks. induction xs as [|x xs IH]; intros st xs' ks Hl.
  - by destruct xs'.
  - destruct xs' as [|x' xs']; [done|]. cbn [transduce].
    specialize (IH (cs_absorb st (hd 0 ks)) xs' (tl ks) ltac:(cbn in Hl; lia)).
    destruct (transduce false _ xs (tl ks)) as [os st1].
    by destruct (transduce false _ xs' (tl ks)) as [os' st2].
Qed.

Lemma Partial_spec (kd : bool) c dst src key (w : world St) st :
  w_ciphers w !! CipherState_of c = Some st ->
  sl_wf (w_heap w) dst ->
  (s_len src <= s_len dst)%nat -> (s_len key <= s_len dst)%nat ->
  (src = dst \/ apart dst src) ->
  (if kd then key = dst else apart dst key) ->
  invoke KPartial c dst src key w =
    let '(os, st') :=
      transduce kd st (map (sl_get (w_heap w) src) (seq 0 (s_len dst)))
                      (map (sl_get (w_heap w) key) (seq 0 (s_len dst))) in
    Ret tt (World (sl_splice (w_heap w) dst 0 os)
                  (<[CipherState_of c := st']> (w_ciphers w))
                  (w_calls w ++ [Call KPartial (CipherState_of c) dst src key])
                  (w_leak w)).
Proof.
  intros Hc Hwf Hs Hk Hsrc Hkey.
  unfold invoke. rewrite Hc.
  unfold state_Partial. rewrite max3_dst by done.
  rewrite (duplex_run kd) by (done || lia).
  destruct (transduce kd st _ _) as [os st']. done.
Qed.

(** A pass whose output is dropped leaves the arrays alone. *)
Lemma duplex_discard (dst src key : slice) n : forall i st h,
  s_len dst = 0%nat ->
  duplex n i dst src key st h =
    (snd (transduce false st (map (sl_get h src) (seq i n)) (map (sl_get h key) (seq i n))), h).
Proof.
  induction n as [|n IH]; intros i st h Hd; [done|].
  cbn [duplex seq map transduce hd tl].
  assert (Hset : forall v, sl_set h dst i v = h).
  { intros v. unfold sl_set. rewrite Hd. by destruct (i <? 0)%nat eqn:E. }
  rewrite Hset, IH by done.
  by destruct (transduce false _ _ _).
Qed.

(** What [Read] does: the bytes of [dst] become the next pseudorandom
    bytes. *)
Lemma Read_spec c dst (w : world St) st :
  w_ciphers w !! CipherState_of c = Some st ->
  sl_wf (w_heap w) dst ->
  let n := s_len dst in
  Read c dst w =
    Ret (len dst, None)
        (World (sl_splice (w_heap w) dst 0 (mac_of st n))
               (<[CipherState_of c := snd (transduce false st (replicate n 0) (replicate n 0))]>
                  (w_ciphers w))
               (w_calls w ++ [Call KPartial (CipherState_of c) dst nil_slice nil_slice])
               (w_leak w)).
Proof.
  intros Hc Hwf n. unfold Read, bind.
  rewrite (Partial_spec false c dst nil_slice nil_slice w st);
    [ | done | done | cbn; lia | cbn; lia | right; right; by left | right; by left].
  rewrite !reads_empty by done. fold n. unfold mac_of.
  by destruct (transduce false st (replicate n 0) (replicate n 0)).
Qed.

(** Filling the first [k] bytes of a slice and then the rest fills it. *)
Lemma splice_parts (h : heap) d k os1 os2 :
  sl_wf h d -> (k <= s_len d)%nat -> length os1 = k -> length os2 = (s_len d - k)%nat ->
  sl_splice (sl_splice h (Slice (s_buf d) (s_off d) k (s_cap d)) 0 os1)
            (Slice (s_buf d) (s_off d + k) (s_len d - k) (s_cap d - k)) 0 os2
  = sl_splice h d 0 (os1 ++ os2).
Proof.
  intros (Hb & Hlc & Hcap) Hk H1 H2. unfold sl_splice. cbn [s_buf s_off].
  rewrite array_of_insert_eq by done. rewrite list_insert_insert_eq. f_equal.
  set (arr := array_of h (s_buf d)) in *. rewrite !Nat.add_0_r.
  assert (Ht : length (take (s_off d) arr) = s_off d) by (rewrite length_take; lia).
  rewrite take_app_ge by lia. rewrite Ht.
  replace (s_off d + k - s_off d)%nat with (length os1) by lia.
  rewrite take_app_length. rewrite <- !app_assoc. do 2 f_equal.
  rewrite drop_app_ge by lia. rewrite Ht.
  rewrite drop_app_ge by lia.
  rewrite drop_drop, length_app. f_equal. f_equal. lia.
Qed.

(** X1. [Read] streams: reading the first [k] bytes of a buffer and then
    the rest leaves the same bytes in the buffer, and the cipher in the
    same state, as one read of the whole buffer. *)
Theorem Read_streams c d k (w : world St) st :
  w_ciphers w !! CipherState_of c = Some st ->
  sl_wf (w_heap w) d -> (k <= s_len d)%nat ->
  let d1 := Slice (s_buf d) (s_off d) k (s_cap d) in
  let d2 := Slice (s_buf d) (s_off d + k) (s_len d - k) (s_cap d - k) in
  exists w1 w2 w',
    Read c d1 w = Ret (Z.of_nat k, None) w1 /\
    Read c d2 w1 = Ret (Z.of_nat (s_len d - k), None) w2 /\
    Read c d w = Ret (len d, None) w' /\
    w_heap w2 = w_heap w' /\ w_ciphers w2 = w_ciphers w' /\
    sl_bytes (w_heap w') d = mac_of st (s_len d).
Proof.
  intros Hc Hwf Hk d1 d2.
  assert (Hwf1 : sl_wf (w_heap w) d1).
  { destruct Hwf as (A & B & C). unfold sl_wf, d1. cbn [s_buf s_off s_len s_cap]. lia. }
  pose proof (Read_spec c d1 w st Hc Hwf1) as R1. cbv zeta in R1.
  change (s_len d1) with k in R1. change (len d1) with (Z.of_nat k) in R1.
  set (st1 := snd (transduce false st (replicate k 0) (replicate k 0))) in *.
  set (w1 := World (sl_splice (w_heap w) d1 0 (mac_of st k))
                   (<[CipherState_of c := st1]> (w_ciphers w))
                   (w_calls w ++ [Call KPartial (CipherState_of c) d1 nil_slice nil_slice])
                   (w_leak w)) in *.
  assert (Hc1 : w_ciphers w1 !! CipherState_of c = Some st1).
  { unfold w1. cbn [w_ciphers]. apply list_lookup_insert_eq. by eapply lookup_lt_Some. }
  assert (Hwf2 : sl_wf (w_heap w1) d2).
  { unfold w1. cbn [w_heap]. apply sl_wf_splice; [done | by rewrite mac_of_length |].
    destruct Hwf as (A & B & C). unfold sl_wf, d2. cbn [s_buf s_off s_len s_cap]. lia. }
  pose proof (Read_spec c d2 w1 st1 Hc1 Hwf2) as R2. cbv zeta in R2.
  change (s_len d2) with (s_len d - k)%nat in R2.
  change (len d2) with (Z.of_nat (s_len d - k)) in R2.
  pose proof (Read_spec c d w st Hc Hwf) as R. cbv zeta in R.
  assert (Hsplit : transduce false st (replicate (s_len d) 0) (replicate (s_len d) 0) =
            (mac_of st k ++ mac_of st1 (s_len d - k),
             snd (transduce false st1 (replicate (s_len d - k) 0) (replicate (s_len d - k) 0)))).
  { replace (s_len d) with (k + (s_len d - k))%nat at 1 2 by lia.
    rewrite replicate_add, transduce_app by (by rewrite !length_replicate).
    unfold mac_of, st1.
    destruct (transduce false st (replicate k 0) (replicate k 0)) as [os s1]. cbn [fst snd].
    by destruct (transduce false s1 _ _). }
  eexists _, _, _. split; [exact R1|]. split; [exact R2|]. split; [exact R|].
  cbn [w_heap w_ciphers]. unfold w1. cbn [w_heap w_ciphers].
  split; [|split].
  - unfold mac_of at 3. rewrite Hsplit. cbn [fst].
    apply splice_parts; [done | done | by rewrite mac_of_length | by rewrite mac_of_length].
  - rewrite list_insert_insert_eq. by rewrite Hsplit.
  - apply sl_bytes_splice_self; [done | by rewrite mac_of_length].
Qed.

Lemma Write_spec c key (w : world St) st :
  w_ciphers w !! CipherState_of c = Some st ->
  sl_wf (w_heap w) key ->
  let n := s_len key in
  Write c key w =
    Ret (len key, None)
        (World (w_heap w)
               (<[CipherState_of c :=
                    snd (transduce false st (replicate n 0) (sl_bytes (w_heap w) key))]>
                  (w_ciphers w))
               (w_calls w ++ [Call KPartial (CipherState_of c) nil_slice nil_slice key])
               (w_leak w)).
Proof.
  intros Hc Hwf n. unfold Write, bind, invoke. rewrite Hc.
  unfold state_Partial. rewrite duplex_discard by done.
  change (max3 (s_len nil_slice) (s_len nil_slice) (s_len key)) with n.
  by rewrite reads_empty, reads_wf.
Qed.

Lemma sl_bytes_parts (h : heap) s k :
  (k <= s_len s)%nat ->
  sl_bytes h (Slice (s_buf s) (s_off s) k (s_cap s)) ++
  sl_bytes h (Slice (s_buf s) (s_off s + k) (s_len s - k) (s_cap s - k)) = sl_bytes h s.
Proof.
  intros Hk. unfold sl_bytes. cbn [s_buf s_off s_len].
  set (a := drop (s_off s) (array_of h (s_buf s))).
  rewrite <- drop_drop. fold a.
  rewrite <- (take_drop k (take (s_len s) a)).
  rewrite take_take, Nat.min_l by lia. f_equal.
  by rewrite take_drop_commute, Nat.add_comm, Nat.sub_add.
Qed.

(** X2. [Write] absorbs the bytes written and touches no array; it
    reports all of them written, with no error; and writing the first
    [k] bytes of a key and then the rest leaves the cipher in the same
    state as writing the key at once. *)
Theorem Write_absorbs c key k (w : world St) st :
  w_ciphers w !! CipherState_of c = Some st ->
  sl_wf (w_heap w) key -> (k <= s_len key)%nat ->
  let k1 := Slice (s_buf key) (s_off key) k (s_cap key) in
  let k2 := Slice (s_buf key) (s_off key + k) (s_len key - k) (s_cap key - k) in
  exists w1 w2 w',
    Write c key w = Ret (len key, None) w' /\
    w_heap w' = w_heap w /\
    w_ciphers w' =
      <[CipherState_of c :=
          snd (transduce false st (replicate (s_len key) 0) (sl_bytes (w_heap w) key))]>
        (w_ciphers w) /\
    Write c k1 w = Ret (Z.of_nat k, None) w1 /\
    Write c k2 w1 = Ret (Z.of_nat (s_len key - k), None) w2 /\
    w_heap w2 = w_heap w /\ w_ciphers w2 = w_ciphers w'.
Proof.
  intros Hc Hwf Hk k1 k2.
  assert (Hwf1 : sl_wf (w_heap w) k1).
  { destruct Hwf as (A & B & C). unfold sl_wf, k1. cbn [s_buf s_off s_len s_cap]. lia. }
  assert (Hwf2 : sl_wf (w_heap w) k2).
  { destruct Hwf as (A & B & C). unfold sl_wf, k2. cbn [s_buf s_off s_len s_cap]. lia. }
  pose proof (Write_spec c key w st Hc Hwf) as R. cbv zeta in R.
  pose proof (Write_spec c k1 w st Hc Hwf1) as R1. cbv zeta in R1.
  change (s_len k1) with k in R1. change (len k1) with (Z.of_nat k) in R1.
  set (st1 := snd (transduce false st (replicate k 0) (sl_bytes (w_heap w) k1))) in *.
  set (w1 := World (w_heap w) (<[CipherState_of c := st1]> (w_ciphers w))
                   (w_calls w ++ [Call KPartial (CipherState_of c) nil_slice nil_slice k1])
                   (w_leak w)) in *.
  assert (Hc1 : w_ciphers w1 !! CipherState_of c = Some st1).
  { unfold w1. cbn [w_ciphers]. apply list_lookup_insert_eq. by eapply lookup_lt_Some. }
  pose proof (Write_spec c k2 w1 st1 Hc1 Hwf2) as R2. cbv zeta in R2.
  change (s_len k2) with (s_len key - k)%nat in R2.
  change (len k2) with (Z.of_nat (s_len key - k)) in R2.
  eexists _, _, _. split; [exact R|]. split; [done|]. split; [done|].
  split; [exact R1|]. split; [exact R2|]. split; [done|].
  cbn [w_ciphers w_heap]. unfold w1. cbn [w_ciphers w_heap].
  rewrite list_insert_insert_eq. f_equal.
  rewrite <- (sl_bytes_parts (w_heap w) key k Hk). fold k1 k2.
  assert (Hl1 : length (sl_bytes (w_heap w) k1) = k) by (by apply sl_bytes_length).
  unfold st1. set (B1 := sl_bytes (w_heap w) k1) in *. set (B2 := sl_bytes (w_heap w) k2).
  set (m := (s_len key - k)%nat).
  assert (s_len key = (k + m)%nat) as -> by (unfold m; lia).
  rewrite replicate_add, transduce_app by (by rewrite length_replicate).
  destruct (transduce false st (replicate k 0) B1) as [os s1]. cbn [snd].
  by destruct (transduce false s1 _ _).
Qed.

Lemma XORKeyStream_spec c dst src (w : world St) st :
  w_ciphers w !! CipherState_of c = Some st ->
  sl_wf (w_heap w) dst -> sl_wf (w_heap w) src ->
  (s_len src <= s_cap dst)%nat -> s_buf dst <> s_buf src ->
  let n := s_len src in
  let d := Slice (s_buf dst) (s_off dst) n (s_cap dst) in
  XORKeyStream c dst src w =
    Ret tt
        (World (sl_splice (w_heap w) d 0 (zip_with Z.lxor (sl_bytes (w_heap w) src) (mac_of st n)))
               (<[CipherState_of c := snd (transduce false st (replicate n 0) (replicate n 0))]>
                  (w_ciphers w))
               (w_calls w ++ [Call KPartial (CipherState_of c) d src nil_slice])
               (w_leak w)).
Proof.
  intros Hc Hdst Hsrc Hcap Hbuf n d. unfold XORKeyStream.
  rewrite (bind_ret _ _ _ _ _ (reslice_ok dst 0 (len src) w ltac:(lia) ltac:(unfold len; lia)
                                 ltac:(unfold len; lia))).
  rewrite Z.sub_0_r. change (Z.to_nat 0) with 0%nat. rewrite Nat.add_0_r, Nat.sub_0_r.
  unfold len. rewrite Nat2Z.id. fold n d.
  assert (Hd : sl_wf (w_heap w) d).
  { destruct Hdst as (A & B & C). unfold sl_wf, d. cbn [s_buf s_off s_len s_cap]. lia. }
  rewrite (Partial_spec false c d src nil_slice w st);
    [ | done | done | cbn [s_len d]; lia | cbn; lia | right; left; cbn [s_buf d]; congruence
      | right; by left ].
  change (s_len d) with n.
  rewrite reads_wf, reads_empty by done.
  assert (Hn : length (sl_bytes (w_heap w) src) = n) by (by apply sl_bytes_length).
  pose proof (transduce_xor_mac st (sl_bytes (w_heap w) src)) as Hx.
  pose proof (transduce_state_indep st (sl_bytes (w_heap w) src) (replicate n 0) (replicate n 0)
                ltac:(by rewrite length_replicate)) as Hs.
  rewrite Hn in Hx.
  destruct (transduce false st (sl_bytes (w_heap w) src) (replicate n 0)) as [os st'].
  cbn [fst snd] in Hx, Hs. by rewrite Hx, Hs.
Qed.

Lemma lxor_twice (xs ks : list Z) :
  (length xs <= length ks)%nat ->
  zip_with Z.lxor (zip_with Z.lxor xs ks) ks = xs.
Proof.
  revert ks. induction xs as [|x xs IH]; intros [|k ks] Hl; cbn in *; try done; [lia|].
  rewrite IH by lia. by rewrite Z.lxor_assoc, Z.lxor_nilpotent, Z.lxor_0_r.
Qed.

(** X3. [XORKeyStream] panics exactly when [src] is longer than the
    capacity of [dst]: a [dst] that is shorter than [src] but has the
    capacity is extended, not refused. *)
Theorem XORKeyStream_panics_iff c dst src (w : world St) st :
  w_ciphers w !! CipherState_of c = Some st ->
  ((exists p, XORKeyStream c dst src w = Panics p) <-> (s_cap dst < s_len src)%nat) /\
  ((s_cap dst < s_len src)%nat -> XORKeyStream c dst src w = Panics SliceBoundsOutOfRange).
Proof.
  intros Hc. unfold XORKeyStream, bind, reslice, len.
  destruct (Z.leb_spec (Z.of_nat (s_len src)) (Z.of_nat (s_cap dst))) as [Hle|Hgt].
  - replace ((0 <=? 0) && (0 <=? Z.of_nat (s_len src))) with true
      by (symmetry; apply andb_true_iff; split; apply Z.leb_le; lia).
    cbn [andb]. unfold ret, invoke. rewrite Hc.
    destruct (state_Partial _ _ _ _ _). split; [|lia]. split; [by intros [p [=]]|lia].
  - rewrite andb_false_r. split; [|done]. split; [lia|]. intros _. by eexists.
Qed.

(** X4. [XORKeyStream] is a stream cipher: the output is [src] XOR a key
    stream that depends on the state only, so running it again from the
    same state on the output gives [src] back. *)
Theorem XORKeyStream_twice c c2 src mid out (w : world St) st :
  w_ciphers w !! CipherState_of c = Some st ->
  w_ciphers w !! CipherState_of c2 = Some st ->
  CipherState_of c <> CipherState_of c2 ->
  sl_wf (w_heap w) src -> sl_wf (w_heap w) mid -> sl_wf (w_heap w) out ->
  s_len mid = s_len src -> s_len out = s_len src ->
  s_buf mid <> s_buf src -> s_buf out <> s_buf mid ->
  exists w1 w2,
    XORKeyStream c mid src w = Ret tt w1 /\
    sl_bytes (w_heap w1) mid =
      zip_with Z.lxor (sl_bytes (w_heap w) src) (mac_of st (s_len src)) /\
    XORKeyStream c2 out mid w1 = Ret tt w2 /\
    sl_bytes (w_heap w2) out = sl_bytes (w_heap w) src.
Proof.
  intros Hc Hc2 Hne Hsrc Hmid Hout Lm Lo Bm Bo.
  set (n := s_len src) in *.
  assert (Hn : length (sl_bytes (w_heap w) src) = n) by (by apply sl_bytes_length).
  assert (Em : Slice (s_buf mid) (s_off mid) n (s_cap mid) = mid) by (destruct mid; cbn in *; by subst).
  assert (Eo : Slice (s_buf out) (s_off out) n (s_cap out) = out) by (destruct out; cbn in *; by subst).
  pose proof (XORKeyStream_spec c mid src w st Hc Hmid Hsrc
                ltac:(destruct Hmid as (_ & ? & _); lia) Bm) as R1.
  cbv zeta in R1. fold n in R1. rewrite Em in R1.
  set (K := mac_of st n) in *.
  set (ctx := zip_with Z.lxor (sl_bytes (w_heap w) src) K) in *.
  assert (Lc : length ctx = s_len mid).
  { unfold ctx, K. rewrite length_zip_with, mac_of_length. lia. }
  set (w1 := World (sl_splice (w_heap w) mid 0 ctx) _ _ _) in R1.
  assert (Hmid1 : sl_wf (w_heap w1) mid) by (by apply sl_wf_splice).
  assert (Hout1 : sl_wf (w_heap w1) out) by (by apply sl_wf_splice).
  assert (Bmid1 : sl_bytes (w_heap w1) mid = ctx) by (by apply sl_bytes_splice_self).
  assert (Hc21 : w_ciphers w1 !! CipherState_of c2 = Some st).
  { unfold w1. cbn [w_ciphers]. by rewrite list_lookup_insert_ne. }
  pose proof (XORKeyStream_spec c2 out mid w1 st Hc21 Hout1 Hmid1
                ltac:(destruct Hout as (_ & ? & _); lia) Bo) as R2.
  cbv zeta in R2. rewrite Lm in R2. fold n in R2. rewrite Eo in R2. fold K in R2.
  rewrite Bmid1 in R2.
  eexists _, _. split; [exact R1|]. split; [exact Bmid1|]. split; [exact R2|].
  cbn [w_heap]. rewrite sl_bytes_splice_self;
    [ | done | rewrite length_zip_with, Lc; unfold K; rewrite mac_of_length; lia ].
  unfold ctx. apply lxor_twice. unfold K. rewrite mac_of_length. lia.
Qed.

Lemma EndMessage_run c (w : world St) st :
  w_ciphers w !! CipherState_of c = Some st ->
  EndMessage c w =
    Ret tt (World (w_heap w) (<[CipherState_of c := cs_boundary st]> (w_ciphers w))
                  (w_calls w ++ [Call KMessage (CipherState_of c) nil_slice nil_slice nil_slice])
                  (w_leak w)).
Proof. intros Hc. unfold EndMessage, invoke. by rewrite Hc. Qed.

(** X5. [Sum] ends the message in progress and appends [HashSize()]
    bytes squeezed from the state after that boundary to [dst], whose old
    bytes are kept; the state moves on, past a second boundary, and no
    other cipher is touched. *)
Theorem Sum_appends c dst (w : world St) st :
  w_ciphers w !! CipherState_of c = Some st ->
  sl_wf (w_heap w) dst ->
  let st0 := cs_boundary st in
  0 <= cs_HashSize st0 ->
  2 * (len dst + cs_HashSize st0 + 1) <= int_max ->
  let n := Z.to_nat (cs_HashSize st0) in
  exists d w',
    Sum c dst w = Ret d w' /\
    sl_wf (w_heap w') d /\
    s_len d = (s_len dst + n)%nat /\
    sl_bytes (w_heap w') d = sl_bytes (w_heap w) dst ++ mac_of st0 n /\
    w_ciphers w' !! CipherState_of c =
      Some (cs_boundary (snd (transduce false st0 (replicate n 0) (replicate n 0)))) /\
    (forall i, i <> CipherState_of c -> w_ciphers w' !! i = w_ciphers w !! i).
Proof.
  intros Hc Hdst st0 Hh Hmax n.
  assert (Hlt : (CipherState_of c < length (w_ciphers w))%nat) by (by eapply lookup_lt_Some).
  unfold Sum.
  rewrite (bind_ret _ _ _ _ _ (EndMessage_run c w st Hc)). fold st0.
  set (w0 := World (w_heap w) (<[CipherState_of c := st0]> (w_ciphers w)) _ (w_leak w)).
  assert (Hc0 : w_ciphers w0 !! CipherState_of c = Some st0).
  { unfold w0. cbn [w_ciphers]. by apply list_lookup_insert_eq. }
  assert (HH : HashSize c w0 = Ret (cs_HashSize st0) w0) by (unfold HashSize; by rewrite Hc0).
  rewrite (bind_ret _ _ _ _ _ HH).
  destruct (Grow_spec dst (cs_HashSize st0) w0) as (whole & hash & h1 & HG & G);
    [done | done | done |].
  fold n in G. unfold bind at 1. rewrite HG. clear HG.
  destruct G as [Gold Glen Gwhole Gregion Gbuf Goff Gn Gtotal Gprefix Gwhere Gfresh _].
  change (w_heap w0) with (w_heap w) in *.
  unfold bind at 1.
  rewrite (Message_spec false) with (st := st0);
    [ | exact Hc0 | exact Gregion | cbn; lia | cbn; lia | right; right; by left | right; by left ].
  cbn [w_heap w_ciphers w_calls w_leak].
  rewrite !reads_empty by done. rewrite Gn.
  pose proof (mac_of_length st0 n) as Hml. unfold mac_of in Hml |- *.
  destruct (transduce false st0 (replicate n 0) (replicate n 0)) as [ms st2].
  cbn [fst snd] in *. unfold ret.
  exists whole. eexists. split; [reflexivity|]. cbn [w_heap w_ciphers].
  split; [apply sl_wf_splice; [done | lia | done]|].
  split; [done|]. split; [|split].
  - rewrite sl_bytes_splice_extend; [ | done | lia | done | lia | lia ].
    f_equal. rewrite Gbuf, Goff, <- Gprefix. f_equal. lia.
  - unfold w0. cbn [w_ciphers]. apply list_lookup_insert_eq. by rewrite length_insert.
  - intros i Hi. unfold w0. cbn [w_ciphers]. by rewrite !list_lookup_insert_ne.
Qed.

(** X6. [Seal] appends to [dst] the ciphertext, as long as the message,
    and then a MAC of [KeySize()] bytes; the bytes [dst] had are kept, and
    no other cipher is touched. *)
Theorem Seal_appends c dst src (w : world St) st :
  w_ciphers w !! CipherState_of c = Some st ->
  sl_wf (w_heap w) dst -> sl_wf (w_heap w) src ->
  0 <= cs_KeySize st ->
  2 * (len dst + len src + cs_KeySize st + 1) <= int_max ->
  s_buf dst <> s_buf src ->
  let m := Z.to_nat (cs_KeySize st) in
  let msg := sl_bytes (w_heap w) src in
  let ctx := fst (encrypt st msg) in
  let mac := mac_of (snd (encrypt st msg)) m in
  exists d w',
    Seal c dst src w = Ret d w' /\
    len d = len dst + len src + cs_KeySize st /\
    sl_bytes (w_heap w') d = sl_bytes (w_heap w) dst ++ ctx ++ mac /\
    length ctx = s_len src /\ length mac = m /\
    (forall i, i <> CipherState_of c -> w_ciphers w' !! i = w_ciphers w !! i).
Proof.
  intros Hc Hdst Hsrc Hm Hmax Hbuf m msg ctx mac.
  destruct (Seal_spec c dst src w st Hc Hdst Hsrc Hm Hmax (or_introl Hbuf))
    as (d & w' & H1 & _ & H3 & H4 & _ & _ & _ & H8).
  exists d, w'. split; [done|]. split; [unfold len; lia|]. split; [done|].
  split; [|split; [|done]].
  - unfold ctx. rewrite encrypt_length. by apply sl_bytes_length.
  - apply mac_of_length.
Qed.

(** X7. With the ciphertext that [Seal] makes of a message, [Open] on a
    cipher in the state [Seal] started from accepts one MAC only, the one
    [Seal] appends: any other [KeySize()] bytes in its place are
    refused. *)
Theorem Open_accepts_only_the_MAC c dst src (w : world St) st msg mac :
  w_ciphers w !! CipherState_of c = Some st ->
  sl_wf (w_heap w) dst -> sl_wf (w_heap w) src ->
  0 <= cs_KeySize st -> msg <> [] ->
  2 * (len dst + len src + 1) <= int_max ->
  sl_bytes (w_heap w) src = fst (encrypt st msg) ++ mac ->
  length mac = Z.to_nat (cs_KeySize st) ->
  placed dst src (length msg) ->
  (exists d w', Open c dst src w = Ret (d, None) w') <->
  mac = mac_of (snd (encrypt st msg)) (Z.to_nat (cs_KeySize st)).
Proof.
  intros Hc Hdst Hsrc Hm Hmsg Hmax Hb Hl Hpl.
  assert (Hsl : length (sl_bytes (w_heap w) src) = s_len src) by (by apply sl_bytes_length).
  rewrite Hb, length_app, encrypt_length, Hl in Hsl.
  assert (0 < length msg)%nat by (destruct msg; [done|cbn; lia]).
  assert (Hlen : (s_len src - Z.to_nat (cs_KeySize st))%nat = length msg) by lia.
  assert (Hk : 0 <= cs_KeySize st < len src) by (unfold len; lia).
  assert (Hpl' : placed dst src (s_len src - Z.to_nat (cs_KeySize st))) by (by rewrite Hlen).
  destruct (Open_placed c dst src w st Hc Hdst Hsrc Hk Hmax Hpl') as (d & w' & H1 & _ & _).
  rewrite Hlen, Hb in H1.
  rewrite take_app_length', drop_app_length' in H1 by (by rewrite encrypt_length).
  unfold mac_check in H1. rewrite decrypt_encrypt in H1. cbn [snd] in H1.
  rewrite Hl in H1.
  set (K := mac_of (snd (encrypt st msg)) (Z.to_nat (cs_KeySize st))) in *.
  pose proof (xor_zero_eq mac K ltac:(unfold K; by rewrite mac_of_length)) as Hz.
  destruct (forallb (Z.eqb 0) (zip_with Z.lxor mac K)) eqn:E.
  - split; [intros _; by apply Hz|]. intros _. by exists d, w'.
  - split.
    + intros (d' & w'' & H'). rewrite H' in H1. discriminate H1.
    + intros HK. apply Hz in HK. congruence.
Qed.

Lemma zeros_replicate (bs : list Z) :
  forallb (Z.eqb 0) bs = true -> bs = replicate (length bs) 0.
Proof.
  induction bs as [|b bs IH]; cbn [forallb length replicate]; [done|].
  intros [Hb Hbs]%andb_true_iff. apply Z.eqb_eq in Hb as <-. f_equal. by apply IH.
Qed.

(** X8. [Open] works on its input in place: when the plaintext goes to
    another array, the ciphertext part of [src] is left as it is, and the
    MAC part is overwritten with the received MAC XOR the recomputed one;
    after a successful call the last [KeySize()] bytes of [src] are
    zero. *)
Theorem Open_overwrites_the_MAC c dst src (w : world St) st :
  w_ciphers w !! CipherState_of c = Some st ->
  sl_wf (w_heap w) dst -> sl_wf (w_heap w) src ->
  0 <= cs_KeySize st < len src ->
  2 * (len dst + len src + 1) <= int_max ->
  let l := (s_len src - Z.to_nat (cs_KeySize st))%nat in
  (s_buf dst <> s_buf src \/ (s_cap dst < s_len dst + l)%nat) ->
  let ctx := take l (sl_bytes (w_heap w) src) in
  let rmac := drop l (sl_bytes (w_heap w) src) in
  exists r w',
    Open c dst src w = Ret r w' /\
    sl_bytes (w_heap w') src = ctx ++ mac_check st ctx rmac /\
    (snd r = None ->
     sl_bytes (w_heap w') src = ctx ++ replicate (Z.to_nat (cs_KeySize st)) 0).
Proof.
  intros Hc Hdst Hsrc Hm Hmax l Hbuf ctx rmac.
  set (h := w_heap w) in *.
  set (m := cs_KeySize st) in *.
  assert (Hl : Z.of_nat l = len src - m) by (unfold len in *; lia).
  assert (Hsl : length (sl_bytes h src) = s_len src) by (by apply sl_bytes_length).
  destruct Hsrc as (Hsb & Hsle & Hsc).
  unfold Open.
  rewrite (bind_ret _ _ _ _ _ (KeySize_run _ _ _ Hc)). fold m.
  rewrite int_sub_id by (unfold len, int_max in *; lia).
  rewrite <- Hl.
  assert ((Z.of_nat l <? 0) = false) as -> by (apply Z.ltb_ge; lia).
  unfold bind at 1. unfold branch at 1. cbn [w_heap w_ciphers w_calls w_leak].
  unfold bind at 1. rewrite reslice_ok by (unfold len in *; lia).
  unfold bind at 1. rewrite reslice_ok by (unfold len in *; lia).
  rewrite Z.sub_0_r, Nat2Z.id. change (Z.to_nat 0) with 0%nat.
  rewrite Nat.add_0_r, Nat.sub_0_r.
  replace (Z.to_nat (len src - Z.of_nat l)) with (Z.to_nat m) by lia.
  set (sctx := Slice (s_buf src) (s_off src) l (s_cap src)).
  set (smac := Slice (s_buf src) (s_off src + l) (Z.to_nat m) (s_cap src - l)).
  set (w0 := World h (w_ciphers w) (w_calls w) (w_leak w ++ [Branch false])).
  destruct (Grow_spec dst (Z.of_nat l) w0) as (whole & msg & h1 & HG & G);
    [done | lia | unfold len in *; lia |].
  rewrite Nat2Z.id in G.
  unfold bind at 1. fold h. fold w0. rewrite HG. clear HG.
  unfold w0 in *. clear w0. cbn [w_heap w_ciphers w_calls w_leak] in *.
  destruct G as [Gold Glen Gwhole Gregion Gbuf Goff Gn Gtotal Gprefix Gwhere Gfresh _].
  assert (Hmb : s_buf msg <> s_buf src).
  { rewrite Gbuf. destruct Hbuf as [Hbuf|Hbuf].
    - destruct Gwhere as [[E _] | E]; rewrite E; [done | lia].
    - rewrite Gfresh by done. lia. }
  assert (Harr1 : array_of h1 (s_buf src) = array_of h (s_buf src)) by (by apply Gold).
  unfold bind at 1. rewrite addr_run by lia.
  unfold bind at 1. rewrite addr_run by (unfold sctx; cbn [s_len]; lia).
  unfold sctx at 1 2. cbn [s_buf s_off].
  assert (addr_eqb (s_buf msg, (s_off msg + 0)%nat) (s_buf src, (s_off src + 0)%nat) = false) as ->.
  { unfold addr_eqb. cbn [fst snd]. apply andb_false_iff. left. by apply Nat.eqb_neq. }
  cbn [negb].
  unfold bind at 1. unfold branch at 1. cbn [w_heap w_ciphers w_calls w_leak].
  (* decrypt *)
  assert (Hctxwf : sl_wf h1 sctx).
  { unfold sl_wf, sctx. cbn [s_buf s_off s_len s_cap]. rewrite Harr1. lia. }
  assert (Hctxb : sl_bytes h1 sctx = ctx).
  { unfold sl_bytes at 1. unfold sctx. cbn [s_buf s_off s_len s_cap]. rewrite Harr1.
    replace (s_off src) with (s_off src + 0)%nat at 1 by lia.
    rewrite sub_slice_bytes by lia. by rewrite drop_0. }
  unfold bind at 1.
  rewrite (Message_spec false) with (st := st);
    [ | done | done | unfold sctx; cbn [s_len]; lia | unfold sctx; cbn [s_len]; lia
      | right; left; unfold sctx; cbn [s_buf]; congruence
      | left; unfold sctx; cbn [s_buf]; congruence ].
  cbn [w_heap w_ciphers w_calls w_leak].
  rewrite Gn. change l with (s_len sctx) at 1 2.
  rewrite reads_wf by done. rewrite Hctxb.
  pose proof (transduce_length false st ctx ctx) as Hosl.
  destruct (transduce false st ctx ctx) as [os st1] eqn:Etr. cbn [fst] in Hosl.
  assert (Hctxl : length ctx = l).
  { unfold ctx. rewrite length_take. lia. }
  set (h2 := sl_splice h1 msg 0 os).
  assert (Harr2 : array_of h2 (s_buf src) = array_of h (s_buf src)).
  { unfold h2. rewrite splice_array_ne by done. done. }
  (* the MAC *)
  assert (Hmacwf : sl_wf h2 smac).
  { unfold sl_wf, smac. cbn [s_buf s_off s_len s_cap]. rewrite Harr2.
    unfold h2. rewrite splice_length. lia. }
  assert (Hmacb : sl_bytes h2 smac = rmac).
  { unfold sl_bytes at 1. unfold smac. cbn [s_buf s_off s_len s_cap]. rewrite Harr2.
    rewrite sub_slice_bytes by lia.
    unfold rmac. apply take_ge. rewrite length_drop. lia. }
  unfold bind at 1.
  rewrite (Message_spec false) with (st := cs_boundary st1);
    [ | cbn [w_ciphers]; apply list_lookup_insert_eq; by eapply lookup_lt_Some
      | done | done | unfold nil_slice; cbn [s_len]; lia | left; done | right; left; done ].
  cbn [w_heap w_ciphers w_calls w_leak].
  change (Z.to_nat m) with (s_len smac) at 1.
  rewrite reads_wf by done. rewrite Hmacb.
  rewrite reads_empty by done.
  assert (Hrl : length rmac = Z.to_nat m).
  { unfold rmac. rewrite length_drop. lia. }
  replace (s_len smac) with (length rmac) by (rewrite Hrl; reflexivity).
  pose proof (transduce_xor_mac (cs_boundary st1) rmac) as Hx.
  pose proof (transduce_length false (cs_boundary st1) rmac (replicate (length rmac) 0)) as Hxl.
  destruct (transduce false (cs_boundary st1) rmac _) as [xs st2]. cbn [fst] in Hx, Hxl.
  assert (Hxs : xs = mac_check st ctx rmac).
  { unfold mac_check, decrypt. rewrite Etr. done. }
  unfold bind at 1. rewrite ConstantTimeAllEq_run.
  cbn [w_heap w_ciphers w_calls w_leak].
  rewrite sl_bytes_splice_self; [|done|unfold smac; cbn [s_len]; lia].
  rewrite Hxl, Hrl.
  unfold bind at 1. unfold branch at 1. cbn [w_heap w_ciphers w_calls w_leak].
  rewrite Hxs. set (ok' := forallb _ (mac_check st ctx rmac)).
  assert (Hv : ((if ok' then 1 else 0) =? 0) = negb ok') by (by destruct ok').
  rewrite Hv.
  assert (Hsrc3 : sl_bytes (sl_splice h2 smac 0 (mac_check st ctx rmac)) src =
                  ctx ++ mac_check st ctx rmac).
  { rewrite sl_bytes_splice_extend;
      [ | done | rewrite <- Hxs; unfold smac; cbn [s_len]; lia | done
        | unfold smac; cbn [s_off]; lia | unfold smac; cbn [s_off s_len]; lia ].
    f_equal. unfold smac. cbn [s_buf s_off]. rewrite Harr2.
    replace (s_off src + l - s_off src)%nat with l by lia.
    unfold ctx, sl_bytes. rewrite take_take. f_equal. lia. }
  eexists. eexists. split; [|split].
  - rewrite if_negb_ret. reflexivity.
  - exact Hsrc3.
  - cbn [w_heap]. rewrite Hsrc3. intros Hok. f_equal.
    destruct ok' eqn:E; [|discriminate Hok].
    rewrite (zeros_replicate _ E). f_equal. rewrite <- Hxs. lia.
Qed.

End Streaming.

Lemma Read_streams_witness :
  let c := MkCipher 0 in
  let d := Slice 1 0 4 4 in
  let w := toy_world [[0; 0; 0; 0]] 5 in
  let d1 := Slice 1 0 1 4 in
  let d2 := Slice 1 1 3 3 in
  (w_ciphers w !! CipherState_of c = Some 5 /\ sl_wf (w_heap w) d /\ (1 <= s_len d)%nat) /\
  exists w1 w2 w',
    Read c d1 w = Ret (1, None) w1 /\
    Read c d2 w1 = Ret (3, None) w2 /\
    Read c d w = Ret (len d, None) w' /\
    w_heap w2 = w_heap w' /\ w_ciphers w2 = w_ciphers w' /\
    sl_bytes (w_heap w') d = mac_of 5 4.
Proof.
  cbv zeta. split.
  - repeat split; evaluated.
  - apply (Read_streams (MkCipher 0) (Slice 1 0 4 4) 1 (toy_world [[0; 0; 0; 0]] 5) 5); evaluated.
Defined.

Lemma Write_absorbs_witness :
  let c := MkCipher 0 in
  let key := Slice 1 0 3 3 in
  let w := toy_world [[1; 2; 3]] 5 in
  (w_ciphers w !! CipherState_of c = Some 5 /\ sl_wf (w_heap w) key /\ (1 <= s_len key)%nat) /\
  exists w1 w2 w',
    Write c key w = Ret (len key, None) w' /\
    w_heap w' = w_heap w /\
    w_ciphers w' =
      <[CipherState_of c := snd (transduce false 5 (replicate 3 0) (sl_bytes (w_heap w) key))]>
        (w_ciphers w) /\
    Write c (Slice 1 0 1 3) w = Ret (1, None) w1 /\
    Write c (Slice 1 1 2 2) w1 = Ret (2, None) w2 /\
    w_heap w2 = w_heap w /\ w_ciphers w2 = w_ciphers w'.
Proof.
  cbv zeta. split.
  - repeat split; evaluated.
  - apply (Write_absorbs (MkCipher 0) (Slice 1 0 3 3) 1 (toy_world [[1; 2; 3]] 5) 5); evaluated.
Defined.

Lemma XORKeyStream_panics_iff_witness :
  let c := MkCipher 0 in
  let dst := Slice 1 0 1 1 in
  let src := Slice 2 0 2 2 in
  let w := toy_world [[0]; [1; 2]] 5 in
  w_ciphers w !! CipherState_of c = Some 5 /\
  ((exists p, XORKeyStream c dst src w = Panics p) <-> (s_cap dst < s_len src)%nat) /\
  ((s_cap dst < s_len src)%nat -> XORKeyStream c dst src w = Panics SliceBoundsOutOfRange).
Proof.
  cbv zeta. split.
  - evaluated.
  - apply (XORKeyStream_panics_iff (MkCipher 0) (Slice 1 0 1 1) (Slice 2 0 2 2)
             (toy_world [[0]; [1; 2]] 5) 5); evaluated.
Defined.

Lemma XORKeyStream_twice_witness :
  let c := MkCipher 0 in
  let c2 := MkCipher 1 in
  let src := Slice 1 0 2 2 in
  let mid := Slice 2 0 2 2 in
  let out := Slice 3 0 2 2 in
  let w := World (heap0 ++ [[7; 9]; [0; 0]; [0; 0]]) [5; 5] [] [] in
  (w_ciphers w !! CipherState_of c = Some 5 /\ w_ciphers w !! CipherState_of c2 = Some 5 /\
   CipherState_of c <> CipherState_of c2 /\
   sl_wf (w_heap w) src /\ sl_wf (w_heap w) mid /\ sl_wf (w_heap w) out /\
   s_len mid = s_len src /\ s_len out = s_len src /\
   s_buf mid <> s_buf src /\ s_buf out <> s_buf mid) /\
  exists w1 w2,
    XORKeyStream c mid src w = Ret tt w1 /\
    sl_bytes (w_heap w1) mid = zip_with Z.lxor (sl_bytes (w_heap w) src) (mac_of 5 (s_len src)) /\
    XORKeyStream c2 out mid w1 = Ret tt w2 /\
    sl_bytes (w_heap w2) out = sl_bytes (w_heap w) src.
Proof.
  cbv zeta. split.
  - repeat split; evaluated.
  - apply (XORKeyStream_twice (MkCipher 0) (MkCipher 1) (Slice 1 0 2 2) (Slice 2 0 2 2)
             (Slice 3 0 2 2) (World (heap0 ++ [[7; 9]; [0; 0]; [0; 0]]) [5; 5] [] []) 5);
      evaluated.
Defined.

Lemma Sum_appends_witness :
  let c := MkCipher 0 in
  let w := toy_world [] 5 in
  let st0 := cs_boundary 5 in
  let n := Z.to_nat (cs_HashSize st0) in
  (w_ciphers w !! CipherState_of c = Some 5 /\ sl_wf (w_heap w) nil_slice /\
   0 <= cs_HashSize st0 /\ 2 * (len nil_slice + cs_HashSize st0 + 1) <= int_max) /\
  exists d w',
    Sum c nil_slice w = Ret d w' /\
    sl_wf (w_heap w') d /\
    s_len d = (s_len nil_slice + n)%nat /\
    sl_bytes (w_heap w') d = sl_bytes (w_heap w) nil_slice ++ mac_of st0 n /\
    w_ciphers w' !! CipherState_of c =
      Some (cs_boundary (snd (transduce false st0 (replicate n 0) (replicate n 0)))) /\
    (forall i, i <> CipherState_of c -> w_ciphers w' !! i = w_ciphers w !! i).
Proof.
  cbv zeta. split.
  - repeat split; evaluated.
  - apply (Sum_appends (MkCipher 0) nil_slice (toy_world [] 5) 5); evaluated.
Defined.

Lemma Seal_appends_witness :
  let c := MkCipher 0 in
  let src := Slice 1 0 3 3 in
  let w := toy_world [[104; 101; 108]] 5 in
  let m := Z.to_nat (cs_KeySize 5) in
  let msg := sl_bytes (w_heap w) src in
  let ctx := fst (encrypt 5 msg) in
  let mac := mac_of (snd (encrypt 5 msg)) m in
  (w_ciphers w !! CipherState_of c = Some 5 /\
   sl_wf (w_heap w) nil_slice /\ sl_wf (w_heap w) src /\ 0 <= cs_KeySize 5 /\
   2 * (len nil_slice + len src + cs_KeySize 5 + 1) <= int_max /\
   s_buf nil_slice <> s_buf src) /\
  exists d w',
    Seal c nil_slice src w = Ret d w' /\
    len d = len nil_slice + len src + cs_KeySize 5 /\
    sl_bytes (w_heap w') d = sl_bytes (w_heap w) nil_slice ++ ctx ++ mac /\
    length ctx = s_len src /\ length mac = m /\
    (forall i, i <> CipherState_of c -> w_ciphers w' !! i = w_ciphers w !! i).
Proof.
  cbv zeta. split.
  - repeat split; evaluated.
  - apply (Seal_appends (MkCipher 0) nil_slice (Slice 1 0 3 3)
             (toy_world [[104; 101; 108]] 5) 5); evaluated.
Defined.

Lemma Open_accepts_only_the_MAC_witness :
  let c := MkCipher 0 in
  let src := Slice 1 0 5 5 in
  let w := toy_world [[109; 113; 130; 86; 163]] 5 in
  let msg := [104; 101; 108] in
  let mac := [86; 163] in
  (w_ciphers w !! CipherState_of c = Some 5 /\
   sl_wf (w_heap w) nil_slice /\ sl_wf (w_heap w) src /\
   0 <= cs_KeySize 5 /\ msg <> [] /\
   2 * (len nil_slice + len src + 1) <= int_max /\
   sl_bytes (w_heap w) src = fst (encrypt 5 msg) ++ mac /\
   length mac = Z.to_nat (cs_KeySize 5) /\
   placed nil_slice src (length msg)) /\
  ((exists d w', Open c nil_slice src w = Ret (d, None) w') <->
   mac = mac_of (snd (encrypt 5 msg)) (Z.to_nat (cs_KeySize 5))).
Proof.
  cbv zeta. split.
  - repeat split; evaluated.
  - apply (Open_accepts_only_the_MAC (MkCipher 0) nil_slice (Slice 1 0 5 5)
             (toy_world [[109; 113; 130; 86; 163]] 5) 5 [104; 101; 108] [86; 163]); evaluated.
Defined.

Lemma Open_overwrites_the_MAC_witness :
  let c := MkCipher 0 in
  let src := Slice 1 0 5 5 in
  let w := toy_world [[109; 113; 130; 86; 163]] 5 in
  let l := (s_len src - Z.to_nat (cs_KeySize 5%Z))%nat in
  let ctx := take l (sl_bytes (w_heap w) src) in
  let rmac := drop l (sl_bytes (w_heap w) src) in
  (w_ciphers w !! CipherState_of c = Some 5 /\
   sl_wf (w_heap w) nil_slice /\ sl_wf (w_heap w) src /\
   0 <= cs_KeySize 5 < len src /\
   2 * (len nil_slice + len src + 1) <= int_max /\
   (s_buf nil_slice <> s_buf src \/ (s_cap nil_slice < s_len nil_slice + l)%nat)) /\
  exists r w',
    Open c nil_slice src w = Ret r w' /\
    sl_bytes (w_heap w') src = ctx ++ mac_check 5 ctx rmac /\
    (snd r = None ->
     sl_bytes (w_heap w') src = ctx ++ replicate (Z.to_nat (cs_KeySize 5)) 0).
Proof.
  cbv zeta. split.
  - repeat split; evaluated.
  - apply (Open_overwrites_the_MAC (MkCipher 0) nil_slice (Slice 1 0 5 5)
             (toy_world [[109; 113; 130; 86; 163]] 5) 5); evaluated.
Defined.

(** * Properties of the curve points *)

(** ** Big-endian bytes *)

Module NistFacts.
Import Nist.
Import P256.

Lemma pow256_pos n : 0 < 256 ^ Z.of_nat n.
Proof. apply Z.pow_pos_nonneg; lia. Qed.

Lemma pow256_S n : 256 ^ Z.of_nat (S n) = 256 * 256 ^ Z.of_nat n.
Proof. rewrite Nat2Z.inj_succ, Z.pow_succ_r; lia. Qed.

Lemma to_be_length n a : length (to_be n a) = n.
Proof. induction n as [|n IH]; simpl; [done|]. by rewrite IH. Qed.

Lemma to_be_bytes n a : Forall is_byte (to_be n a).
Proof.
  induction n as [|n IH]; simpl; constructor; [|done].
  unfold is_byte. apply Z.mod_pos_bound. lia.
Qed.

Lemma to_be_zero n : to_be n 0 = replicate n 0.
Proof.
  induction n as [|n IH]; simpl; [done|]. rewrite IH.
  by rewrite Z.div_0_l by (pose proof (pow256_pos n); lia).
Qed.

(** Only the low [n] bytes of the number matter. *)
Lemma to_be_add_high n : forall k a c,
  (n <= k)%nat -> to_be n (a + c * 256 ^ Z.of_nat k) = to_be n a.
Proof.
  induction n as [|n IH]; intros k a c Hk; simpl; [done|].
  rewrite IH by lia. f_equal.
  replace (256 ^ Z.of_nat k) with (256 * 256 ^ Z.of_nat (k - S n) * 256 ^ Z.of_nat n).
  - rewrite Z.mul_assoc, Z.div_add by (pose proof (pow256_pos n); lia).
    replace (c * (256 * 256 ^ Z.of_nat (k - S n))) with (c * 256 ^ Z.of_nat (k - S n) * 256) by lia.
    apply Z.mod_add. lia.
  - rewrite <- pow256_S, <- Z.pow_add_r by lia. f_equal. lia.
Qed.

Lemma to_be_small j k a :
  0 <= a < 256 ^ Z.of_nat k -> to_be (j + k) a = replicate j 0 ++ to_be k a.
Proof.
  intros Ha. induction j as [|j IH]; simpl; [done|]. rewrite IH. f_equal.
  rewrite Z.div_small; [done|]. split; [lia|].
  eapply Z.lt_le_trans; [apply Ha|].
  apply Z.pow_le_mono_r; lia.
Qed.

Lemma SetBytes_acc (b : list Z) acc :
  fold_left (fun acc x => acc * 256 + x) b acc =
  acc * 256 ^ Z.of_nat (length b) + big_SetBytes b.
Proof.
  unfold big_SetBytes. revert acc. induction b as [|x b IH]; intros acc.
  - simpl. lia.
  - cbn [fold_left length]. rewrite IH, (IH (0 * 256 + x)), pow256_S. lia.
Qed.

Lemma SetBytes_cons x b :
  big_SetBytes (x :: b) = x * 256 ^ Z.of_nat (length b) + big_SetBytes b.
Proof. unfold big_SetBytes at 1. cbn [fold_left]. rewrite SetBytes_acc. lia. Qed.

Lemma SetBytes_bound b :
  Forall is_byte b -> 0 <= big_SetBytes b < 256 ^ Z.of_nat (length b).
Proof.
  induction 1 as [|x b Hx Hb IH].
  - unfold big_SetBytes. simpl. lia.
  - rewrite SetBytes_cons. cbn [length]. rewrite pow256_S.
    unfold is_byte in Hx. pose proof (pow256_pos (length b)). nia.
Qed.

(** Decoding the bytes of a number, and encoding a decoded number. *)
Lemma to_be_SetBytes b : Forall is_byte b -> to_be (length b) (big_SetBytes b) = b.
Proof.
  induction 1 as [|x b Hx Hb IH]; [done|].
  cbn [length to_be]. rewrite SetBytes_cons.
  pose proof (SetBytes_bound b Hb) as Hbd. pose proof (pow256_pos (length b)) as Hp.
  f_equal.
  - rewrite Z.add_comm, Z.div_add by lia. rewrite Z.div_small by lia.
    apply Z.mod_small. exact Hx.
  - rewrite Z.add_comm, to_be_add_high by lia. exact IH.
Qed.

Lemma SetBytes_to_be n a : 0 <= a < 256 ^ Z.of_nat n -> big_SetBytes (to_be n a) = a.
Proof.
  revert a. induction n as [|n IH]; intros a Ha.
  - simpl in Ha. unfold big_SetBytes. simpl. lia.
  - cbn [to_be]. rewrite SetBytes_cons, to_be_length.
    pose proof (pow256_pos n) as Hp. rewrite pow256_S in Ha.
    assert (Hq : 0 <= a / 256 ^ Z.of_nat n < 256).
    { split; [apply Z.div_pos; lia|]. apply Z.div_lt_upper_bound; lia. }
    rewrite (Z.mod_small _ 256) by lia.
    replace (to_be n a) with (to_be n (a mod 256 ^ Z.of_nat n)).
    + rewrite IH by (apply Z.mod_pos_bound; lia).
      rewrite Z.mul_comm. symmetry. apply Z.div_mod. lia.
    + rewrite (Z.div_mod a (256 ^ Z.of_nat n)) at 2 by lia.
      rewrite Z.add_comm, (Z.mul_comm (256 ^ Z.of_nat n)).
      by rewrite to_be_add_high by lia.
Qed.

(** [Bytes] is the shortest encoding. *)
Lemma Bytes_to_be x :
  0 < x ->
  let k := Z.to_nat (Z.log2 x / 8 + 1) in
  big_Bytes x = to_be k x /\ x < 256 ^ Z.of_nat k /\
  forall l, x < 256 ^ Z.of_nat l -> (k <= l)%nat.
Proof.
  intros Hx k. pose proof (Z.log2_nonneg x) as Hl.
  assert (Hk : Z.of_nat k = Z.log2 x / 8 + 1).
  { unfold k. rewrite Z2Nat.id; [done|]. pose proof (Z.div_pos (Z.log2 x) 8). lia. }
  split; [|split].
  - unfold big_Bytes. rewrite Z.abs_eq by lia.
    destruct (Z.eqb_spec x 0); [lia|done].
  - rewrite Hk. replace 256 with (2 ^ 8) by done. rewrite <- Z.pow_mul_r by lia.
    destruct (Z.log2_spec x Hx) as [_ Hub].
    eapply Z.lt_le_trans; [exact Hub|].
    apply Z.pow_le_mono_r; [lia|].
    pose proof (Z.div_mod (Z.log2 x) 8). pose proof (Z.mod_pos_bound (Z.log2 x) 8). lia.
  - intros l Hlt.
    assert (Z.log2 x < 8 * Z.of_nat l).
    { apply Z.log2_lt_pow2; [done|].
      replace 256 with (2 ^ 8) in Hlt by done. by rewrite <- Z.pow_mul_r in Hlt by lia. }
    assert (Z.log2 x / 8 < Z.of_nat l) by (apply Z.div_lt_upper_bound; lia).
    lia.
Qed.

(** The padding that [Data] and [Marshal] apply to [Bytes]. *)
Lemma Bytes_padded l x :
  0 <= x < 256 ^ Z.of_nat l ->
  (length (big_Bytes x) <= l)%nat /\
  replicate (l - length (big_Bytes x)) 0 ++ big_Bytes x = to_be l x.
Proof.
  intros Hx. destruct (Z.eq_dec x 0) as [->|Hne].
  - unfold big_Bytes. simpl. split; [lia|].
    rewrite app_nil_r, Nat.sub_0_r. by rewrite to_be_zero.
  - destruct (Bytes_to_be x) as (Hb & Hlt & Hmin); [lia|].
    set (k := Z.to_nat (Z.log2 x / 8 + 1)) in *.
    specialize (Hmin l (proj2 Hx)).
    rewrite Hb, to_be_length. split; [done|].
    replace l with ((l - k) + k)%nat at 2 by lia.
    rewrite to_be_small by lia. done.
Qed.

(** ** Running the curve programs *)

Lemma bind_Ret_inv {W A B} (m : W -> outcome W A) (k : A -> W -> outcome W B) w r w' :
  bind m k w = Ret r w' -> exists a w1, m w = Ret a w1 /\ k a w1 = Ret r w'.
Proof. unfold bind. destruct (m w) as [a w1|]; [eauto|discriminate]. Qed.

Lemma bind_run {W A B} (m : W -> outcome W A) (k : A -> W -> outcome W B) w a w1 :
  m w = Ret a w1 -> bind m k w = k a w1.
Proof. unfold bind. by intros ->. Qed.

(** Split a successful run of a bind into its two halves. *)
Ltac bind_inv H :=
  let a := fresh "a" in let w := fresh "w" in let Ha := fresh "Hrun" in
  apply bind_Ret_inv in H; destruct H as (a & w & Ha & H).

Lemma steps_refl w : steps w w.
Proof. split; [exists []; by rewrite app_nil_r | exists 0%nat; done]. Qed.

Lemma steps_trans w1 w2 w3 : steps w1 w2 -> steps w2 w3 -> steps w1 w3.
Proof.
  intros [[m1 H1] [k1 K1]] [[m2 H2] [k2 K2]]. split.
  - exists (m1 ++ m2). by rewrite H2, H1, app_assoc.
  - exists (k1 + k2)%nat. intros i. rewrite K2, K1. f_equal. lia.
Qed.

Lemma steps_bytes w w' :
  steps w w' -> (forall i, is_byte (rnd w i)) -> forall i, is_byte (rnd w' i).
Proof. intros [_ [k K]] H i. rewrite K. apply H. Qed.

Lemma steps_lookup w w' l v : steps w w' -> ints w !! l = Some v -> ints w' !! l = Some v.
Proof. intros [[m H] _] Hl. rewrite H. by apply lookup_app_l_Some. Qed.

Lemma steps_length w w' : steps w w' -> (length (ints w) <= length (ints w'))%nat.
Proof. intros [[m H] _]. rewrite H, length_app. lia. Qed.

Lemma new_int_run v w :
  new_int v w = Ret (Some (length (ints w))) (NWorld (ints w ++ [v]) (rnd w) (turns w)).
Proof. done. Qed.

Lemma new_int_steps v w p w' : new_int v w = Ret p w' -> steps w w'.
Proof.
  intros [= <- <-]. split; cbn; [by exists [v] | by exists 0%nat].
Qed.

Lemma load_inv p w v w' :
  load p w = Ret v w' -> w' = w /\ exists l, p = Some l /\ ints w !! l = Some v.
Proof.
  unfold load. destruct p as [l|]; [|discriminate].
  destruct (ints w !! l) eqn:E; [|discriminate].
  intros [= <- <-]. eauto.
Qed.

Lemma load_run l w v : ints w !! l = Some v -> load (Some l) w = Ret v w.
Proof. intros H. unfold load. by rewrite H. Qed.

Lemma XORKeyStream_steps b w r w' : XORKeyStream b w = Ret r w' -> steps w w'.
Proof.
  intros [= <- <-]. split; cbn; [exists []; by rewrite app_nil_r | by exists (length b)].
Qed.

(** [genPoint] allocates and draws random bytes; when it succeeds the
    point has the abscissa it was given. *)
Lemma genPoint_inv p x w p' found w' :
  genPoint p x w = Ret (p', found) w' ->
  steps w w' /\ pt_c p' = pt_c p /\
  (found = true -> pt_x p' = x) /\ (found = false -> p' = p).
Proof.
  unfold genPoint. intros H. bind_inv H.
  apply load_inv in Hrun as (-> & lx & -> & Hx).
  destruct (cp_P (c_p (pt_c p)) =? 0); [discriminate|].
  bind_inv H. rename a0 into y, w0 into w1.
  pose proof Hrun as Hy. injection Hy as <- <-.
  bind_inv H. rename a0 into b, w0 into w2.
  injection Hrun0 as <- <-.
  bind_inv H. rename w0 into w3.
  assert (Hw3 : exists yv, ints w3 = ints w ++ [yv] /\ rnd w3 = (fun i => rnd w (1 + i)%nat)).
  { destruct (negb _).
    - bind_inv Hrun0. apply load_inv in Hrun1 as (-> & ly & [= <-] & Hly).
      unfold store in Hrun0. cbn [ints rnd turns] in Hrun0.
      rewrite length_app in Hrun0. cbn [length] in Hrun0.
      assert ((length (ints w) <? length (ints w) + 1)%nat = true) as Hlt
        by (apply Nat.ltb_lt; lia).
      rewrite Hlt in Hrun0. injection Hrun0 as E. subst w3.
      eexists. split; [|reflexivity]. cbn [ints].
      replace (length (ints w)) with (length (ints w) + 0)%nat at 1 by lia.
      by rewrite insert_app_r.
    - injection Hrun0 as E. subst w3. eexists. split; reflexivity. }
  destruct Hw3 as (yv & Hi3 & Hr3).
  bind_inv H. apply load_inv in Hrun1 as (-> & ly & [= <-] & Hly).
  assert (Hst : steps w w3).
  { split; [by eexists | exists 1%nat; intros i; by rewrite Hr3]. }
  match type of H with context [negb ?t] => destruct (negb t) end;
    cbv [ret] in H; injection H as <- <- <-;
    (split; [exact Hst|]); repeat split; try done.
Qed.

(** [random.Bits] gives as many bytes as hold [bitlen] bits. *)
Lemma random_Bits_inv bitlen w b w' :
  (forall i, is_byte (rnd w i)) ->
  random_Bits bitlen w = Ret b w' ->
  steps w w' /\ length b = Z.to_nat (Z.quot (bitlen + 7) 8) /\ Forall is_byte b.
Proof.
  intros Hrnd H. unfold random_Bits in H. bind_inv H.
  pose proof (XORKeyStream_steps _ _ _ _ Hrun) as Hst.
  injection Hrun as <- <-.
  set (n := Z.to_nat (Z.quot (bitlen + 7) 8)) in *.
  set (ks := zip_with Z.lxor (replicate n 0) (map (rnd w) (seq 0 (length (replicate n 0))))) in *.
  assert (Hks : length ks = n /\ Forall is_byte ks).
  { unfold ks. rewrite length_replicate. split.
    - rewrite length_zip_with, length_replicate, length_map, length_seq. lia.
    - apply Forall_forall. intros x Hx.
      apply list_elem_of_lookup in Hx as [i Hi].
      apply lookup_zip_with_Some in Hi as (a & c & -> & Ha & Hc).
      apply lookup_replicate in Ha as [-> _]. rewrite Z.lxor_0_l.
      rewrite list_lookup_fmap in Hc.
      destruct (seq 0 n !! i) as [j|]; [|discriminate].
      injection Hc as <-. apply Hrnd. }
  destruct Hks as [Hl Hb].
  destruct (negb _); injection H as <- <-; [|done].
  split; [done|]. destruct ks as [|b0 bs]; [done|].
  split; [done|]. inversion Hb as [|? ? Hb0 Hbs]; subst.
  constructor; [|done].
  assert (Hh : 0 <= Z.land bitlen 7 < 8).
  { change 7 with (Z.ones 3). rewrite Z.land_ones by lia. apply Z.mod_pos_bound. lia. }
  replace (2 ^ Z.land bitlen 7 - 1) with (Z.ones (Z.land bitlen 7))
    by (rewrite Z.ones_equiv; lia).
  rewrite Z.land_ones by lia. unfold is_byte in *.
  pose proof (Z.mod_pos_bound b0 (2 ^ Z.land bitlen 7)) as Hm.
  assert (0 < 2 ^ Z.land bitlen 7) by (apply Z.pow_pos_nonneg; lia).
  assert (b0 mod 2 ^ Z.land bitlen 7 <= b0) by (apply Z.mod_le; lia).
  lia.
Qed.

(** ** Embedding data in a point *)

Lemma Bytes_bytes x : Forall is_byte (big_Bytes x).
Proof.
  unfold big_Bytes. destruct (Z.abs x =? 0); [constructor | apply to_be_bytes].
Qed.

(** The room [PickLen] leaves: two bytes more than it fit in the bytes
    that hold the bits of the prime. *)
Lemma PickLen_room bl : 0 <= Z.quot (bl - 8 - 8) 8 -> Z.quot (bl - 8 - 8) 8 + 2 <= Z.quot (bl + 7) 8.
Proof. intros H. Z.to_euclidean_division_equations. lia. Qed.

Lemma index_run (b : list Z) i (w : nworld) :
  0 <= i < Z.of_nat (length b) -> index b i w = Ret (nth (Z.to_nat i) b 0) w.
Proof.
  intros H. unfold index.
  assert ((0 <=? i) && (i <? Z.of_nat (length b)) = true) as ->; [|done].
  apply andb_true_iff. split; [apply Z.leb_le | apply Z.ltb_lt]; lia.
Qed.

Lemma subslice_run (b : list Z) lo hi (w : nworld) :
  0 <= lo <= hi -> hi <= Z.of_nat (length b) ->
  subslice b lo hi w = Ret (take (Z.to_nat (hi - lo)) (drop (Z.to_nat lo) b)) w.
Proof.
  intros H1 H2. unfold subslice.
  assert ((0 <=? lo) && (lo <=? hi) && (hi <=? Z.of_nat (length b)) = true) as ->; [|done].
  rewrite !andb_true_iff, !Z.leb_le. lia.
Qed.

Lemma subslice_inv (b : list Z) lo hi (w : nworld) r w' :
  subslice b lo hi w = Ret r w' ->
  w' = w /\ 0 <= lo <= hi /\ hi <= Z.of_nat (length b) /\
  r = take (Z.to_nat (hi - lo)) (drop (Z.to_nat lo) b).
Proof.
  unfold subslice.
  destruct ((0 <=? lo) && (lo <=? hi) && (hi <=? Z.of_nat (length b))) eqn:E; [|discriminate].
  rewrite !andb_true_iff, !Z.leb_le in E. intros [= <- <-]. repeat split; lia.
Qed.

Lemma set_index_inv (b : list Z) i v (w : nworld) r w' :
  set_index b i v w = Ret r w' ->
  w' = w /\ 0 <= i < Z.of_nat (length b) /\ r = <[Z.to_nat i := v]> b.
Proof.
  unfold set_index.
  destruct ((0 <=? i) && (i <? Z.of_nat (length b))) eqn:E; [|discriminate].
  rewrite andb_true_iff, Z.leb_le, Z.ltb_lt in E. intros [= <- <-]. done.
Qed.

Lemma padded_length c xv :
  Z.of_nat (length (big_Bytes xv)) <= coordLen c ->
  length (padded_encoding c xv) = Z.to_nat (coordLen c).
Proof.
  intros H. unfold padded_encoding.
  destruct (Z.ltb_spec (Z.of_nat (length (big_Bytes xv))) (coordLen c)).
  - rewrite length_app, length_replicate. lia.
  - lia.
Qed.

Lemma padded_bytes c xv : Forall is_byte (padded_encoding c xv).
Proof.
  unfold padded_encoding. destruct (_ <? _); [|apply Bytes_bytes].
  apply Forall_app. split; [|apply Bytes_bytes].
  apply Forall_replicate. unfold is_byte. lia.
Qed.

(** The padded encoding of a number that fits is its fixed-width one. *)
Lemma padded_to_be c xv :
  0 <= coordLen c -> 0 <= xv < 256 ^ coordLen c ->
  padded_encoding c xv = to_be (Z.to_nat (coordLen c)) xv.
Proof.
  intros Hl Hx. unfold padded_encoding.
  destruct (Bytes_padded (Z.to_nat (coordLen c)) xv) as [Hle Hpad].
  { by rewrite Z2Nat.id. }
  destruct (Z.ltb_spec (Z.of_nat (length (big_Bytes xv))) (coordLen c)) as [Hlt|Hge].
  - rewrite <- Hpad. do 2 f_equal. lia.
  - rewrite <- Hpad.
    replace (Z.to_nat (coordLen c) - length (big_Bytes xv))%nat with 0%nat by lia. done.
Qed.

(** What [Data] returns for an abscissa that fits the coordinate length. *)
Lemma Data_run p w xv :
  load (pt_x p) w = Ret xv w ->
  let l := coordLen (pt_c p) in
  1 <= l -> Z.of_nat (length (big_Bytes xv)) <= l -> PickLen p < l ->
  let b := padded_encoding (pt_c p) xv in
  let tag := nth (Z.to_nat (l - 1)) b 0 in
  Data p w =
    Ret (if PickLen p <? tag then (None, Some ErrInvalidLength)
         else (Some (take (Z.to_nat tag) (drop (Z.to_nat (l - 1 - tag)) b)), None)) w.
Proof.
  intros Hx l Hl Hfit Hpl b tag.
  assert (Hlen : length b = Z.to_nat l) by (by apply padded_length).
  assert (Htag : is_byte tag).
  { unfold tag. apply Forall_nth; [apply padded_bytes | lia]. }
  unfold Data. rewrite (bind_run _ _ _ _ _ Hx).
  change (if Z.of_nat (length (big_Bytes xv)) <? coordLen (pt_c p)
          then replicate (Z.to_nat (coordLen (pt_c p) - Z.of_nat (length (big_Bytes xv)))) 0
               ++ big_Bytes xv
          else big_Bytes xv) with b.
  fold l. rewrite (bind_run _ _ _ _ _ (index_run b (l - 1) w ltac:(lia))). fold tag.
  destruct (Z.ltb_spec (PickLen p) tag) as [Hgt|Hle]; [done|].
  unfold is_byte in Htag.
  rewrite (bind_run _ _ _ _ _ (subslice_run b (l - tag - 1) (l - 1) w ltac:(lia) ltac:(lia))).
  replace (l - 1 - (l - tag - 1)) with tag by lia.
  replace (l - tag - 1) with (l - 1 - tag) by lia. done.
Qed.

(** C5, as the code has it.  [Data] pads the big-endian bytes of [x] on
    the left to the coordinate length, reads the length tag from the
    final byte, returns the bytes that precede the final byte, as many as
    the tag says, and fails with an error exactly when the tag exceeds
    [PickLen()]. *)
Theorem Data_reads_final_byte p w xv :
  load (pt_x p) w = Ret xv w ->
  let l := coordLen (pt_c p) in
  1 <= l -> Z.of_nat (length (big_Bytes xv)) <= l -> PickLen p < l ->
  let b := padded_encoding (pt_c p) xv in
  let tag := nth (Z.to_nat (l - 1)) b 0 in
  length b = Z.to_nat l /\
  Data p w =
    Ret (if PickLen p <? tag then (None, Some ErrInvalidLength)
         else (Some (take (Z.to_nat tag) (drop (Z.to_nat (l - 1 - tag)) b)), None)) w /\
  ((exists r e w', Data p w = Ret (r, Some e) w') <-> PickLen p < tag).
Proof.
  intros Hx l Hl Hfit Hpl b tag.
  pose proof (Data_run p w xv Hx Hl Hfit Hpl) as HD. fold l b tag in HD.
  split; [by apply padded_length|]. split; [done|].
  rewrite HD. change (nth (Z.to_nat (l - 1)) b 0) with tag.
  destruct (Z.ltb_spec (PickLen p) tag) as [Hgt|Hle].
  - split; [done|]. intros _. by eexists _, _, _.
  - split; [|lia]. intros (r & e & w' & [=]).
Qed.

(** The candidate bytes after the tag and the data are written into
    them: [b0] with its final byte set to [tag] and the [dl] bytes before
    it taken from [d]. *)
Lemma embed_props (b0 d : list Z) (l dl : nat) (tag : Z) :
  length b0 = l -> (dl + 1 <= l)%nat -> (dl <= length d)%nat ->
  let b1 := <[(l - 1)%nat := tag]> b0 in
  let b2 := take (l - dl - 1) b1 ++ take dl d ++ drop (l - dl - 1 + dl) b1 in
  length b2 = l /\ nth (l - 1) b2 0 = tag /\
  take dl (drop (l - 1 - dl) b2) = take dl d /\
  (Forall is_byte b0 -> Forall is_byte d -> is_byte tag -> Forall is_byte b2).
Proof.
  intros Hl Hdl Hd b1 b2.
  assert (Hb1 : length b1 = l) by (unfold b1; by rewrite length_insert).
  assert (Hlast : drop (l - dl - 1 + dl) b1 = [tag]).
  { replace (l - dl - 1 + dl)%nat with (l - 1)%nat by lia.
    unfold b1. apply list_eq. intros [|i].
    - rewrite lookup_drop, Nat.add_0_r. apply list_lookup_insert_eq. lia.
    - rewrite lookup_drop. cbn. apply lookup_ge_None. rewrite length_insert. lia. }
  assert (Ht : length (take (l - dl - 1) b1) = (l - dl - 1)%nat)
    by (rewrite length_take; lia).
  assert (Htd : length (take dl d) = dl) by (rewrite length_take; lia).
  unfold b2. rewrite Hlast. repeat split.
  - rewrite !length_app, Ht, Htd. cbn. lia.
  - rewrite nth_lookup.
    rewrite lookup_app_r by lia. rewrite lookup_app_r by lia.
    rewrite Ht, Htd. by replace (l - 1 - (l - dl - 1) - dl)%nat with 0%nat by lia.
  - replace (l - 1 - dl)%nat with (l - dl - 1)%nat by lia.
    rewrite drop_app_length' by done.
    by rewrite take_app_length' by done.
  - intros F0 Fd Ftag. apply Forall_app. split.
    + apply Forall_take. unfold b1. by apply Forall_insert.
    + apply Forall_app. split; [by apply Forall_take|]. by constructor.
Qed.

(** What a successful run of the loop of [Pick] leaves: a point whose
    abscissa decodes the candidate bytes, which hold the tag and the data. *)
Lemma Pick_loop_inv fuel : forall p d l dl w p' rest w',
  (forall i, is_byte (rnd w i)) -> Forall is_byte d ->
  l = Z.quot (big_BitLen (cp_P (c_p (pt_c p))) + 7) 8 ->
  0 <= dl <= Z.of_nat (length d) -> dl + 1 <= l -> dl < 256 ->
  Pick_loop fuel p (Some d) l dl w = Ret (Some (p', rest)) w' ->
  exists b lx,
    length b = Z.to_nat l /\ Forall is_byte b /\
    nth (Z.to_nat (l - 1)) b 0 = dl /\
    take (Z.to_nat dl) (drop (Z.to_nat (l - 1 - dl)) b) = take (Z.to_nat dl) d /\
    pt_x p' = Some lx /\ ints w' !! lx = Some (big_SetBytes b) /\
    pt_c p' = pt_c p /\ rest = drop (Z.to_nat dl) d /\ steps w w'.
Proof.
  induction fuel as [|fuel IH]; intros p d l dl w p' rest w' Hrnd Hd Hl Hdl Hroom H256 H;
    [discriminate|].
  cbn [Pick_loop] in H. bind_inv H. rename a into b0, w0 into w1.
  destruct (random_Bits_inv _ _ _ _ Hrnd Hrun) as (Hs1 & Hlen0 & Hb0).
  rewrite <- Hl in Hlen0.
  bind_inv H. rename a into b2, w0 into w2.
  bind_inv Hrun0. rename a into b1, w0 into w1'.
  apply set_index_inv in Hrun1 as (-> & Hi1 & ->).
  unfold copy_into in Hrun0. bind_inv Hrun0.
  apply subslice_inv in Hrun1 as (-> & Hlo & Hhi & ->).
  cbv [ret] in Hrun0. injection Hrun0 as <- <-.
  rewrite length_take, length_drop, length_insert in *.
  replace (Nat.min (Nat.min (Z.to_nat (l - 1 - (l - dl - 1))) (length b0 - Z.to_nat (l - dl - 1)))
                   (length d))
    with (Z.to_nat dl) in * by lia.
  destruct (embed_props b0 d (Z.to_nat l) (Z.to_nat dl) (dl mod 256))
    as (E1 & E2 & E3 & E4); [done | lia | lia |].
  replace (Z.to_nat l - 1)%nat with (Z.to_nat (l - 1)) in * by lia.
  replace (Z.to_nat l - Z.to_nat dl - 1)%nat with (Z.to_nat (l - dl - 1)) in * by lia.
  replace (Z.to_nat (l - 1) - Z.to_nat dl)%nat with (Z.to_nat (l - 1 - dl)) in * by lia.
  rewrite (Z.mod_small dl 256) in * by lia.
  set (b := take (Z.to_nat (l - dl - 1)) (<[Z.to_nat (l - 1):=dl]> b0) ++
            take (Z.to_nat dl) d ++
            drop (Z.to_nat (l - dl - 1) + Z.to_nat dl) (<[Z.to_nat (l - 1):=dl]> b0)) in *.
  bind_inv H. rename a into x, w0 into w3.
  pose proof (new_int_steps _ _ _ _ Hrun0) as Hs3.
  injection Hrun0 as <- <-.
  bind_inv H. destruct a as [q found]. rename w0 into w4.
  destruct (genPoint_inv _ _ _ _ _ _ Hrun0) as (Hs4 & Hc & Hfound & Hnot).
  assert (Hs14 : steps w w4).
  { eapply steps_trans; [exact Hs1|]. eapply steps_trans; [exact Hs3|exact Hs4]. }
  destruct found.
  - bind_inv H. apply subslice_inv in Hrun1 as (-> & _ & _ & ->).
    cbv [ret] in H. injection H as <- <- <-.
    exists b, (length (ints w1)).
    split; [exact E1|]. split; [apply E4; [done | done | unfold is_byte; lia]|].
    split; [exact E2|]. split; [exact E3|]. split; [by apply Hfound|].
    split.
    { eapply steps_lookup; [exact Hs4|]. cbn [ints].
      rewrite lookup_app_r by lia. by rewrite Nat.sub_diag. }
    split; [exact Hc|]. split; [|exact Hs14].
    cbn [default]. replace (Z.to_nat (Z.of_nat (length d) - dl)) with (length d - Z.to_nat dl)%nat by lia.
    apply take_ge. rewrite length_drop. lia.
  - destruct (IH p d l dl w4 p' rest w') as (b' & lx & R); try done.
    { by apply (steps_bytes w w4). }
    exists b', lx. destruct R as (R1 & R2 & R3 & R4 & R5 & R6 & R7 & R8 & R9).
    do 8 (split; [assumption|]). by eapply steps_trans.
Qed.

(** More fuel does not change what [Pick] returns. *)
Lemma Pick_loop_more fuel : forall k p data l dl w r w',
  Pick_loop fuel p data l dl w = Ret (Some r) w' ->
  Pick_loop (fuel + k) p data l dl w = Ret (Some r) w'.
Proof.
  induction fuel as [|fuel IH]; intros k p data l dl w r w' H; [discriminate|].
  cbn [Pick_loop Nat.add] in *.
  bind_inv H. rewrite (bind_run _ _ _ _ _ Hrun).
  bind_inv H. rewrite (bind_run _ _ _ _ _ Hrun0).
  bind_inv H. rewrite (bind_run _ _ _ _ _ Hrun1).
  bind_inv H. rewrite (bind_run _ _ _ _ _ Hrun2).
  destruct a2 as [q found]. destruct found; [exact H|]. by apply IH.
Qed.

(** C6. A point that [Pick] produces for a payload [d] of at most
    [PickLen()] bytes gives [d] back through [Data], and nothing of [d]
    is left over; this holds whatever the random stream and the number of
    candidates tried, and trying longer does not change the outcome. *)
Theorem Pick_then_Data fuel p d w p' rest w' :
  coordLen (pt_c p) = Z.quot (big_BitLen (cp_P (c_p (pt_c p))) + 7) 8 ->
  PickLen p < 256 ->
  (forall i, is_byte (rnd w i)) -> Forall is_byte d ->
  Z.of_nat (length d) <= PickLen p ->
  Pick fuel p (Some d) w = Ret (Some (p', rest)) w' ->
  Data p' w' = Ret (Some d, None) w' /\ rest = [] /\
  forall more, Pick (fuel + more) p (Some d) w = Ret (Some (p', rest)) w'.
Proof.
  intros Hcl H256 Hrnd Hd Hlen H.
  split; [|split]; [| |intros more; by apply Pick_loop_more].
  - unfold Pick in H. cbv beta zeta in H. cbn [default id] in H.
    assert (Hdl : (if Z.of_nat (length d) <? PickLen p then Z.of_nat (length d) else PickLen p)
                  = Z.of_nat (length d)).
    { destruct (Z.ltb_spec (Z.of_nat (length d)) (PickLen p)); lia. }
    rewrite Hdl in H.
    pose proof (PickLen_room (big_BitLen (cp_P (c_p (pt_c p))))) as Hroom.
    fold (PickLen p) in Hroom. rewrite <- Hcl in Hroom.
    specialize (Hroom ltac:(lia)).
    clear Hdl.
    destruct (Pick_loop_inv fuel p d (coordLen (pt_c p)) (Z.of_nat (length d)) w p' rest w'
                Hrnd Hd Hcl ltac:(lia) ltac:(lia) ltac:(lia) H)
      as (b & lx & B1 & B2 & B3 & B4 & B5 & B6 & B7 & _ & _).
    set (l := coordLen (pt_c p)) in *.
    assert (Hx : load (pt_x p') w' = Ret (big_SetBytes b) w') by (rewrite B5; by apply load_run).
    assert (Henc : padded_encoding (pt_c p') (big_SetBytes b) = b).
    { rewrite padded_to_be; rewrite B7; fold l.
      - rewrite <- B1. by apply to_be_SetBytes.
      - lia.
      - pose proof (SetBytes_bound b B2) as Hb. rewrite B1, Z2Nat.id in Hb by lia. exact Hb. }
    assert (Hpl : PickLen p' = PickLen p) by (unfold PickLen; by rewrite B7).
    pose proof (Data_run p' w' (big_SetBytes b) Hx) as HD. cbv zeta in HD. rewrite HD; clear HD.
    + rewrite Henc, B7, Hpl. fold l. rewrite B3.
      destruct (Z.ltb_spec (PickLen p) (Z.of_nat (length d))) as [?|_]; [lia|].
      rewrite B4, Nat2Z.id. by rewrite take_ge by lia.
    + rewrite B7. fold l. lia.
    + rewrite B7. fold l.
      destruct (Bytes_padded (Z.to_nat l) (big_SetBytes b)) as [Hle _]; [|lia].
      pose proof (SetBytes_bound b B2) as Hb. by rewrite B1 in Hb.
    + rewrite Hpl, B7. fold l. lia.
  - unfold Pick in H. cbv beta zeta in H. cbn [default id] in H.
    assert (Hdl : (if Z.of_nat (length d) <? PickLen p then Z.of_nat (length d) else PickLen p)
                  = Z.of_nat (length d)).
    { destruct (Z.ltb_spec (Z.of_nat (length d)) (PickLen p)); lia. }
    rewrite Hdl in H.
    pose proof (PickLen_room (big_BitLen (cp_P (c_p (pt_c p))))) as Hroom.
    fold (PickLen p) in Hroom. rewrite <- Hcl in Hroom.
    specialize (Hroom ltac:(lia)).
    clear Hdl.
    destruct (Pick_loop_inv fuel p d (coordLen (pt_c p)) (Z.of_nat (length d)) w p' rest w'
                Hrnd Hd Hcl ltac:(lia) ltac:(lia) ltac:(lia) H)
      as (b & lx & _ & _ & _ & _ & _ & _ & _ & -> & _).
    rewrite Nat2Z.id. by apply drop_ge.
Qed.

(** *** Validity *)

(** C7. [Valid] returns true exactly when the coordinates satisfy the
    curve's membership test or are both zero. *)
Theorem Valid_iff p w x y :
  load (pt_x p) w = Ret x w -> load (pt_y p) w = Ret y w ->
  exists b, Valid p w = Ret b w /\
    (b = true <-> c_IsOnCurve (pt_c p) x y = true \/ (x = 0 /\ y = 0)).
Proof.
  intros Hx Hy. eexists. split.
  - unfold Valid. rewrite (bind_run _ _ _ _ _ Hx), (bind_run _ _ _ _ _ Hy). reflexivity.
  - rewrite orb_true_iff, andb_true_iff, !Z.eqb_eq, !Z.sgn_null_iff. tauto.
Qed.

Lemma Valid_run p w x y :
  load (pt_x p) w = Ret x w -> load (pt_y p) w = Ret y w ->
  Valid p w = Ret (c_IsOnCurve (pt_c p) x y || ((Z.sgn x =? 0) && (Z.sgn y =? 0))) w.
Proof.
  intros Hx Hy. unfold Valid.
  by rewrite (bind_run _ _ _ _ _ Hx), (bind_run _ _ _ _ _ Hy).
Qed.

(** *** Reduction in place *)

Lemma big_Mod_idem v m : m <> 0 -> big_Mod (big_Mod v m) m = big_Mod v m.
Proof. intros Hm. unfold big_Mod. apply Z.mod_mod. lia. Qed.

Lemma big_Mod_residue v m : m <> 0 -> big_Mod v m mod m = v mod m.
Proof.
  intros Hm. unfold big_Mod.
  destruct (Z.abs_eq_or_opp m) as [->| ->]; [by apply Z.mod_mod|].
  rewrite (Z.mod_eq v (- m)) by lia.
  replace (v - - m * Z.div v (- m)) with (v + Z.div v (- m) * m) by lia.
  apply Z_mod_plus_full.
Qed.

Lemma big_Mod_small v m : 0 <= v < Z.abs m -> big_Mod v m = v.
Proof. intros H. unfold big_Mod. by apply Z.mod_small. Qed.

(** One [z.Mod(z, M)]: the integer at [l] becomes the residue of what it
    held; an integer that held a residue, or [u] or its residue, still
    does. *)
Lemma Mod_in_place_step m l w v :
  m <> 0 ->
  ints w !! l = Some v \/ ints w !! l = Some (big_Mod v m) ->
  exists w', Mod_in_place (Some l) m w = Ret tt w' /\
    rnd w' = rnd w /\ turns w' = turns w /\ length (ints w') = length (ints w) /\
    ints w' !! l = Some (big_Mod v m) /\
    (forall k u, ints w !! k = Some (big_Mod u m) -> ints w' !! k = Some (big_Mod u m)) /\
    (forall k u, ints w !! k = Some u ->
       ints w' !! k = Some u \/ ints w' !! k = Some (big_Mod u m)).
Proof.
  intros Hm Hl.
  assert (exists cur, ints w !! l = Some cur /\ big_Mod cur m = big_Mod v m) as (cur & Hc & Hcur).
  { destruct Hl as [H|H]; eexists; (split; [exact H|]); [done|by apply big_Mod_idem]. }
  assert (Hlt : (l < length (ints w))%nat) by (by eapply lookup_lt_Some).
  eexists. split.
  { unfold Mod_in_place. rewrite (bind_run _ _ _ _ _ (load_run l w cur Hc)).
    destruct (Z.eqb_spec m 0) as [?|_]; [done|].
    unfold store. destruct (Nat.ltb_spec l (length (ints w))) as [_|?]; [reflexivity|lia]. }
  cbn [ints rnd turns]. rewrite length_insert, Hcur.
  split; [done|]. split; [done|]. split; [done|].
  split; [by apply list_lookup_insert_eq|]. split.
  - intros k u Hk. destruct (decide (k = l)) as [->|Hne].
    + rewrite list_lookup_insert_eq by done. rewrite Hc in Hk. injection Hk as ->.
      by rewrite <- Hcur, big_Mod_idem.
    + by rewrite list_lookup_insert_ne.
  - intros k u Hk. destruct (decide (k = l)) as [->|Hne].
    + right. rewrite list_lookup_insert_eq by done. rewrite Hc in Hk. injection Hk as ->.
      by rewrite Hcur.
    + left. by rewrite list_lookup_insert_ne.
Qed.

(** What a run of [Mod_in_place] did. *)
Lemma Mod_in_place_inv z m w u w' :
  Mod_in_place z m w = Ret u w' ->
  exists l v, z = Some l /\ ints w !! l = Some v /\ m <> 0 /\
    w' = NWorld (<[l := big_Mod v m]> (ints w)) (rnd w) (turns w).
Proof.
  intros H. unfold Mod_in_place in H. bind_inv H.
  apply load_inv in Hrun as (-> & l & -> & Hl).
  destruct (Z.eqb_spec m 0) as [?|Hm]; [done|].
  unfold store in H. destruct (l <? length (ints w))%nat; [|done].
  injection H as _ <-. by exists l, a.
Qed.

Lemma reduced_refl m w : reduced m w w.
Proof. repeat split; auto. Qed.

(** A further [z.Mod(z, M)] after some reductions. *)
Lemma Mod_in_place_next m l w0 w v :
  m <> 0 -> reduced m w0 w -> ints w0 !! l = Some v ->
  exists w', Mod_in_place (Some l) m w = Ret tt w' /\ reduced m w0 w' /\
    ints w' !! l = Some (big_Mod v m) /\
    (forall k u, ints w !! k = Some (big_Mod u m) -> ints w' !! k = Some (big_Mod u m)).
Proof.
  intros Hm (R1 & R2 & R3 & R4) Hl.
  destruct (Mod_in_place_step m l w v Hm (R4 l v Hl)) as (w' & Hrun & S1 & S2 & S3 & S4 & S5 & S6).
  exists w'. split; [done|]. split; [|by split].
  split; [congruence|]. split; [congruence|]. split; [congruence|].
  intros k u Hk. destruct (R4 k u Hk) as [H|H]; [by apply S6 | right; by apply S5].
Qed.

(** [Equal] compares the residues of the coordinates, and leaves every
    integer as it was or reduced. *)
Lemma Equal_run p q w x1 y1 x2 y2 :
  let m := cp_P (c_p (pt_c p)) in
  m <> 0 ->
  load (pt_x p) w = Ret x1 w -> load (pt_y p) w = Ret y1 w ->
  load (pt_x q) w = Ret x2 w -> load (pt_y q) w = Ret y2 w ->
  exists w', Equal p q w =
      Ret ((big_Mod x1 m =? big_Mod x2 m) && (big_Mod y1 m =? big_Mod y2 m)) w' /\
    reduced m w w'.
Proof.
  intros m Hm Hx1 Hy1 Hx2 Hy2.
  apply load_inv in Hx1 as (_ & lx1 & Ex1 & Hx1). apply load_inv in Hy1 as (_ & ly1 & Ey1 & Hy1).
  apply load_inv in Hx2 as (_ & lx2 & Ex2 & Hx2). apply load_inv in Hy2 as (_ & ly2 & Ey2 & Hy2).
  destruct (Mod_in_place_next m lx1 w w x1 Hm (reduced_refl m w) Hx1) as (w1 & A1 & R1 & V1 & _).
  destruct (Mod_in_place_next m ly1 w w1 y1 Hm R1 Hy1) as (w2 & A2 & R2 & V2 & K2).
  destruct (Mod_in_place_next m lx2 w w2 x2 Hm R2 Hx2) as (w3 & A3 & R3 & V3 & K3).
  destruct (Mod_in_place_next m ly2 w w3 y2 Hm R3 Hy2) as (w4 & A4 & R4 & V4 & K4).
  exists w4. split; [|done].
  unfold Equal. fold m. rewrite Ex1, Ey1, Ex2, Ey2.
  rewrite (bind_run _ _ _ _ _ A1), (bind_run _ _ _ _ _ A2),
          (bind_run _ _ _ _ _ A3), (bind_run _ _ _ _ _ A4).
  rewrite (bind_run _ _ _ _ _ (load_run lx1 w4 _ (K4 _ _ (K3 _ _ (K2 _ _ V1))))).
  rewrite (bind_run _ _ _ _ _ (load_run lx2 w4 _ (K4 _ _ V3))).
  rewrite (bind_run _ _ _ _ _ (load_run ly1 w4 _ (K4 _ _ (K3 _ _ V2)))).
  rewrite (bind_run _ _ _ _ _ (load_run ly2 w4 _ V4)).
  reflexivity.
Qed.

Lemma reduced_residues m w w' : m <> 0 -> reduced m w w' -> same_residues m w w'.
Proof.
  intros Hm (_ & _ & _ & R) l v Hl.
  destruct (R l v Hl) as [H|H]; eexists; (split; [exact H|]); [done|by apply big_Mod_residue].
Qed.

(** *** The encoding of points *)

Lemma or_bytes_run bs : forall c w,
  or_bytes bs c w = Ret (fold_left Z.lor bs c) (NWorld (ints w) (rnd w) (turns w + length bs)).
Proof.
  induction bs as [|b bs IH]; intros c w; cbn [or_bytes fold_left length].
  - destruct w. cbn. by rewrite Nat.add_0_r.
  - unfold bind, loop_turn. rewrite IH. cbn [ints rnd turns]. do 2 f_equal. lia.
Qed.

Lemma all_zero_replicate (bs : list Z) :
  forallb (Z.eqb 0) bs = true <-> bs = replicate (length bs) 0.
Proof.
  induction bs as [|b bs IH]; cbn [forallb length replicate]; [done|].
  rewrite andb_true_iff, Z.eqb_eq, IH. split.
  - intros [<- H]. f_equal. exact H.
  - intros [= <- H]. done.
Qed.

Lemma SetBytes_zeros n : big_SetBytes (replicate n 0) = 0.
Proof.
  induction n as [|n IH]; [done|].
  cbn [replicate]. rewrite SetBytes_cons, IH. lia.
Qed.

(** The bytes of [x] and [y] are all zero exactly for the origin. *)
Lemma body_zero_iff n x y :
  0 <= x < 256 ^ Z.of_nat n -> 0 <= y < 256 ^ Z.of_nat n ->
  forallb (Z.eqb 0) (to_be n x ++ to_be n y) = true <-> x = 0 /\ y = 0.
Proof.
  intros Hx Hy. rewrite forallb_app, andb_true_iff, !all_zero_replicate, !to_be_length. split.
  - intros [Ex Ey]. split.
    + rewrite <- (SetBytes_to_be n x Hx), Ex. apply SetBytes_zeros.
    + rewrite <- (SetBytes_to_be n y Hy), Ey. apply SetBytes_zeros.
  - intros [-> ->]. by rewrite to_be_zero.
Qed.

(** Copying the bytes of a coordinate to the right end of its field of
    [n] zero bytes gives its [n]-byte big-endian form. *)
Lemma copy_into_field (pre post : list Z) (n : nat) x (w : nworld) :
  0 <= x < 256 ^ Z.of_nat n ->
  let r := pre ++ replicate n 0 ++ post in
  copy_into r (Z.of_nat (length pre + n) - Z.of_nat (length (big_Bytes x)))
            (Z.of_nat (length r)) (big_Bytes x) w
  = Ret (pre ++ to_be n x ++ post) w.
Proof.
  intros Hx r. destruct (Bytes_padded n x Hx) as [Hk Hpad].
  set (xB := big_Bytes x) in *. set (k := length xB) in *.
  assert (Hr : length r = (length pre + n + length post)%nat).
  { unfold r. rewrite !length_app, length_replicate. lia. }
  unfold copy_into.
  rewrite (bind_run _ _ _ _ _ (subslice_run r (Z.of_nat (length pre + n) - Z.of_nat k)
                                 (Z.of_nat (length r)) w ltac:(lia) ltac:(lia))).
  cbv [ret]. f_equal.
  rewrite length_take, length_drop.
  replace (Z.to_nat (Z.of_nat (length pre + n) - Z.of_nat k)) with (length pre + (n - k))%nat by lia.
  replace (Nat.min (Nat.min (Z.to_nat (Z.of_nat (length r) - (Z.of_nat (length pre + n) - Z.of_nat k)))
                            (length r - (length pre + (n - k)))) (length xB)) with k by (fold k; lia).
  rewrite (take_ge xB k) by (fold k; lia).
  replace (length pre + (n - k) + k)%nat with (length pre + n)%nat by lia.
  unfold r. rewrite (take_app_add' pre), (drop_app_add' pre) by done.
  rewrite take_app_le by (rewrite length_replicate; lia).
  rewrite take_replicate, drop_app_length' by (by rewrite length_replicate).
  replace (Nat.min (n - k) n) with (n - k)%nat by lia.
  rewrite <- Hpad. by rewrite <- !app_assoc.
Qed.

Lemma set_index_run (b : list Z) i v (w : nworld) :
  0 <= i < Z.of_nat (length b) -> set_index b i v w = Ret (<[Z.to_nat i := v]> b) w.
Proof.
  intros H. unfold set_index.
  destruct (Z.leb_spec 0 i); [|lia]. by destruct (Z.ltb_spec i (Z.of_nat (length b))); [|lia].
Qed.

Lemma make_bytes_run n (w : nworld) :
  0 <= n -> make_bytes n w = Ret (replicate (Z.to_nat n) 0) w.
Proof. intros H. unfold make_bytes. by destruct (Z.leb_spec 0 n); [|lia]. Qed.

Lemma elliptic_Marshal_run c x y (w : nworld) :
  let n := Z.shiftr (cp_BitSize (c_p c) + 7) 3 in
  0 <= n -> 0 <= x < 256 ^ n -> 0 <= y < 256 ^ n ->
  elliptic_Marshal c x y w = Ret (4 :: to_be (Z.to_nat n) x ++ to_be (Z.to_nat n) y) w.
Proof.
  intros n Hn Hx Hy. unfold elliptic_Marshal. fold n.
  set (N := Z.to_nat n).
  rewrite <- (Z2Nat.id n Hn) in Hx, Hy. fold N in Hx, Hy.
  rewrite (bind_run _ _ _ _ _ (make_bytes_run (1 + 2 * n) w ltac:(lia))).
  replace (Z.to_nat (1 + 2 * n)) with (S (N + N)) by lia.
  rewrite (bind_run _ _ _ _ _ (set_index_run (replicate (S (N + N)) 0) 0 4 w
                                 ltac:(rewrite length_replicate; lia))).
  change (<[Z.to_nat 0:=4]> (replicate (S (N + N)) 0)) with ([4] ++ replicate (N + N) 0).
  rewrite replicate_add.
  pose proof (copy_into_field [4] (replicate N 0) N x w Hx) as Cx. cbv zeta in Cx.
  replace (1 + n - Z.of_nat (length (big_Bytes x)))
    with (Z.of_nat (length [4] + N) - Z.of_nat (length (big_Bytes x))) by (cbn [length]; lia).
  rewrite (bind_run _ _ _ _ _ Cx).
  pose proof (copy_into_field ([4] ++ to_be N x) [] N y w Hy) as Cy. cbv zeta in Cy.
  rewrite !app_nil_r in Cy. rewrite <- app_assoc in Cy.
  replace (1 + 2 * n - Z.of_nat (length (big_Bytes y)))
    with (Z.of_nat (length ([4] ++ to_be N x) + N) - Z.of_nat (length (big_Bytes y)))
    by (rewrite length_app, to_be_length; cbn [length]; lia).
  rewrite (bind_run _ _ _ _ _ Cy). by rewrite <- app_assoc.
Qed.

(** Go's decoder reads back what its encoder wrote. *)
Lemma elliptic_Unmarshal_Marshal c x y :
  let n := Z.shiftr (cp_BitSize (c_p c) + 7) 3 in
  0 <= n -> 0 <= x < 256 ^ n -> 0 <= y < 256 ^ n ->
  elliptic_Unmarshal c (4 :: to_be (Z.to_nat n) x ++ to_be (Z.to_nat n) y)
  = if c_IsOnCurve c x y then Some (x, y) else None.
Proof.
  intros n Hn Hx Hy. unfold elliptic_Unmarshal. fold n.
  set (N := Z.to_nat n).
  rewrite <- (Z2Nat.id n Hn) in Hx, Hy. fold N in Hx, Hy.
  cbn [length hd]. rewrite length_app, !to_be_length.
  destruct (Z.eqb_spec (Z.of_nat (S (N + N))) (1 + 2 * n)) as [_|?]; [|lia].
  cbn [negb Z.eqb]. 
  replace (Z.to_nat (1 + n)) with (S N) by lia.
  cbn [drop]. rewrite drop_0.
  rewrite take_app_length' by (by rewrite to_be_length).
  rewrite drop_app_length' by (by rewrite to_be_length).
  by rewrite !SetBytes_to_be.
Qed.

Lemma lor_zero_all (bs : list Z) :
  (fold_left Z.lor bs 0 =? 0) = forallb (Z.eqb 0) bs.
Proof.
  destruct (forallb (Z.eqb 0) bs) eqn:E.
  - apply Z.eqb_eq, fold_lor_zero. by split.
  - apply Z.eqb_neq. intros H. apply fold_lor_zero in H as [_ H]. congruence.
Qed.

(** [UnmarshalBinary] on a buffer of at least one byte: an all-zero body
    gives the origin, whatever the first byte and the length; otherwise
    the outcome is that of Go's decoder. *)
Lemma UnmarshalBinary_run p h body w :
  UnmarshalBinary p (h :: body) w =
    let n := length (ints w) in
    let t := (turns w + length body)%nat in
    if forallb (Z.eqb 0) body
    then Ret (with_xy p (Some n) (Some (S n)), None) (NWorld (ints w ++ [0; 0]) (rnd w) t)
    else match elliptic_Unmarshal (pt_c p) (h :: body) with
         | None => Ret (with_xy p None None, Some ErrInvalidPoint) (NWorld (ints w) (rnd w) t)
         | Some (x, y) =>
             Ret (with_xy p (Some n) (Some (S n)), None) (NWorld (ints w ++ [x; y]) (rnd w) t)
         end.
Proof.
  unfold UnmarshalBinary.
  rewrite (bind_run _ _ _ _ _ (subslice_run (h :: body) 1 (Z.of_nat (length (h :: body))) w
                                 ltac:(cbn [length]; lia) ltac:(lia))).
  replace (Z.to_nat (Z.of_nat (length (h :: body)) - 1)) with (length body) by (cbn [length]; lia).
  change (drop (Z.to_nat 1) (h :: body)) with body. rewrite firstn_all.
  rewrite (bind_run _ _ _ _ _ (or_bytes_run body 0 w)).
  rewrite lor_zero_all. cbv zeta.
  destruct (forallb (Z.eqb 0) body); cbn [negb].
  - unfold bind, new_int. cbn [ints rnd turns]. cbv [ret].
    rewrite length_app, <- app_assoc. cbn [length app]. do 4 f_equal. lia.
  - destruct (elliptic_Unmarshal (pt_c p) (h :: body)) as [[x y]|] eqn:E; [|done].
    assert (Hon : c_IsOnCurve (pt_c p) x y = true).
    { unfold elliptic_Unmarshal in E.
      repeat match type of E with (if ?b then _ else _) = _ => destruct b eqn:?; [|done] end;
      repeat match type of E with (if ?b then _ else _) = _ => destruct b eqn:?; try done end.
      by injection E as <- <-. }
    unfold bind at 1. unfold new_int at 1. unfold bind at 1. unfold new_int at 1.
    cbn [ints rnd turns].
    rewrite length_app, <- app_assoc. cbn [length app].
    replace (length (ints w) + 1)%nat with (S (length (ints w))) by lia.
    set (w2 := NWorld (ints w ++ [x; y]) (rnd w) (turns w + length body)).
    set (q := with_xy p (Some (length (ints w))) (Some (S (length (ints w))))).
    assert (Lx : load (pt_x q) w2 = Ret x w2).
    { apply load_run. cbn [ints w2]. rewrite lookup_app_r by lia. by rewrite Nat.sub_diag. }
    assert (Ly : load (pt_y q) w2 = Ret y w2).
    { apply load_run. cbn [ints w2]. rewrite lookup_app_r by lia.
      by replace (S (length (ints w)) - length (ints w))%nat with 1%nat by lia. }
    rewrite (bind_run _ _ _ _ _ (Valid_run q w2 x y Lx Ly)).
    change (pt_c q) with (pt_c p). rewrite Hon. done.
Qed.

Lemma MarshalBinary_run p w x y :
  load (pt_x p) w = Ret x w -> load (pt_y p) w = Ret y w ->
  let n := Z.shiftr (cp_BitSize (c_p (pt_c p)) + 7) 3 in
  0 <= n -> 0 <= x < 256 ^ n -> 0 <= y < 256 ^ n ->
  MarshalBinary p w = Ret (4 :: to_be (Z.to_nat n) x ++ to_be (Z.to_nat n) y, None) w.
Proof.
  intros Hx Hy n Hn Rx Ry. unfold MarshalBinary.
  rewrite (bind_run _ _ _ _ _ Hx), (bind_run _ _ _ _ _ Hy).
  by rewrite (bind_run _ _ _ _ _ (elliptic_Marshal_run (pt_c p) x y w Hn Rx Ry)).
Qed.

(** C8, as the code has it.  A valid point whose coordinates fit the
    coordinate length is encoded, and the encoding decoded to a point
    [Equal] to it; the origin is encoded with an all-zero body.  Every
    buffer of at least one byte whose bytes after the first are all zero
    is decoded as the origin, all of these bytes being read; a buffer with
    a nonzero byte after the first is refused with an error exactly when
    Go's decoder gives no point of the curve for it. *)
Theorem Marshal_then_Unmarshal p q w x y :
  load (pt_x p) w = Ret x w -> load (pt_y p) w = Ret y w ->
  pt_c q = pt_c p ->
  let n := Z.shiftr (cp_BitSize (c_p (pt_c p)) + 7) 3 in
  0 <= n -> 0 <= x < 256 ^ n -> 0 <= y < 256 ^ n ->
  cp_P (c_p (pt_c p)) <> 0 ->
  Valid p w = Ret true w ->
  (exists buf q' w' w'',
     MarshalBinary p w = Ret (buf, None) w /\
     UnmarshalBinary q buf w = Ret (q', None) w' /\
     load (pt_x q') w' = Ret x w' /\ load (pt_y q') w' = Ret y w' /\
     Equal q' p w' = Ret true w'' /\
     (x = 0 /\ y = 0 -> buf = 4 :: replicate (Z.to_nat (2 * n)) 0)) /\
  (forall r h body w0,
     (forallb (Z.eqb 0) body = true ->
      exists r' w1, UnmarshalBinary r (h :: body) w0 = Ret (r', None) w1 /\
        load (pt_x r') w1 = Ret 0 w1 /\ load (pt_y r') w1 = Ret 0 w1 /\
        turns w1 = (turns w0 + length body)%nat) /\
     (forallb (Z.eqb 0) body = false ->
      ((exists r' w1, UnmarshalBinary r (h :: body) w0 = Ret (r', Some ErrInvalidPoint) w1) <->
       elliptic_Unmarshal (pt_c r) (h :: body) = None))).
Proof.
  intros Hx Hy Hc n Hn Rx Ry HP Hv. split.
  - set (N := Z.to_nat n).
    assert (Rx' : 0 <= x < 256 ^ Z.of_nat N) by (unfold N; by rewrite Z2Nat.id).
    assert (Ry' : 0 <= y < 256 ^ Z.of_nat N) by (unfold N; by rewrite Z2Nat.id).
    rewrite (Valid_run p w x y Hx Hy) in Hv. injection Hv as Hv.
    set (w' := NWorld (ints w ++ [x; y]) (rnd w) (turns w + length (to_be N x ++ to_be N y))).
    set (q' := with_xy q (Some (length (ints w))) (Some (S (length (ints w))))).
    assert (HU : UnmarshalBinary q (4 :: to_be N x ++ to_be N y) w = Ret (q', None) w').
    { rewrite UnmarshalBinary_run. cbv zeta.
      destruct (forallb (Z.eqb 0) (to_be N x ++ to_be N y)) eqn:Hz.
      - apply body_zero_iff in Hz as [-> ->]; done.
      - rewrite Hc. pose proof (elliptic_Unmarshal_Marshal (pt_c p) x y Hn Rx Ry) as HM.
        cbv zeta in HM. fold n N in HM. rewrite HM.
        destruct (c_IsOnCurve (pt_c p) x y); [done|]. cbn [orb] in Hv.
        apply andb_true_iff in Hv as [Ex Ey].
        apply Z.eqb_eq in Ex, Ey. apply -> Z.sgn_null_iff in Ex. apply -> Z.sgn_null_iff in Ey.
        by rewrite (proj2 (body_zero_iff N x y Rx' Ry') (conj Ex Ey)) in Hz. }
    assert (Lx : load (pt_x q') w' = Ret x w').
    { apply load_run. cbn [ints w']. rewrite lookup_app_r by lia. by rewrite Nat.sub_diag. }
    assert (Ly : load (pt_y q') w' = Ret y w').
    { apply load_run. cbn [ints w']. rewrite lookup_app_r by lia.
      by replace (S (length (ints w)) - length (ints w))%nat with 1%nat by lia. }
    apply load_inv in Hx as (_ & lx & Ex & Hx). apply load_inv in Hy as (_ & ly & Ey & Hy).
    assert (Px : load (pt_x p) w' = Ret x w').
    { rewrite Ex. apply load_run. cbn [ints w']. by apply lookup_app_l_Some. }
    assert (Py : load (pt_y p) w' = Ret y w').
    { rewrite Ey. apply load_run. cbn [ints w']. by apply lookup_app_l_Some. }
    destruct (Equal_run q' p w' x y x y) as (w'' & HE & _); try done.
    { change (pt_c q') with (pt_c q). by rewrite Hc. }
    rewrite !Z.eqb_refl in HE.
    exists (4 :: to_be N x ++ to_be N y), q', w', w''.
    split; [apply MarshalBinary_run; by rewrite ?Ex, ?Ey; try apply load_run|].
    split; [done|]. split; [done|]. split; [done|]. split; [done|].
    intros [-> ->]. rewrite !to_be_zero, <- replicate_add. do 2 f_equal. lia.
  - intros r h body w0. rewrite (UnmarshalBinary_run r h body w0). cbv zeta. split; intros Hz; rewrite Hz.
    + eexists _, _. split; [reflexivity|]. cbn [pt_x pt_y with_xy turns].
      split; [|split; [|done]]; apply load_run; cbn [ints];
        rewrite lookup_app_r by lia.
      * by rewrite Nat.sub_diag.
      * by replace (S (length (ints w0)) - length (ints w0))%nat with 1%nat by lia.
    + destruct (elliptic_Unmarshal (pt_c r) (h :: body)) as [[x' y']|].
      * split; [|done]. by intros (r' & w1 & [=]).
      * split; [done|]. intros _. by eexists _, _.
Qed.

(** *** What the methods write *)

Lemma steps_same w w' : ints w' = ints w -> rnd w' = rnd w -> steps w w'.
Proof.
  intros Hi Hr. split; [exists []; by rewrite app_nil_r|].
  exists 0%nat. intros i. by rewrite Hr.
Qed.

Lemma ret_inv {A} (a : A) (w : nworld) r w' : ret a w = Ret r w' -> r = a /\ w' = w.
Proof. by intros [= <- <-]. Qed.

Lemma index_inv (b : list Z) i (w : nworld) r w' : index b i w = Ret r w' -> w' = w.
Proof. unfold index. destruct (_ && _); [by intros [= _ <-]|done]. Qed.

Lemma make_bytes_inv n (w : nworld) r w' : make_bytes n w = Ret r w' -> w' = w.
Proof. unfold make_bytes. destruct (0 <=? n); [by intros [= _ <-]|done]. Qed.

Lemma copy_into_inv (b : list Z) lo hi src (w : nworld) r w' :
  copy_into b lo hi src w = Ret r w' -> w' = w.
Proof.
  unfold copy_into. intros H. bind_inv H. apply subslice_inv in Hrun as (-> & _).
  by injection H as _ <-.
Qed.

Lemma Valid_inv p w b w' : Valid p w = Ret b w' -> w' = w.
Proof.
  unfold Valid. intros H. bind_inv H. apply load_inv in Hrun as (-> & _).
  bind_inv H. apply load_inv in Hrun as (-> & _). by injection H as _ <-.
Qed.

Lemma Data_inv p w r w' : Data p w = Ret r w' -> w' = w.
Proof.
  unfold Data. intros H. bind_inv H. apply load_inv in Hrun as (-> & _).
  bind_inv H. apply index_inv in Hrun as ->.
  destruct (PickLen p <? a0); [by injection H as _ <-|].
  bind_inv H. apply subslice_inv in Hrun as (-> & _). by injection H as _ <-.
Qed.

Lemma elliptic_Marshal_inv c x y (w : nworld) r w' :
  elliptic_Marshal c x y w = Ret r w' -> w' = w.
Proof.
  unfold elliptic_Marshal. intros H.
  bind_inv H. apply make_bytes_inv in Hrun as ->.
  bind_inv H. apply set_index_inv in Hrun as (-> & _).
  bind_inv H. apply copy_into_inv in Hrun as ->.
  bind_inv H. apply copy_into_inv in Hrun as ->.
  by injection H as _ <-.
Qed.

Lemma MarshalBinary_inv p w r w' : MarshalBinary p w = Ret r w' -> w' = w.
Proof.
  unfold MarshalBinary. intros H.
  bind_inv H. apply load_inv in Hrun as (-> & _).
  bind_inv H. apply load_inv in Hrun as (-> & _).
  bind_inv H. apply elliptic_Marshal_inv in Hrun as ->.
  by injection H as _ <-.
Qed.

(** Two new integers for the coordinates of [p]. *)
Lemma new_xy_steps p x y w p' w' :
  (do x <- new_int x; do y <- new_int y; ret (with_xy p x y)) w = Ret p' w' ->
  steps w w' /\ pt_c p' = pt_c p.
Proof.
  intros H. bind_inv H. pose proof (new_int_steps _ _ _ _ Hrun) as S1.
  bind_inv H. pose proof (new_int_steps _ _ _ _ Hrun0) as S2.
  injection H as <- <-. split; [by eapply steps_trans|done].
Qed.

Lemma Null_steps p w p' w' : Null p w = Ret p' w' -> steps w w' /\ pt_c p' = pt_c p.
Proof. apply new_xy_steps. Qed.

Lemma Add_steps p a b w p' w' : Add p a b w = Ret p' w' -> steps w w' /\ pt_c p' = pt_c p.
Proof.
  unfold Add. intros H.
  do 4 (bind_inv H; apply load_inv in Hrun as (-> & _)).
  destruct (c_Add _ _ _ _ _) as [x y]. by apply new_xy_steps in H.
Qed.

Lemma Mul_steps p b s w p' w' : Mul p b s w = Ret p' w' -> steps w w' /\ pt_c p' = pt_c p.
Proof.
  unfold Mul. intros H. destruct b as [cb|].
  - do 2 (bind_inv H; apply load_inv in Hrun as (-> & _)).
    destruct (c_ScalarMult _ _ _ _) as [x y]. by apply new_xy_steps in H.
  - destruct (c_ScalarBaseMult _ _) as [x y]. by apply new_xy_steps in H.
Qed.

Lemma Neg_steps p a w p' w' : Neg p a w = Ret p' w' -> steps w w' /\ pt_c p' = pt_c p.
Proof. apply Mul_steps. Qed.

Lemma Sub_steps p a b w p' w' : Sub p a b w = Ret p' w' -> steps w w' /\ pt_c p' = pt_c p.
Proof.
  unfold Sub. intros H. bind_inv H. apply Neg_steps in Hrun as [S1 _].
  do 4 (bind_inv H; apply load_inv in Hrun as (-> & _)).
  destruct (c_Add _ _ _ _ _) as [x y]. apply new_xy_steps in H as [S2 Hc].
  split; [by eapply steps_trans|done].
Qed.

Lemma random_Bits_steps bitlen w b w' : random_Bits bitlen w = Ret b w' -> steps w w'.
Proof.
  unfold random_Bits. intros H. bind_inv H. apply XORKeyStream_steps in Hrun.
  destruct (negb _); by injection H as _ <-.
Qed.

Lemma Pick_loop_steps fuel : forall p data l dl w r w',
  Pick_loop fuel p data l dl w = Ret r w' ->
  steps w w' /\ forall p' rest, r = Some (p', rest) -> pt_c p' = pt_c p.
Proof.
  induction fuel as [|fuel IH]; intros p data l dl w r w' H; cbn [Pick_loop] in H.
  { injection H as <- <-. split; [apply steps_refl|done]. }
  apply bind_Ret_inv in H as (b0 & wa & Ha & H). apply random_Bits_steps in Ha as S1.
  apply bind_Ret_inv in H as (b1 & wb & Hb & H).
  assert (wb = wa) as ->.
  { destruct data as [d|].
    - apply bind_Ret_inv in Hb as (b2 & wc & Hc & Hb).
      apply set_index_inv in Hc as (-> & _). by apply copy_into_inv in Hb.
    - by injection Hb as _ <-. }
  apply bind_Ret_inv in H as (x & wc & Hc & H). apply new_int_steps in Hc as S2.
  apply bind_Ret_inv in H as ([q ok] & wd & Hd & H).
  destruct (genPoint_inv _ _ _ _ _ _ Hd) as (S3 & Hq & _ & _).
  assert (S13 : steps w wd) by (eapply steps_trans; [exact S1|]; by eapply steps_trans).
  destruct ok.
  - apply bind_Ret_inv in H as (rest & we & He & H).
    apply subslice_inv in He as (-> & _). injection H as <- <-.
    split; [done|]. by intros p' rest' [= <- _].
  - apply IH in H as [S4 Hp]. split; [by eapply steps_trans|done].
Qed.

Lemma UnmarshalBinary_steps p buf w r w' :
  UnmarshalBinary p buf w = Ret r w' -> steps w w' /\ pt_c (fst r) = pt_c p.
Proof.
  destruct buf as [|h body].
  { unfold UnmarshalBinary. intros H. bind_inv H.
    apply subslice_inv in Hrun as (_ & ? & ? & _). cbn [length] in *. lia. }
  rewrite UnmarshalBinary_run. cbv zeta.
  destruct (forallb _ body); [|destruct (elliptic_Unmarshal _ _) as [[x y]|]];
    intros [= <- <-]; (split; [|done]); split; cbn [ints rnd];
    first [by eexists | by exists []; rewrite app_nil_r | by exists 0%nat].
Qed.

(** A run of [Equal] reduced integers, and wrote nothing else. *)
Lemma Equal_inv p q w b w' :
  Equal p q w = Ret b w' ->
  cp_P (c_p (pt_c p)) <> 0 /\ reduced (cp_P (c_p (pt_c p))) w w'.
Proof.
  intros H. pose proof H as H0. unfold Equal in H0.
  set (m := cp_P (c_p (pt_c p))) in *.
  apply bind_Ret_inv in H0 as (u1 & w1 & M1 & H0).
  apply Mod_in_place_inv in M1 as (l1 & v1 & E1 & L1 & Hm & ->).
  apply bind_Ret_inv in H0 as (u2 & w2 & M2 & H0).
  apply Mod_in_place_inv in M2 as (l2 & v2 & E2 & L2 & _ & ->).
  apply bind_Ret_inv in H0 as (u3 & w3 & M3 & H0).
  apply Mod_in_place_inv in M3 as (l3 & v3 & E3 & L3 & _ & ->).
  apply bind_Ret_inv in H0 as (u4 & w4 & M4 & _).
  apply Mod_in_place_inv in M4 as (l4 & v4 & E4 & L4 & _ & _).
  apply lookup_lt_Some in L1, L2, L3, L4. cbn [ints] in *.
  rewrite ?length_insert in *.
  destruct (lookup_lt_is_Some_2 _ _ L1) as [x1 X1].
  destruct (lookup_lt_is_Some_2 _ _ L2) as [y1 Y1].
  destruct (lookup_lt_is_Some_2 _ _ L3) as [x2 X2].
  destruct (lookup_lt_is_Some_2 _ _ L4) as [y2 Y2].
  destruct (Equal_run p q w x1 y1 x2 y2 Hm) as (w'' & HE & HR).
  - rewrite E1. by apply load_run.
  - rewrite E2. by apply load_run.
  - rewrite E3. by apply load_run.
  - rewrite E4. by apply load_run.
  - rewrite HE in H. injection H as _ <-. by split.
Qed.

Lemma steps_residues m w w' : steps w w' -> same_residues m w w'.
Proof. intros S l v Hl. exists v. split; [by eapply steps_lookup|done]. Qed.

Lemma same_residues_trans m w1 w2 w3 :
  same_residues m w1 w2 -> same_residues m w2 w3 -> same_residues m w1 w3.
Proof.
  intros A B l v Hl. destruct (A l v Hl) as (v' & Hl' & E).
  destruct (B l v' Hl') as (v'' & Hl'' & E'). exists v''. split; [done|congruence].
Qed.

Lemma with_point_inv c pts i f w pts' w' :
  with_point c pts i f w = Some (pts', w') ->
  exists p p', pts !! i = Some p /\ f p w = Ret p' w' /\ pts' = <[i := p']> pts.
Proof.
  unfold with_point. destruct (pts !! i) as [p|]; [|done].
  destruct (f p w) as [p' w1|] eqn:E; [|done]. intros [= <- <-]. by exists p, p'.
Qed.

(** A method call through the table: the points keep their curve when
    the method does. *)
Lemma with_point_frame c pts i f w pts' w' (R : nworld -> nworld -> Prop) :
  Forall (fun p => pt_c p = c) pts ->
  (forall p p', pts !! i = Some p -> f p w = Ret p' w' -> R w w' /\ pt_c p' = pt_c p) ->
  with_point c pts i f w = Some (pts', w') ->
  Forall (fun p => pt_c p = c) pts' /\ R w w'.
Proof.
  intros Hall Hf H. apply with_point_inv in H as (p & p' & Hp & Hrun & ->).
  destruct (Hf p p' Hp Hrun) as [HR Hc]. split; [|done].
  apply Forall_insert; [done|]. rewrite Hc.
  by apply (Forall_lookup_1 _ _ _ _ Hall Hp).
Qed.

(** One method call: it allocates, or, for [Equal], reduces. *)
Lemma exec_frame c o pts w pts' w' :
  Forall (fun p => pt_c p = c) pts ->
  exec c o (pts, w) = Some (pts', w') ->
  Forall (fun p => pt_c p = c) pts' /\
  (if is_Equal o then cp_P (c_p c) <> 0 /\ reduced (cp_P (c_p c)) w w' else steps w w').
Proof.
  intros Hall H. destruct o; cbn [exec is_Equal] in H |- *.
  - injection H as <- <-. split; [|apply steps_refl].
    apply Forall_app. split; [done|]. by constructor.
  - eapply (with_point_frame _ _ _ _ _ _ _ steps); [done| |exact H]. intros p p' _. apply Null_steps.
  - eapply (with_point_frame _ _ _ _ _ _ _ steps); [done| |exact H]. intros p p' _ [= <- <-].
    split; [apply steps_refl|done].
  - destruct (pts !! j) as [q|]; [|done].
    eapply (with_point_frame _ _ _ _ _ _ _ steps); [done| |exact H]. intros p p' _ [= <- <-].
    split; [apply steps_refl|done].
  - destruct (pts !! i) as [p|] eqn:Hp; [|done]. injection H as <- <-.
    split; [|apply steps_refl]. apply Forall_app. split; [done|]. constructor; [|done].
    by apply (Forall_lookup_1 _ _ _ _ Hall Hp).
  - destruct (pts !! j) as [q|]; [|done].
    eapply (with_point_frame _ _ _ _ _ _ _
              (fun a b => cp_P (c_p c) <> 0 /\ reduced (cp_P (c_p c)) a b)); [done| |exact H].
    intros p p' Hp Hrun.
    unfold keep in Hrun. apply bind_Ret_inv in Hrun as (b & w1 & HE & Hrun).
    injection Hrun as <- <-. apply Equal_inv in HE as [Hm HR].
    rewrite (Forall_lookup_1 _ _ _ _ Hall Hp) in Hm, HR. by split.
  - eapply (with_point_frame _ _ _ _ _ _ _ steps); [done| |exact H]. intros p p' _ Hrun.
    unfold keep in Hrun. apply bind_Ret_inv in Hrun as (b & w1 & HV & Hrun).
    injection Hrun as <- <-. apply Valid_inv in HV as ->. split; [apply steps_refl|done].
  - destruct (pts !! a) as [pa|]; [|done]. destruct (pts !! b) as [pb|]; [|done].
    eapply (with_point_frame _ _ _ _ _ _ _ steps); [done| |exact H]. intros p p' _. apply Add_steps.
  - destruct (pts !! a) as [pa|]; [|done]. destruct (pts !! b) as [pb|]; [|done].
    eapply (with_point_frame _ _ _ _ _ _ _ steps); [done| |exact H]. intros p p' _. apply Sub_steps.
  - destruct (pts !! a) as [pa|]; [|done].
    eapply (with_point_frame _ _ _ _ _ _ _ steps); [done| |exact H]. intros p p' _. apply Neg_steps.
  - destruct b as [j|].
    + destruct (pts !! j) as [pb|]; [|done].
      eapply (with_point_frame _ _ _ _ _ _ _ steps); [done| |exact H]. intros p p' _. apply Mul_steps.
    + eapply (with_point_frame _ _ _ _ _ _ _ steps); [done| |exact H]. intros p p' _. apply Mul_steps.
  - eapply (with_point_frame _ _ _ _ _ _ _ steps); [done| |exact H]. intros p p' _ Hrun.
    apply bind_Ret_inv in Hrun as (r & w1 & HP & Hrun).
    apply Pick_loop_steps in HP as [S Hc].
    destruct r as [[q rest]|]; injection Hrun as <- <-; (split; [done|]); [by eapply Hc|done].
  - eapply (with_point_frame _ _ _ _ _ _ _ steps); [done| |exact H]. intros p p' _ Hrun.
    unfold keep in Hrun. apply bind_Ret_inv in Hrun as (b & w1 & HD & Hrun).
    injection Hrun as <- <-. apply Data_inv in HD as ->. split; [apply steps_refl|done].
  - eapply (with_point_frame _ _ _ _ _ _ _ steps); [done| |exact H]. intros p p' _ Hrun.
    unfold keep in Hrun. apply bind_Ret_inv in Hrun as (b & w1 & HM & Hrun).
    injection Hrun as <- <-. apply MarshalBinary_inv in HM as ->. split; [apply steps_refl|done].
  - eapply (with_point_frame _ _ _ _ _ _ _ steps); [done| |exact H]. intros p p' _ Hrun.
    apply bind_Ret_inv in Hrun as (r & w1 & HU & Hrun).
    injection Hrun as <- <-. by apply UnmarshalBinary_steps in HU.
Qed.

(** C9, as the code has it.  Whatever methods are called on the points of
    a curve, every integer of the store, shared between points or not,
    keeps its value modulo the field prime; and only [Equal] writes to an
    integer that exists: the other methods leave all of them as they
    are. *)
Theorem coordinates_keep_their_residue c os : forall pts w pts' w',
  Forall (fun p => pt_c p = c) pts ->
  exec_all c os (pts, w) = Some (pts', w') ->
  same_residues (cp_P (c_p c)) w w' /\
  (forallb (fun o => negb (is_Equal o)) os = true ->
   forall l v, ints w !! l = Some v -> ints w' !! l = Some v).
Proof.
  induction os as [|o os IH]; intros pts w pts' w' Hall H; cbn [exec_all forallb] in *.
  - injection H as <- <-. split; [apply steps_residues, steps_refl|done].
  - destruct (exec c o (pts, w)) as [[pts1 w1]|] eqn:E; [|done].
    destruct (exec_frame c o pts w pts1 w1 Hall E) as [Hall1 Hstep].
    destruct (IH pts1 w1 pts' w' Hall1 H) as [Hres Hkeep]. split.
    + eapply same_residues_trans; [|exact Hres].
      destruct (is_Equal o); [destruct Hstep; by apply reduced_residues|by apply steps_residues].
    + intros Hno l v Hl. apply andb_true_iff in Hno as [Ho Hos].
      destruct (is_Equal o); [done|]. apply (Hkeep Hos). by eapply steps_lookup.
Qed.

(** *** The properties on P-256 *)

Ltac computed := vm_compute; repeat split; (discriminate || reflexivity).

Ltac all_bytes := repeat (constructor; [unfold is_byte; lia|]); constructor.

Lemma stream_of_bytes bs : Forall is_byte bs -> forall i, is_byte (stream_of bs i).
Proof.
  intros H i. unfold stream_of. destruct (decide (i < length bs)%nat) as [Hi|Hi].
  - by apply Forall_nth.
  - rewrite nth_overflow by lia. unfold is_byte. lia.
Qed.

Lemma embedded_Data :
  Data embedded_point embedded_world = Ret (Some [97; 98], None) embedded_world.
Proof. vm_compute. reflexivity. Qed.

(** The claim C5 puts the length tag in the byte before the final one.
    On the point that embeds the bytes 97, 98 that byte is 98, more than
    [PickLen()] = 30, and yet [Data] returns the two bytes and no error. *)
Lemma Data_tag_before_final_counterexample :
  tag_before_final embedded_point embedded_world = Ret 98 embedded_world /\
  PickLen embedded_point = 30 /\
  Data embedded_point embedded_world = Ret (Some [97; 98], None) embedded_world /\
  ~ ((exists r e w', Data embedded_point embedded_world = Ret (r, Some e) w') <->
     PickLen embedded_point < 98).
Proof.
  split; [computed|]. split; [computed|]. split; [apply embedded_Data|].
  intros [_ H]. destruct H as (r & e & w' & H); [computed|].
  rewrite embedded_Data in H. discriminate H.
Qed.

Lemma Data_reads_final_byte_witness :
  let p := embedded_point in
  let w := embedded_world in
  let l := coordLen (pt_c p) in
  let b := padded_encoding (pt_c p) 0x616202 in
  let tag := nth (Z.to_nat (l - 1)) b 0 in
  (load (pt_x p) w = Ret 0x616202 w /\ 1 <= l /\
   Z.of_nat (length (big_Bytes 0x616202)) <= l /\ PickLen p < l) /\
  length b = Z.to_nat l /\
  Data p w =
    Ret (if PickLen p <? tag then (None, Some ErrInvalidLength)
         else (Some (take (Z.to_nat tag) (drop (Z.to_nat (l - 1 - tag)) b)), None)) w /\
  ((exists r e w', Data p w = Ret (r, Some e) w') <-> PickLen p < tag).
Proof.
  cbv zeta. split.
  - repeat split; computed.
  - apply (Data_reads_final_byte embedded_point embedded_world 0x616202); computed.
Defined.

Lemma Pick_then_Data_witness :
  let w := p256_world (replicate 28 0 ++ [4]) in
  exists p' w', Pick 2 (Point p256) (Some [97; 98]) w = Ret (Some (p', [])) w' /\
    Data p' w' = Ret (Some [97; 98], None) w'.
Proof.
  cbv zeta.
  assert (K : found (Pick 2 (Point p256) (Some [97; 98]) (p256_world (replicate 28 0 ++ [4])))
              = true) by (vm_compute; reflexivity).
  destruct (Pick 2 (Point p256) (Some [97; 98]) (p256_world (replicate 28 0 ++ [4])))
    as [[[p' rest]|] w'|] eqn:E; try discriminate K.
  destruct (Pick_then_Data 2 (Point p256) [97; 98] (p256_world (replicate 28 0 ++ [4]))
              p' rest w') as (HD & -> & _).
  - computed.
  - computed.
  - intros i. apply stream_of_bytes, Forall_app. split.
    + apply Forall_replicate. unfold is_byte. lia.
    + all_bytes.
  - all_bytes.
  - computed.
  - exact E.
  - exists p', w'. split; [reflexivity | exact HD].
Defined.

Lemma Valid_iff_witness :
  let w := p256_world [] in
  (load (pt_x base_point) w = Ret p256_Gx w /\ load (pt_y base_point) w = Ret p256_Gy w) /\
  exists b, Valid base_point w = Ret b w /\
    (b = true <-> c_IsOnCurve p256 p256_Gx p256_Gy = true \/ (p256_Gx = 0 /\ p256_Gy = 0)).
Proof.
  cbv zeta. split.
  - split; reflexivity.
  - apply (Valid_iff base_point (p256_world []) p256_Gx p256_Gy); reflexivity.
Defined.

(** The claim C8 has every buffer that is not the encoding of the origin
    and that Go's decoder gives no point for refused.  The two bytes 4, 0
    are not that encoding, which has 65 bytes, the decoder gives no point
    for them, and [UnmarshalBinary] accepts them as the origin. *)
Lemma Unmarshal_short_zero_body_counterexample :
  [4; 0] <> 4 :: replicate (Z.to_nat (2 * coordLen p256)) 0 /\
  elliptic_Unmarshal p256 [4; 0] = None /\
  exists q' w', UnmarshalBinary (Point p256) [4; 0] (p256_world []) = Ret (q', None) w' /\
    load (pt_x q') w' = Ret 0 w' /\ load (pt_y q') w' = Ret 0 w'.
Proof.
  split; [computed|]. split; [computed|].
  rewrite UnmarshalBinary_run. cbn [forallb Z.eqb andb]. cbv zeta.
  eexists _, _. split; [reflexivity|]. split; reflexivity.
Qed.

Lemma Marshal_then_Unmarshal_witness :
  let p := base_point in
  let w := p256_world [] in
  let n := Z.shiftr (cp_BitSize (c_p (pt_c p)) + 7) 3 in
  (load (pt_x p) w = Ret p256_Gx w /\ load (pt_y p) w = Ret p256_Gy w /\
   0 <= n /\ 0 <= p256_Gx < 256 ^ n /\ 0 <= p256_Gy < 256 ^ n /\
   cp_P (c_p (pt_c p)) <> 0 /\ Valid p w = Ret true w) /\
  exists buf q' w' w'',
    MarshalBinary p w = Ret (buf, None) w /\
    UnmarshalBinary (Point p256) buf w = Ret (q', None) w' /\
    load (pt_x q') w' = Ret p256_Gx w' /\ load (pt_y q') w' = Ret p256_Gy w' /\
    Equal q' p w' = Ret true w'' /\
    (p256_Gx = 0 /\ p256_Gy = 0 -> buf = 4 :: replicate (Z.to_nat (2 * n)) 0).
Proof.
  cbv zeta. split.
  - repeat split; computed.
  - apply (Marshal_then_Unmarshal base_point (Point p256) (p256_world []) p256_Gx p256_Gy);
      [reflexivity | reflexivity | reflexivity | computed ..].
Defined.

(** A point is picked, cloned, and the clone compared with itself. *)
Lemma shared_before_Equal :
  let s := exec_all p256 [OpPoint; OpPick 1 0 (Some [3]); OpClone 0] ([], p256_world wide_stream) in
  coords_of s =
    Some ([(Some 2%nat, Some 3%nat); (Some 2%nat, Some 3%nat)],
          [p256_Gx; p256_Gy; p256_P + 0x302;
           28506570179493195125098883344870172914266006509651278369749821258808347040360]) /\
  data_of 0 s = Some [3].
Proof. vm_compute. split; reflexivity. Qed.

Lemma shared_after_Equal :
  let s := exec_all p256 [OpPoint; OpPick 1 0 (Some [3]); OpClone 0; OpEqual 1 1]
             ([], p256_world wide_stream) in
  coords_of s =
    Some ([(Some 2%nat, Some 3%nat); (Some 2%nat, Some 3%nat)],
          [p256_Gx; p256_Gy; 0x302;
           28506570179493195125098883344870172914266006509651278369749821258808347040360]) /\
  data_of 0 s = Some [0; 3].
Proof. vm_compute. split; reflexivity. Qed.

(** The claim C9 has no operation write to a coordinate once it is
    shared.  A point picked on P-256 and its clone share the integers 2
    and 3 of the store; [Equal] called on the clone replaces the shared
    abscissa, the prime plus 0x302, by 0x302, and the data of the first
    point, which was the byte 3, becomes the bytes 0, 3. *)
Lemma Equal_writes_shared_coordinate_counterexample :
  let prog := [OpPoint; OpPick 1 0 (Some [3]); OpClone 0] in
  let s := exec_all p256 prog ([], p256_world wide_stream) in
  let s' := exec_all p256 (prog ++ [OpEqual 1 1]) ([], p256_world wide_stream) in
  (exists pts ns, coords_of s = Some (pts, ns) /\
     pts !! 0%nat = Some (Some 2%nat, Some 3%nat) /\ pts !! 1%nat = Some (Some 2%nat, Some 3%nat) /\
     ns !! 2%nat = Some (p256_P + 0x302)) /\
  (exists pts ns, coords_of s' = Some (pts, ns) /\
     pts !! 0%nat = Some (Some 2%nat, Some 3%nat) /\ ns !! 2%nat = Some 0x302) /\
  p256_P + 0x302 <> 0x302 /\
  data_of 0 s = Some [3] /\ data_of 0 s' = Some [0; 3].
Proof.
  cbv zeta. cbn [app].
  destruct shared_before_Equal as [B1 B2]. destruct shared_after_Equal as [A1 A2].
  split; [eexists _, _; split; [exact B1|]; by repeat split|].
  split; [eexists _, _; split; [exact A1|]; by repeat split|].
  split; [computed|]. by split.
Qed.

Lemma coordinates_keep_their_residue_witness :
  let prog := [OpPoint; OpPick 1 0 (Some [3]); OpClone 0; OpEqual 1 1] in
  let w := p256_world wide_stream in
  exists pts' w', exec_all p256 prog ([], w) = Some (pts', w') /\
    same_residues (cp_P (c_p p256)) w w' /\
    (forallb (fun o => negb (is_Equal o)) prog = true ->
     forall l v, ints w !! l = Some v -> ints w' !! l = Some v).
Proof.
  cbv zeta. destruct shared_after_Equal as [A1 _]. cbv zeta in A1.
  destruct (exec_all p256 [OpPoint; OpPick 1 0 (Some [3]); OpClone 0; OpEqual 1 1]
              ([], p256_world wide_stream)) as [[pts' w']|] eqn:E; [|discriminate A1].
  exists pts', w'. split; [reflexivity|].
  exact (coordinates_keep_their_residue p256
           [OpPoint; OpPick 1 0 (Some [3]); OpClone 0; OpEqual 1 1] [] (p256_world wide_stream) pts' w'
           (List.Forall_nil _) E).
Defined.

(** *** Further properties of the points *)

(** X9. [UnmarshalBinary] does not refuse the empty buffer with an error:
    slicing off the first byte panics. *)
Theorem UnmarshalBinary_empty_panics p w :
  UnmarshalBinary p [] w = Panics SliceBoundsOutOfRange.
Proof. reflexivity. Qed.

(** X10. The encoding [MarshalBinary] returns has [MarshalSize()] bytes,
    which is the [PointLen()] of the curve. *)
Theorem MarshalBinary_length p w x y :
  load (pt_x p) w = Ret x w -> load (pt_y p) w = Ret y w ->
  let n := Z.shiftr (cp_BitSize (c_p (pt_c p)) + 7) 3 in
  0 <= n -> 0 <= x < 256 ^ n -> 0 <= y < 256 ^ n ->
  exists buf, MarshalBinary p w = Ret (buf, None) w /\
    Z.of_nat (length buf) = MarshalSize p /\ MarshalSize p = PointLen (pt_c p).
Proof.
  intros Hx Hy n Hn Rx Ry.
  eexists. split; [by apply MarshalBinary_run|].
  cbn [length]. rewrite length_app, !to_be_length.
  unfold MarshalSize, PointLen, coordLen. fold n. split; [lia|].
  unfold n in *. rewrite Z.shiftr_div_pow2 in * by lia. change (2 ^ 3) with 8 in *.
  assert (0 <= cp_BitSize (c_p (pt_c p)) + 7).
  { destruct (Z.le_gt_cases 0 (cp_BitSize (c_p (pt_c p)) + 7)) as [?|Hneg]; [done|].
    pose proof (Z.div_lt_upper_bound (cp_BitSize (c_p (pt_c p)) + 7) 8 0 ltac:(lia) ltac:(lia)).
    lia. }
  by rewrite Z.quot_div_nonneg by lia.
Qed.

(** X11. When [Data] returns data it returns at most [PickLen()] bytes:
    as many as the final byte of the abscissa says. *)
Theorem Data_at_most_PickLen p w xv r e w' :
  load (pt_x p) w = Ret xv w ->
  let l := coordLen (pt_c p) in
  1 <= l -> Z.of_nat (length (big_Bytes xv)) <= l -> PickLen p < l ->
  Data p w = Ret (Some r, e) w' ->
  e = None /\ Z.of_nat (length r) <= PickLen p /\
  Z.of_nat (length r) = nth (Z.to_nat (l - 1)) (padded_encoding (pt_c p) xv) 0.
Proof.
  intros Hx l Hl Hfit Hpl H.
  pose proof (Data_run p w xv Hx Hl Hfit Hpl) as HD. cbv zeta in HD. fold l in HD.
  rewrite HD in H. clear HD.
  pose proof (padded_length (pt_c p) xv Hfit) as Hlen. fold l in Hlen.
  set (b := padded_encoding (pt_c p) xv) in *.
  assert (Htag : is_byte (nth (Z.to_nat (l - 1)) b 0)).
  { apply Forall_nth; [apply padded_bytes | lia]. }
  set (tag := nth (Z.to_nat (l - 1)) b 0) in *. unfold is_byte in Htag.
  destruct (Z.ltb_spec (PickLen p) tag) as [?|Hle]; [discriminate H|].
  injection H as <- <- _. split; [done|].
  rewrite length_take, length_drop. lia.
Qed.

(** [Equal] leaves the residues of the coordinates in the coordinates. *)
Lemma Equal_leaves_residues p q w x1 y1 x2 y2 :
  let m := cp_P (c_p (pt_c p)) in
  m <> 0 ->
  load (pt_x p) w = Ret x1 w -> load (pt_y p) w = Ret y1 w ->
  load (pt_x q) w = Ret x2 w -> load (pt_y q) w = Ret y2 w ->
  exists w', Equal p q w =
      Ret ((big_Mod x1 m =? big_Mod x2 m) && (big_Mod y1 m =? big_Mod y2 m)) w' /\
    load (pt_x p) w' = Ret (big_Mod x1 m) w' /\ load (pt_y p) w' = Ret (big_Mod y1 m) w' /\
    load (pt_x q) w' = Ret (big_Mod x2 m) w' /\ load (pt_y q) w' = Ret (big_Mod y2 m) w'.
Proof.
  intros m Hm Hx1 Hy1 Hx2 Hy2.
  apply load_inv in Hx1 as (_ & lx1 & Ex1 & Hx1). apply load_inv in Hy1 as (_ & ly1 & Ey1 & Hy1).
  apply load_inv in Hx2 as (_ & lx2 & Ex2 & Hx2). apply load_inv in Hy2 as (_ & ly2 & Ey2 & Hy2).
  destruct (Mod_in_place_next m lx1 w w x1 Hm (reduced_refl m w) Hx1) as (w1 & A1 & R1 & V1 & _).
  destruct (Mod_in_place_next m ly1 w w1 y1 Hm R1 Hy1) as (w2 & A2 & R2 & V2 & K2).
  destruct (Mod_in_place_next m lx2 w w2 x2 Hm R2 Hx2) as (w3 & A3 & R3 & V3 & K3).
  destruct (Mod_in_place_next m ly2 w w3 y2 Hm R3 Hy2) as (w4 & A4 & R4 & V4 & K4).
  pose proof (load_run lx1 w4 _ (K4 _ _ (K3 _ _ (K2 _ _ V1)))) as L1.
  pose proof (load_run lx2 w4 _ (K4 _ _ V3)) as L2.
  pose proof (load_run ly1 w4 _ (K4 _ _ (K3 _ _ V2))) as L3.
  pose proof (load_run ly2 w4 _ V4) as L4.
  exists w4. rewrite Ex1, Ey1, Ex2, Ey2. split; [|done].
  unfold Equal. fold m. rewrite Ex1, Ey1, Ex2, Ey2.
  rewrite (bind_run _ _ _ _ _ A1), (bind_run _ _ _ _ _ A2),
          (bind_run _ _ _ _ _ A3), (bind_run _ _ _ _ _ A4).
  by rewrite (bind_run _ _ _ _ _ L1), (bind_run _ _ _ _ _ L2),
             (bind_run _ _ _ _ _ L3), (bind_run _ _ _ _ _ L4).
Qed.

(** X12. [Equal] compares modulo the field prime: it returns true exactly
    when the abscissas and the ordinates of the two points are congruent
    modulo [P], whether they are stored reduced or not, and it leaves the
    residues in the coordinates of both points.  When [P] is zero it
    panics with a division by zero. *)
Theorem Equal_iff_congruent p q w x1 y1 x2 y2 :
  load (pt_x p) w = Ret x1 w -> load (pt_y p) w = Ret y1 w ->
  load (pt_x q) w = Ret x2 w -> load (pt_y q) w = Ret y2 w ->
  let m := cp_P (c_p (pt_c p)) in
  (m = 0 -> Equal p q w = Panics DivisionByZero) /\
  (m <> 0 -> exists b w',
     Equal p q w = Ret b w' /\
     (b = true <-> x1 mod Z.abs m = x2 mod Z.abs m /\ y1 mod Z.abs m = y2 mod Z.abs m) /\
     load (pt_x p) w' = Ret (x1 mod Z.abs m) w' /\ load (pt_y p) w' = Ret (y1 mod Z.abs m) w' /\
     load (pt_x q) w' = Ret (x2 mod Z.abs m) w' /\ load (pt_y q) w' = Ret (y2 mod Z.abs m) w').
Proof.
  intros Hx1 Hy1 Hx2 Hy2 m. split.
  - intros Hm. unfold m in Hm. unfold Equal, Mod_in_place, bind.
    by rewrite Hx1, Hm.
  - intros Hm.
    destruct (Equal_leaves_residues p q w x1 y1 x2 y2 Hm Hx1 Hy1 Hx2 Hy2)
      as (w' & HE & L1 & L2 & L3 & L4).
    eexists _, w'. split; [exact HE|]. split; [|done].
    by rewrite andb_true_iff, !Z.eqb_eq.
Qed.

(** A reduced integer is not changed by [z.Mod(z, M)]. *)
Lemma Mod_in_place_reduced l m w v :
  ints w !! l = Some v -> 0 <= v < Z.abs m -> Mod_in_place (Some l) m w = Ret tt w.
Proof.
  intros Hl Hv. unfold Mod_in_place. rewrite (bind_run _ _ _ _ _ (load_run l w v Hl)).
  destruct (Z.eqb_spec m 0) as [->|_]; [cbn in Hv; lia|].
  unfold store. rewrite (proj2 (Nat.ltb_lt _ _) (lookup_lt_Some _ _ _ Hl)).
  rewrite big_Mod_small by done. rewrite list_insert_id by done. by destruct w.
Qed.

(** X13. On points whose coordinates are stored reduced, [Equal] writes
    nothing: the store is what it was, and the result says whether the
    coordinates are the same. *)
Theorem Equal_keeps_reduced p q w x1 y1 x2 y2 :
  load (pt_x p) w = Ret x1 w -> load (pt_y p) w = Ret y1 w ->
  load (pt_x q) w = Ret x2 w -> load (pt_y q) w = Ret y2 w ->
  let m := Z.abs (cp_P (c_p (pt_c p))) in
  0 <= x1 < m -> 0 <= y1 < m -> 0 <= x2 < m -> 0 <= y2 < m ->
  Equal p q w = Ret ((x1 =? x2) && (y1 =? y2)) w.
Proof.
  intros Hx1 Hy1 Hx2 Hy2 m R1 R2 R3 R4.
  pose proof Hx1 as Lx1. pose proof Hy1 as Ly1. pose proof Hx2 as Lx2. pose proof Hy2 as Ly2.
  apply load_inv in Hx1 as (_ & lx1 & Ex1 & Hx1). apply load_inv in Hy1 as (_ & ly1 & Ey1 & Hy1).
  apply load_inv in Hx2 as (_ & lx2 & Ex2 & Hx2). apply load_inv in Hy2 as (_ & ly2 & Ey2 & Hy2).
  unfold Equal.
  rewrite Ex1 at 1. rewrite (bind_run _ _ _ _ _ (Mod_in_place_reduced _ _ _ _ Hx1 R1)).
  rewrite Ey1 at 1. rewrite (bind_run _ _ _ _ _ (Mod_in_place_reduced _ _ _ _ Hy1 R2)).
  rewrite Ex2 at 1. rewrite (bind_run _ _ _ _ _ (Mod_in_place_reduced _ _ _ _ Hx2 R3)).
  rewrite Ey2 at 1. rewrite (bind_run _ _ _ _ _ (Mod_in_place_reduced _ _ _ _ Hy2 R4)).
  by rewrite (bind_run _ _ _ _ _ Lx1), (bind_run _ _ _ _ _ Lx2),
             (bind_run _ _ _ _ _ Ly1), (bind_run _ _ _ _ _ Ly2).
Qed.

(** X14. [Null] makes the point the origin, which [Valid] accepts whatever
    the curve's membership test says; its coordinates are two new
    integers, and no integer that existed is written. *)
Theorem Null_is_valid p w :
  exists p' w',
    Null p w = Ret p' w' /\
    load (pt_x p') w' = Ret 0 w' /\ load (pt_y p') w' = Ret 0 w' /\
    Valid p' w' = Ret true w' /\
    pt_x p' = Some (length (ints w)) /\ pt_y p' = Some (S (length (ints w))) /\
    ints w' = ints w ++ [0; 0].
Proof.
  set (n := length (ints w)).
  set (w' := NWorld (ints w ++ [0; 0]) (rnd w) (turns w)).
  set (p' := with_xy p (Some n) (Some (S n))).
  assert (L1 : load (pt_x p') w' = Ret 0 w').
  { apply load_run. cbn [ints w']. rewrite lookup_app_r by (fold n; lia).
    fold n. by rewrite Nat.sub_diag. }
  assert (L2 : load (pt_y p') w' = Ret 0 w').
  { apply load_run. cbn [ints w']. rewrite lookup_app_r by (fold n; lia).
    fold n. by replace (S n - n)%nat with 1%nat by lia. }
  exists p', w'. split.
  - unfold Null, bind, new_int, ret. cbn [ints rnd turns].
    rewrite length_app, <- app_assoc. cbn [length app]. fold n.
    by replace (n + 1)%nat with (S n) by lia.
  - split; [exact L1|]. split; [exact L2|]. split; [|done].
    rewrite (Valid_run _ _ 0 0 L1 L2). by rewrite orb_true_r.
Qed.

(** What [genPoint] does on an abscissa: one new integer for the
    ordinate, one random byte for its sign, and the point is set when the
    square of the ordinate is the right-hand side of the curve equation. *)
Lemma genPoint_run p lx xv w :
  ints w !! lx = Some xv -> cp_P (c_p (pt_c p)) <> 0 ->
  let P := cp_P (c_p (pt_c p)) in
  let y2 := big_Mod (xv * xv * xv - (Z.shiftl xv 1 + xv) + cp_B (c_p (pt_c p))) P in
  let y0 := c_sqrt (pt_c p) y2 in
  let y := if negb (Z.land (Z.lxor 0 (rnd w 0)) 128 =? 0) then P - y0 else y0 in
  genPoint p (Some lx) w =
    Ret (if big_Mod (y * y) P =? y2
         then (with_xy p (Some lx) (Some (length (ints w))), true)
         else (p, false))
        (NWorld (ints w ++ [y]) (fun i => rnd w (1 + i)%nat) (turns w)).
Proof.
  intros Hx HP P y2 y0 y. unfold genPoint.
  rewrite (bind_run _ _ _ _ _ (load_run lx w xv Hx)). fold P.
  destruct (Z.eqb_spec P 0) as [?|_]; [done|]. fold y2 y0.
  rewrite (bind_run _ _ _ _ _ (new_int_run y0 w)).
  unfold bind at 1. unfold XORKeyStream at 1. cbn [length seq map zip_with hd ints rnd turns].
  set (n := length (ints w)).
  set (flip := negb (Z.land (Z.lxor 0 (rnd w 0)) 128 =? 0)) in *.
  assert (Hlt : (n <? length (ints w ++ [y0]))%nat = true).
  { apply Nat.ltb_lt. rewrite length_app. cbn [length]. unfold n. lia. }
  assert (Hy0 : (ints w ++ [y0]) !! n = Some y0).
  { rewrite lookup_app_r by (unfold n; lia). unfold n. by rewrite Nat.sub_diag. }
  assert (Hins : forall v, <[n := v]> (ints w ++ [y0]) = ints w ++ [v]).
  { intros v. replace n with (length (ints w) + 0)%nat by (unfold n; lia).
    by rewrite insert_app_r. }
  assert (Hstep :
    (if flip
     then do yv <- load (Some n); store (Some n) (P - yv)
     else ret tt) (NWorld (ints w ++ [y0]) (fun i => rnd w (1 + i)%nat) (turns w))
    = Ret tt (NWorld (ints w ++ [y]) (fun i => rnd w (1 + i)%nat) (turns w))).
  { unfold y. destruct flip; [|done].
    unfold bind, load, store. cbn [ints rnd turns]. rewrite Hy0. cbn [ints rnd turns].
    by rewrite Hlt, Hins. }
  rewrite (bind_run _ _ _ _ _ Hstep).
  assert (Hy : load (Some n) (NWorld (ints w ++ [y]) (fun i => rnd w (1 + i)%nat) (turns w))
               = Ret y (NWorld (ints w ++ [y]) (fun i => rnd w (1 + i)%nat) (turns w))).
  { apply load_run. cbn [ints]. rewrite lookup_app_r by (unfold n; lia).
    unfold n. by rewrite Nat.sub_diag. }
  rewrite (bind_run _ _ _ _ _ Hy).
  by destruct (big_Mod (y * y) P =? y2).
Qed.

Lemma random_Bits_run bitlen w :
  exists b w', random_Bits bitlen w = Ret b w' /\
    length b = Z.to_nat (Z.quot (bitlen + 7) 8).
Proof.
  unfold random_Bits, bind, XORKeyStream.
  set (n := Z.to_nat (Z.quot (bitlen + 7) 8)).
  set (ks := zip_with Z.lxor (replicate n 0) (map (rnd w) (seq 0 (length (replicate n 0))))).
  assert (Hl : length ks = n).
  { unfold ks. rewrite length_zip_with, !length_replicate, length_map, length_seq. lia. }
  destruct (negb _); eexists _, _; (split; [reflexivity|]); [|done].
  destruct ks; [done|]. exact Hl.
Qed.

(** X15. [Pick] does not panic: on a curve whose prime has at least 16
    bits and fills the coordinate length, every index and slice it takes
    is in range, whatever the data (nil or not, short or long) and the
    random stream; it returns a point or is still looking for one. *)
Theorem Pick_never_panics fuel p data w :
  coordLen (pt_c p) = Z.quot (big_BitLen (cp_P (c_p (pt_c p))) + 7) 8 ->
  0 <= PickLen p ->
  exists r w', Pick fuel p data w = Ret r w'.
Proof.
  intros Hcl Hpl. unfold Pick. cbv zeta.
  set (d := default [] data).
  set (dl := if Z.of_nat (length d) <? PickLen p then Z.of_nat (length d) else PickLen p).
  set (l := coordLen (pt_c p)).
  assert (Hdl : 0 <= dl <= Z.of_nat (length d)).
  { unfold dl. destruct (Z.ltb_spec (Z.of_nat (length d)) (PickLen p)); lia. }
  assert (Hroom : dl + 2 <= l).
  { pose proof (PickLen_room (big_BitLen (cp_P (c_p (pt_c p)))) Hpl) as Hr.
    fold (PickLen p) in Hr. rewrite <- Hcl in Hr. fold l in Hr.
    unfold dl. destruct (Z.ltb_spec (Z.of_nat (length d)) (PickLen p)); lia. }
  assert (HP : cp_P (c_p (pt_c p)) <> 0).
  { intros E. unfold PickLen in Hpl. rewrite E in Hpl.
    change (Z.quot (big_BitLen 0 - 8 - 8) 8) with (-2) in Hpl. lia. }
  clearbody dl. revert w.
  induction fuel as [|fuel IH]; intros w; cbn [Pick_loop]; [by eexists _, _|].
  destruct (random_Bits_run (big_BitLen (cp_P (c_p (pt_c p)))) w) as (b0 & w1 & HB & Hlen).
  rewrite <- Hcl in Hlen. fold l in Hlen.
  rewrite (bind_run _ _ _ _ _ HB).
  assert (exists b, (match data with
                     | Some d0 => do b <- set_index b0 (l - 1) (dl mod 256);
                                  copy_into b (l - dl - 1) (l - 1) d0
                     | None => ret b0
                     end) w1 = Ret b w1) as (b & Hb).
  { destruct data as [d0|]; [|by eexists].
    assert (H1 : 0 <= l - 1 < Z.of_nat (length b0)) by lia.
    rewrite (bind_run _ _ _ _ _ (set_index_run b0 (l - 1) (dl mod 256) w1 H1)).
    unfold copy_into.
    assert (H2 : 0 <= l - dl - 1 <= l - 1) by lia.
    assert (H3 : l - 1 <= Z.of_nat (length (<[Z.to_nat (l - 1) := dl mod 256]> b0)))
      by (rewrite length_insert; lia).
    rewrite (bind_run _ _ _ _ _ (subslice_run _ (l - dl - 1) (l - 1) w1 H2 H3)).
    by eexists. }
  rewrite (bind_run _ _ _ _ _ Hb).
  rewrite (bind_run _ _ _ _ _ (new_int_run (big_SetBytes b) w1)).
  set (w2 := NWorld (ints w1 ++ [big_SetBytes b]) (rnd w1) (turns w1)).
  assert (Hx : ints w2 !! length (ints w1) = Some (big_SetBytes b)).
  { unfold w2. cbn [ints]. rewrite lookup_app_r by lia. by rewrite Nat.sub_diag. }
  pose proof (genPoint_run p (length (ints w1)) (big_SetBytes b) w2 Hx HP) as HG.
  cbv zeta in HG. rewrite (bind_run _ _ _ _ _ HG). clear HG.
  match goal with |- context [if ?c then (_, true) else _] => destruct c end.
  - assert (H1 : 0 <= dl <= Z.of_nat (length d)) by lia.
    rewrite (bind_run _ _ _ _ _ (subslice_run d dl (Z.of_nat (length d)) _ H1 ltac:(reflexivity))).
    by eexists _, _.
  - apply IH.
Qed.

Lemma genPoint_zero p lx xv w :
  ints w !! lx = Some xv -> cp_P (c_p (pt_c p)) = 0 ->
  genPoint p (Some lx) w = Panics DivisionByZero.
Proof.
  intros Hx HP. unfold genPoint. rewrite (bind_run _ _ _ _ _ (load_run lx w xv Hx)).
  by rewrite HP.
Qed.

(** The point a successful run of the loop of [Pick] leaves satisfies
    the equation [genPoint] checks. *)
Lemma Pick_loop_on_curve fuel : forall p data l dl w p' rest w',
  Pick_loop fuel p data l dl w = Ret (Some (p', rest)) w' ->
  let P := cp_P (c_p (pt_c p)) in
  exists lx ly xv yv,
    pt_x p' = Some lx /\ pt_y p' = Some ly /\
    ints w' !! lx = Some xv /\ ints w' !! ly = Some yv /\
    P <> 0 /\ pt_c p' = pt_c p /\
    big_Mod (yv * yv) P =
    big_Mod (xv * xv * xv - (Z.shiftl xv 1 + xv) + cp_B (c_p (pt_c p))) P.
Proof.
  induction fuel as [|fuel IH]; intros p data l dl w p' rest w' H P; cbn [Pick_loop] in H;
    [discriminate H|].
  apply bind_Ret_inv in H as (b0 & wa & Ha & H).
  apply bind_Ret_inv in H as (b1 & wb & Hb & H).
  apply bind_Ret_inv in H as (x & wc & Hc & H).
  injection Hc as <- <-.
  apply bind_Ret_inv in H as ([q ok] & wd & Hd & H).
  set (w2 := NWorld (ints wb ++ [big_SetBytes b1]) (rnd wb) (turns wb)) in *.
  assert (Hx : ints w2 !! length (ints wb) = Some (big_SetBytes b1)).
  { unfold w2. cbn [ints]. rewrite lookup_app_r by lia. by rewrite Nat.sub_diag. }
  destruct (Z.eq_dec P 0) as [HP|HP].
  { rewrite (genPoint_zero p _ _ w2 Hx HP) in Hd. discriminate Hd. }
  pose proof (genPoint_run p _ _ w2 Hx HP) as HG. cbv zeta in HG. fold P in HG.
  rewrite HG in Hd. clear HG.
  match type of Hd with context [if ?c then (_, true) else _] => destruct c eqn:Hcond end.
  - injection Hd as <- <- <-.
    apply bind_Ret_inv in H as (r & we & He & H).
    apply subslice_inv in He as (-> & _). injection H as <- <- <-.
    apply Z.eqb_eq in Hcond.
    eexists (length (ints wb)), (length (ints w2)), _, _.
    split; [done|]. split; [done|]. cbn [ints]. split.
    + by apply lookup_app_l_Some.
    + split; [|split; [done|split; [done|exact Hcond]]].
      apply list_lookup_middle. reflexivity.
  - injection Hd as <- <- <-. by apply IH in H.
Qed.

(** X16. The point [Pick] returns is on the curve: on a curve whose
    membership test is the equation y^2 = x^3 - 3x + B modulo P, as for
    the NIST curves of Go's library, [Valid] accepts it. *)
Theorem Pick_point_is_valid fuel p data w p' rest w' :
  0 < cp_P (c_p (pt_c p)) ->
  (forall x y, c_IsOnCurve (pt_c p) x y =
     ((y * y) mod cp_P (c_p (pt_c p)) =?
      (x * x * x - 3 * x + cp_B (c_p (pt_c p))) mod cp_P (c_p (pt_c p)))) ->
  Pick fuel p data w = Ret (Some (p', rest)) w' ->
  Valid p' w' = Ret true w'.
Proof.
  intros HP Hon H. unfold Pick in H. cbv zeta in H.
  apply Pick_loop_on_curve in H as (lx & ly & xv & yv & Ex & Ey & Hx & Hy & _ & Hc & Heq).
  rewrite (Valid_run p' w' xv yv) by (rewrite ?Ex, ?Ey; by apply load_run).
  rewrite Hc, Hon. unfold big_Mod in Heq. rewrite Z.abs_eq in Heq by lia.
  rewrite Z.shiftl_mul_pow2 in Heq by lia.
  replace (xv * xv * xv - (xv * 2 ^ 1 + xv)) with (xv * xv * xv - 3 * xv) in Heq by lia.
  by rewrite Heq, Z.eqb_refl.
Qed.

(** X17. [Pick] embeds as much of the data as fits: the first [PickLen()]
    bytes of a longer payload, all of a shorter one.  [Data] on the point
    returns the embedded bytes, and [Pick] hands back the rest of the
    payload. *)
Theorem Pick_embeds_prefix fuel p d w p' rest w' :
  coordLen (pt_c p) = Z.quot (big_BitLen (cp_P (c_p (pt_c p))) + 7) 8 ->
  0 <= PickLen p < 256 ->
  (forall i, is_byte (rnd w i)) -> Forall is_byte d ->
  Pick fuel p (Some d) w = Ret (Some (p', rest)) w' ->
  let n := Z.to_nat (Z.min (Z.of_nat (length d)) (PickLen p)) in
  Data p' w' = Ret (Some (take n d), None) w' /\ rest = drop n d.
Proof.
  intros Hcl H256 Hrnd Hd H n.
  unfold Pick in H. cbv beta zeta in H. cbn [default id] in H.
  set (dl := if Z.of_nat (length d) <? PickLen p then Z.of_nat (length d) else PickLen p) in *.
  assert (Hdl : dl = Z.min (Z.of_nat (length d)) (PickLen p)).
  { unfold dl. destruct (Z.ltb_spec (Z.of_nat (length d)) (PickLen p)); lia. }
  assert (Hn : Z.to_nat dl = n) by (unfold n; by rewrite Hdl).
  pose proof (PickLen_room (big_BitLen (cp_P (c_p (pt_c p))))) as Hroom.
  fold (PickLen p) in Hroom. rewrite <- Hcl in Hroom.
  specialize (Hroom ltac:(lia)).
  set (l := coordLen (pt_c p)) in *.
  assert (A1 : 0 <= dl <= Z.of_nat (length d)) by lia.
  assert (A2 : dl + 1 <= l) by lia.
  assert (A3 : dl < 256) by lia.
  clearbody dl.
  destruct (Pick_loop_inv fuel p d l dl w p' rest w' Hrnd Hd Hcl A1 A2 A3 H)
    as (b & lx & B1 & B2 & B3 & B4 & B5 & B6 & B7 & B8 & _).
  rewrite Hn in B4, B8. split; [|exact B8].
  assert (Hx : load (pt_x p') w' = Ret (big_SetBytes b) w') by (rewrite B5; by apply load_run).
  assert (Henc : padded_encoding (pt_c p') (big_SetBytes b) = b).
  { rewrite padded_to_be; rewrite B7; fold l.
    - rewrite <- B1. by apply to_be_SetBytes.
    - lia.
    - pose proof (SetBytes_bound b B2) as Hb. rewrite B1, Z2Nat.id in Hb by lia. exact Hb. }
  assert (Hpl : PickLen p' = PickLen p) by (unfold PickLen; by rewrite B7).
  pose proof (Data_run p' w' (big_SetBytes b) Hx) as HD. cbv zeta in HD.
  rewrite HD; clear HD.
  - rewrite Henc, B7, Hpl. fold l. rewrite B3.
    destruct (Z.ltb_spec (PickLen p) dl) as [?|_]; [lia|].
    by rewrite Hn, B4.
  - rewrite B7. fold l. lia.
  - rewrite B7. fold l.
    destruct (Bytes_padded (Z.to_nat l) (big_SetBytes b)) as [Hle _]; [|lia].
    pose proof (SetBytes_bound b B2) as Hb. by rewrite B1 in Hb.
  - rewrite Hpl, B7. fold l. lia.
Qed.

Lemma MarshalBinary_length_witness :
  let p := base_point in
  let w := p256_world [] in
  let n := Z.shiftr (cp_BitSize (c_p (pt_c p)) + 7) 3 in
  (load (pt_x p) w = Ret p256_Gx w /\ load (pt_y p) w = Ret p256_Gy w /\
   0 <= n /\ 0 <= p256_Gx < 256 ^ n /\ 0 <= p256_Gy < 256 ^ n) /\
  exists buf, MarshalBinary p w = Ret (buf, None) w /\
    Z.of_nat (length buf) = MarshalSize p /\ MarshalSize p = PointLen (pt_c p).
Proof.
  cbv zeta. split.
  - repeat split; computed.
  - apply (MarshalBinary_length base_point (p256_world []) p256_Gx p256_Gy);
      [reflexivity | reflexivity | computed ..].
Defined.

Lemma Data_at_most_PickLen_witness :
  let p := embedded_point in
  let w := embedded_world in
  let l := coordLen (pt_c p) in
  (load (pt_x p) w = Ret 0x616202 w /\ 1 <= l /\
   Z.of_nat (length (big_Bytes 0x616202)) <= l /\ PickLen p < l /\
   Data p w = Ret (Some [97; 98], None) w) /\
  (None : option data_error) = None /\ Z.of_nat (length [97; 98]) <= PickLen p /\
  Z.of_nat (length [97; 98]) = nth (Z.to_nat (l - 1)) (padded_encoding (pt_c p) 0x616202) 0.
Proof.
  cbv zeta. split.
  - repeat split; computed.
  - apply (Data_at_most_PickLen embedded_point embedded_world 0x616202 [97; 98] None
             embedded_world); computed.
Defined.

Lemma Equal_iff_congruent_witness :
  let p := base_point in
  let w := p256_world [] in
  let m := cp_P (c_p (pt_c p)) in
  (load (pt_x p) w = Ret p256_Gx w /\ load (pt_y p) w = Ret p256_Gy w) /\
  (m = 0 -> Equal p p w = Panics DivisionByZero) /\
  (m <> 0 -> exists b w',
     Equal p p w = Ret b w' /\
     (b = true <-> p256_Gx mod Z.abs m = p256_Gx mod Z.abs m /\
                   p256_Gy mod Z.abs m = p256_Gy mod Z.abs m) /\
     load (pt_x p) w' = Ret (p256_Gx mod Z.abs m) w' /\
     load (pt_y p) w' = Ret (p256_Gy mod Z.abs m) w' /\
     load (pt_x p) w' = Ret (p256_Gx mod Z.abs m) w' /\
     load (pt_y p) w' = Ret (p256_Gy mod Z.abs m) w').
Proof.
  cbv zeta. split.
  - split; reflexivity.
  - apply (Equal_iff_congruent base_point base_point (p256_world [])
             p256_Gx p256_Gy p256_Gx p256_Gy); reflexivity.
Defined.

Lemma Equal_keeps_reduced_witness :
  let p := base_point in
  let w := p256_world [] in
  let m := Z.abs (cp_P (c_p (pt_c p))) in
  (load (pt_x p) w = Ret p256_Gx w /\ load (pt_y p) w = Ret p256_Gy w /\
   0 <= p256_Gx < m /\ 0 <= p256_Gy < m) /\
  Equal p p w = Ret ((p256_Gx =? p256_Gx) && (p256_Gy =? p256_Gy)) w.
Proof.
  cbv zeta. split.
  - repeat split; computed.
  - apply (Equal_keeps_reduced base_point base_point (p256_world [])
             p256_Gx p256_Gy p256_Gx p256_Gy);
      [reflexivity | reflexivity | reflexivity | reflexivity | computed ..].
Defined.

Lemma Pick_never_panics_witness :
  let p := Point p256 in
  (coordLen (pt_c p) = Z.quot (big_BitLen (cp_P (c_p (pt_c p))) + 7) 8 /\ 0 <= PickLen p) /\
  exists r w', Pick 1 p (Some [97; 98]) (p256_world []) = Ret r w'.
Proof.
  cbv zeta. split.
  - split; computed.
  - apply (Pick_never_panics 1 (Point p256) (Some [97; 98]) (p256_world [])); computed.
Defined.

Lemma Pick_point_is_valid_witness :
  exists p' rest w',
    Pick 1 (Point p256) (Some [97; 98]) (p256_world []) = Ret (Some (p', rest)) w' /\
    Valid p' w' = Ret true w'.
Proof.
  assert (K : found (Pick 1 (Point p256) (Some [97; 98]) (p256_world [])) = true)
    by (vm_compute; reflexivity).
  destruct (Pick 1 (Point p256) (Some [97; 98]) (p256_world []))
    as [[[p' rest]|] w'|] eqn:E; try discriminate K.
  exists p', rest, w'. split; [reflexivity|].
  apply (Pick_point_is_valid 1 (Point p256) (Some [97; 98]) (p256_world []) p' rest w').
  - computed.
  - intros x y. unfold Point, p256, on_curve. cbn [pt_c c_IsOnCurve c_p cp_P cp_B].
    reflexivity.
  - exact E.
Defined.

Lemma Pick_embeds_prefix_witness :
  let d := replicate 31 1 in
  exists p' rest w',
    Pick 1 (Point p256) (Some d) (p256_world []) = Ret (Some (p', rest)) w' /\
    Data p' w' = Ret (Some (take 30 d), None) w' /\ rest = drop 30 d.
Proof.
  cbv zeta.
  assert (K : found (Pick 1 (Point p256) (Some (replicate 31 1)) (p256_world [])) = true)
    by (vm_compute; reflexivity).
  destruct (Pick 1 (Point p256) (Some (replicate 31 1)) (p256_world []))
    as [[[p' rest]|] w'|] eqn:E; try discriminate K.
  exists p', rest, w'. split; [reflexivity|].
  apply (Pick_embeds_prefix 1 (Point p256) (replicate 31 1) (p256_world []) p' rest w').
  - computed.
  - computed.
  - intros i. apply stream_of_bytes. constructor.
  - apply Forall_replicate. unfold is_byte. lia.
  - exact E.
Defined.

End NistFacts.
